(** * ImapSyncService: a shallow embedding of the IMAP synchronisation engine

    The development follows [services/imap.service.ts].  The service is an
    event-driven program: the IMAP library, the mail parser, the clock and
    the timer queue form its environment.  Handlers are embedded as pure
    functions on explicit state, the environment as events delivered to
    them.

    Layers, leaf first:
    - [Normalizer]: the three handlers attached to one fetched message;
    - [Batcher]: one fetch object and the batching of the initial sync;
    - [Service]: the connection objects, the three maps of the class, the
      timer queue and the public methods. *)

From stdpp Require Import gmap strings list fin_maps pretty sorting.
From Stdlib Require Import ZArith.
From Equations Require Import Equations.

(** ** JavaScript values used by the service *)

(** [Date] values are milliseconds since the epoch. *)
Definition Date := Z.

(** Truthiness of a possibly undefined string: [undefined] and the empty
    string are falsy. *)
Definition truthy (s : option string) : bool :=
  match s with
  | Some s => negb (String.eqb s "")
  | None => false
  end.

(** [s || d] on a possibly undefined string. *)
Definition or_str (s : option string) (d : string) : string :=
  match s with
  | Some s => if String.eqb s "" then d else s
  | None => d
  end.

(** [s || undefined]. *)
Definition or_undefined (s : option string) : option string :=
  if truthy s then s else None.

(** [a || []]: an array is truthy even when it is empty. *)
Definition or_nil {A} (a : option (list A)) : list A := default [] a.

(** [a?.[0]]. *)
Definition first_of {A} (a : option (list A)) : option A := a ≫= head.

(** [arr.includes(s)] on strings. *)
Definition includes (s : string) (arr : list string) : bool :=
  existsb (String.eqb s) arr.

(** ** Logging *)

Inductive Level := LInfo | LError | LDebug.

(** One call of the logger: the message text and, for the two-argument
    calls [logger.error(msg, err)], the error that was passed along. *)
Record LogEntry := { level : Level; text : string; detail : option string }.

Definition log_info (t : string) : LogEntry := {| level := LInfo; text := t; detail := None |}.
Definition log_debug (t : string) : LogEntry := {| level := LDebug; text := t; detail := None |}.
Definition log_error (t : string) : LogEntry := {| level := LError; text := t; detail := None |}.
Definition log_error_with (t e : string) : LogEntry :=
  {| level := LError; text := t; detail := Some e |}.

(** ** models/email.ts *)

Inductive EmailCategory :=
| Interested | MeetingBooked | NotInterested | Spam | OutOfOffice | Uncategorized.

Record Attachment := { filename : string; contentType : string; size : Z }.

(** [Partial<EmailDocument>]: the object a message closure fills in.  The
    fields the closure initialises are plain, the others may be undefined. *)
Module Email.
Record t := mk {
  id : string;
  accountId : string;
  folder : string;
  subject : option string;
  body : option string;
  bodyHtml : option string;
  from : option string;
  to : option (list string);
  cc : option (list string);
  bcc : option (list string);
  date : option Date;
  attachments : option (list Attachment);
  read : bool;
  aiCategory : EmailCategory;
  indexedAt : Date
}.
End Email.

(** ** What the libraries hand to the handlers *)

(** Result of [Imap.parseHeader]: header name to its values. *)
Abbreviation ParsedHeader := (gmap string (list string)).

(** An attachment as [mailparser] reports it. *)
Record MailAttachment := {
  att_filename : option string;
  att_contentType : string;
  att_size : Z
}.

(** The fields of a [ParsedMail] the service reads; [html] is [false] or a
    string, [None] stands for [false]. *)
Record ParsedMail := {
  mail_text : option string;
  mail_html : option string;
  mail_attachments : list MailAttachment
}.

(** The attributes of a fetched message. *)
Record Attrs := { uid : N; flags : option (list string) }.


(** The library functions the handlers call, supplied by the environment:
    [Imap.parseHeader], [simpleParser] (a rejected promise is [inl] of the
    error text) and the [Date] constructor applied to a string. *)
Class Libraries := {
  parseHeader : string → ParsedHeader;
  simpleParser : string → string + ParsedMail;
  parseDate : string → Date
}.

(** ** Message Normalizer: the handlers of one fetched message

    Lines 194-260 (initial sync) and 359-426 (new mail) attach the same
    three handlers to every message; they differ only in what follows the
    emission in the ['end'] handler, which [Batcher] adds. *)
Module Normalizer.
Section Normalizer.
Context `{!Libraries}.

(** The closure of one ['message'] event: the [email] object, the sequence
    number the event carried, the body buffers whose [simpleParser] promise
    is still awaited, and whether the two [once] handlers are still
    registered. *)
Record Msg := {
  email : Email.t;
  seqno : Z;
  awaiting : list string;
  attributesOnce : bool;
  endOnce : bool
}.

(** Events the library delivers on a message object: a body stream
    delivered [chunks] and ended; the [i]-th awaited [simpleParser] promise
    settles; the attributes; the end of the message. *)
Inductive MsgEvent :=
| BodyEnd (which : string) (chunks : list string) (now : Date)
| ParseSettled (i : nat)
| Attributes (attrs : Attrs)
| End.

(** What a handler does besides updating its closure. *)
Inductive Effect :=
| Log (e : LogEntry)
| Emit (e : Email.t).

(** Lines 195-202: the object created when a ['message'] event arrives;
    [uuid] is the value [uuidv4()] returns. *)
Definition new_email (accountId uuid : string) (now : Date) : Email.t :=
  {| Email.id := uuid;
     Email.accountId := accountId;
     Email.folder := "INBOX";
     Email.subject := None;
     Email.body := None;
     Email.bodyHtml := None;
     Email.from := None;
     Email.to := None;
     Email.cc := None;
     Email.bcc := None;
     Email.date := None;
     Email.attachments := None;
     Email.read := false;
     Email.aiCategory := Uncategorized;
     Email.indexedAt := now |}.

Definition new_msg (accountId : string) (seq : Z) (uuid : string) (now : Date) : Msg :=
  {| email := new_email accountId uuid now;
     seqno := seq;
     awaiting := [];
     attributesOnce := true;
     endOnce := true |}.

(** [buffer += chunk.toString('utf8')] over the chunks of a stream. *)
Definition buffer_of (chunks : list string) : string :=
  foldl String.append "" chunks.

(** Lines 214-226: the header branch. *)
Definition set_header (h : ParsedHeader) (now : Date) (e : Email.t) : Email.t :=
  {| Email.id := Email.id e;
     Email.accountId := Email.accountId e;
     Email.folder := Email.folder e;
     Email.subject := Some (or_str (first_of (h !! "subject")) "(No Subject)");
     Email.body := Email.body e;
     Email.bodyHtml := Email.bodyHtml e;
     Email.from := Some (or_str (first_of (h !! "from")) "");
     Email.to := Some (or_nil (h !! "to"));
     Email.cc := Some (or_nil (h !! "cc"));
     Email.bcc := Some (or_nil (h !! "bcc"));
     Email.date :=
       Some (if truthy (first_of (h !! "date"))
             then parseDate (default "" (first_of (h !! "date")))
             else now);
     Email.attachments := Email.attachments e;
     Email.read := Email.read e;
     Email.aiCategory := Email.aiCategory e;
     Email.indexedAt := Email.indexedAt e |}.

Definition to_attachment (a : MailAttachment) : Attachment :=
  {| filename := or_str (att_filename a) "unnamed";
     contentType := att_contentType a;
     size := att_size a |}.

(** Lines 231-241: the body was parsed. *)
Definition set_body (p : ParsedMail) (e : Email.t) : Email.t :=
  {| Email.id := Email.id e;
     Email.accountId := Email.accountId e;
     Email.folder := Email.folder e;
     Email.subject := Email.subject e;
     Email.body := Some (or_str (mail_text p) "");
     Email.bodyHtml := or_undefined (mail_html p);
     Email.from := Email.from e;
     Email.to := Email.to e;
     Email.cc := Email.cc e;
     Email.bcc := Email.bcc e;
     Email.date := Email.date e;
     Email.attachments :=
       (if bool_decide (0 < length (mail_attachments p))
        then Some (to_attachment <$> mail_attachments p)
        else Email.attachments e);
     Email.read := Email.read e;
     Email.aiCategory := Email.aiCategory e;
     Email.indexedAt := Email.indexedAt e |}.

(** Line 244: [email.body = buffer], the fallback of the [catch] arm. *)
Definition set_raw_body (buffer : string) (e : Email.t) : Email.t :=
  {| Email.id := Email.id e;
     Email.accountId := Email.accountId e;
     Email.folder := Email.folder e;
     Email.subject := Email.subject e;
     Email.body := Some buffer;
     Email.bodyHtml := Email.bodyHtml e;
     Email.from := Email.from e;
     Email.to := Email.to e;
     Email.cc := Email.cc e;
     Email.bcc := Email.bcc e;
     Email.date := Email.date e;
     Email.attachments := Email.attachments e;
     Email.read := Email.read e;
     Email.aiCategory := Email.aiCategory e;
     Email.indexedAt := Email.indexedAt e |}.

(** Line 252: the template literal [`${accountId}-${attrs.uid}`]. *)
Definition make_id (accountId : string) (u : N) : string :=
  accountId +:+ "-" +:+ pretty u.

(** Lines 252-253: the identifier and the read flag. *)
Definition set_attributes (a : Attrs) (e : Email.t) : Email.t :=
  {| Email.id := make_id (Email.accountId e) (uid a);
     Email.accountId := Email.accountId e;
     Email.folder := Email.folder e;
     Email.subject := Email.subject e;
     Email.body := Email.body e;
     Email.bodyHtml := Email.bodyHtml e;
     Email.from := Email.from e;
     Email.to := Email.to e;
     Email.cc := Email.cc e;
     Email.bcc := Email.bcc e;
     Email.date := Email.date e;
     Email.attachments := Email.attachments e;
     Email.read := includes "\Seen" (or_nil (flags a));
     Email.aiCategory := Email.aiCategory e;
     Email.indexedAt := Email.indexedAt e |}.

Definition with_email (e : Email.t) (m : Msg) : Msg :=
  {| email := e; seqno := seqno m; awaiting := awaiting m;
     attributesOnce := attributesOnce m; endOnce := endOnce m |}.

Definition with_awaiting (a : list string) (m : Msg) : Msg :=
  {| email := email m; seqno := seqno m; awaiting := a;
     attributesOnce := attributesOnce m; endOnce := endOnce m |}.

(** Lines 211-230, up to the [await]: the handler of the stream's ['end'].
    The header branch runs to completion; the body branch hands the buffer
    to [simpleParser] and suspends. *)
Definition onBodyEnd (which : string) (chunks : list string) (now : Date) (m : Msg) : Msg :=
  let buffer := buffer_of chunks in
  if String.prefix "HEADER" which
  then with_email (set_header (parseHeader buffer) now (email m)) m
  else with_awaiting (awaiting m ++ [buffer]) m.

(** Lines 230-245, after the [await]: the promise for [buffer] settled. *)
Definition onParsed (buffer : string) (e : Email.t) : Email.t * list Effect :=
  match simpleParser buffer with
  | inr parsed => (set_body parsed e, [])
  | inl parseError =>
      (set_raw_body buffer e,
       [Log (log_error ("Error parsing email body: " +:+ parseError))])
  end.

Definition onParseSettled (i : nat) (m : Msg) : Msg * list Effect :=
  match awaiting m !! i with
  | Some buffer =>
      let '(e, fx) := onParsed buffer (email m) in
      (with_email e (with_awaiting (delete i (awaiting m)) m), fx)
  | None => (m, [])
  end.

(** Lines 250-254, registered with [once]. *)
Definition onAttributes (a : Attrs) (m : Msg) : Msg :=
  if attributesOnce m
  then {| email := set_attributes a (email m); seqno := seqno m; awaiting := awaiting m;
          attributesOnce := false; endOnce := endOnce m |}
  else m.

(** Line 258: [email.subject && email.body]. *)
Definition complete (e : Email.t) : bool :=
  truthy (Email.subject e) && truthy (Email.body e).

(** Lines 256-260, registered with [once]: the emission.  The boolean tells
    whether the handler ran. *)
Definition onMessageEnd (m : Msg) : Msg * list Effect * bool :=
  if endOnce m
  then ({| email := email m; seqno := seqno m; awaiting := awaiting m;
           attributesOnce := attributesOnce m; endOnce := false |},
        if complete (email m) then [Emit (email m)] else [],
        true)
  else (m, [], false).

Definition msg_step (m : Msg) (ev : MsgEvent) : Msg * list Effect * bool :=
  match ev with
  | BodyEnd which chunks now => (onBodyEnd which chunks now m, [], false)
  | ParseSettled i => let '(m', fx) := onParseSettled i m in (m', fx, false)
  | Attributes a => (onAttributes a m, [], false)
  | End => onMessageEnd m
  end.

(** A message object driven by a list of events; the effects in order. *)
Fixpoint msg_run (m : Msg) (evs : list MsgEvent) : Msg * list Effect :=
  match evs with
  | [] => (m, [])
  | ev :: evs =>
      let '(m1, fx1, _) := msg_step m ev in
      let '(m2, fx2) := msg_run m1 evs in
      (m2, fx1 ++ fx2)
  end.

(** The attributes the ['end'] handler of a message has seen when it runs:
    those of the first ['attributes'] event, if it precedes the first
    ['end']. *)
Fixpoint attrs_before_end (evs : list MsgEvent) : option Attrs :=
  match evs with
  | [] => None
  | Attributes a :: _ => Some a
  | End :: _ => None
  | _ :: evs => attrs_before_end evs
  end.

Definition is_end (ev : MsgEvent) : bool :=
  match ev with End => true | _ => false end.

Definition is_header_end (ev : MsgEvent) : bool :=
  match ev with BodyEnd which _ _ => String.prefix "HEADER" which | _ => false end.

Definition emitted (fx : list Effect) : list Email.t :=
  omap (λ e, match e with Emit d => Some d | Log _ => None end) fx.


End Normalizer.
End Normalizer.

(** ** Fetch Batcher: one fetch object, and the batches of the initial sync *)
Module Batcher.
Import Normalizer.
Section Batcher.
Context `{!Libraries}.

(** Line 173. *)
Definition batchSize : nat := 10.

(** [arr.slice(a, b)] for [0 <= a <= b]. *)
Definition slice {A} (arr : list A) (a b : nat) : list A :=
  take (b - a) (drop a arr).

(** Lines 174-178: the loop that fills [batches]. *)
Equations? batches_loop (results : list Z) (i : nat) (batches : list (list Z)) :
  list (list Z) by wf (length results - i) lt :=
batches_loop results i batches with decide (i < length results) := {
  | left _ => batches_loop results (i + batchSize)
                (batches ++ [slice results i (i + batchSize)]);
  | right _ => batches }.
Proof. unfold batchSize. lia. Qed.

Definition make_batches (results : list Z) : list (list Z) :=
  batches_loop results 0 [].

(** The closure a fetch object belongs to: [processBatch(batchIndex)] with
    its [batch] and [processedCount] (lines 181-192), or [fetchNewEmails]. *)
Inductive Owner :=
| OfBatch (batchIndex : nat) (batch : list Z) (processedCount : nat)
| OfNewMail.

(** A fetch object: its closure, the message objects it has announced, and
    whether its two [once] handlers are still registered. *)
Record Fetch := {
  owner : Owner;
  msgs : list Msg;
  fetchErrorOnce : bool;
  fetchEndOnce : bool
}.

Definition new_fetch (o : Owner) : Fetch :=
  {| owner := o; msgs := []; fetchErrorOnce := true; fetchEndOnce := true |}.

(** Events the library delivers on a fetch object: a new message with its
    sequence number (with the values [uuidv4()] and [new Date()] return
    in the handler), an event on the [i]-th message announced, an error,
    the end of the fetch. *)
Inductive FetchEvent :=
| Message (seq : Z) (uuid : string) (now : Date)
| OnMessage (i : nat) (ev : MsgEvent)
| FetchError (err : string)
| FetchEnd.

(** What a fetch handler asks of the enclosing code: [processBatch(k)],
    [reject(err)], or [startIdleMode]. *)
Inductive Signal :=
| NextBatch (k : nat)
| Reject (err : string)
| RestartIdle.

(** The outcome of one event: the effects in order, the sequence number of
    the message whose ['end'] handler ran, and the request made. *)
Record Out := {
  effects : list Effect;
  ended : option Z;
  signal : option Signal
}.

Definition quiet : Out := {| effects := []; ended := None; signal := None |}.

Definition with_msgs (ms : list Msg) (f : Fetch) : Fetch :=
  {| owner := owner f; msgs := ms;
     fetchErrorOnce := fetchErrorOnce f; fetchEndOnce := fetchEndOnce f |}.

Definition with_owner (o : Owner) (f : Fetch) : Fetch :=
  {| owner := o; msgs := msgs f;
     fetchErrorOnce := fetchErrorOnce f; fetchEndOnce := fetchEndOnce f |}.

(** Lines 194-202 and 359-367. *)
Definition onMessage (accountId : string) (seq : Z) (uuid : string) (now : Date)
    (f : Fetch) : Fetch :=
  with_msgs (msgs f ++ [new_msg accountId seq uuid now]) f.

(** Lines 262-268: what the initial sync does after the emission;
    [total] is [batches.length]. *)
Definition afterEnd (accountId : string) (total : nat) (f : Fetch) :
    Fetch * list Effect * option Signal :=
  match owner f with
  | OfBatch batchIndex batch processedCount =>
      let processedCount := S processedCount in
      let f := with_owner (OfBatch batchIndex batch processedCount) f in
      if bool_decide (processedCount = length batch)
      then (f,
            [Log (log_info ("Processed batch " +:+ pretty (batchIndex + 1) +:+ "/"
                            +:+ pretty total +:+ " for " +:+ accountId))],
            Some (NextBatch (batchIndex + 1)))
      else (f, [], None)
  | OfNewMail => (f, [], None)
  end.

(** An event on the [i]-th message of the fetch. *)
Definition onMessageEvent (accountId : string) (total : nat) (i : nat) (ev : MsgEvent)
    (f : Fetch) : Fetch * Out :=
  match msgs f !! i with
  | Some m =>
      let '(m', fx, ran) := msg_step m ev in
      let f := with_msgs (<[i := m']> (msgs f)) f in
      if ran
      then let '(f, fx', sig) := afterEnd accountId total f in
           (f, {| effects := fx ++ fx'; ended := Some (seqno m); signal := sig |})
      else (f, {| effects := fx; ended := None; signal := None |})
  | None => (f, quiet)
  end.

(** Lines 272-275 and 429-431, registered with [once]. *)
Definition onFetchError (accountId err : string) (f : Fetch) : Fetch * Out :=
  if fetchErrorOnce f
  then let f' := {| owner := owner f; msgs := msgs f;
                    fetchErrorOnce := false; fetchEndOnce := fetchEndOnce f |} in
       match owner f with
       | OfBatch _ _ _ =>
           (f', {| effects := [Log (log_error_with ("Fetch error for " +:+ accountId +:+ ":") err)];
                   ended := None; signal := Some (Reject err) |})
       | OfNewMail =>
           (f', {| effects := [Log (log_error_with
                                 ("Error fetching new messages for " +:+ accountId +:+ ":") err)];
                   ended := None; signal := None |})
       end
  else (f, quiet).

(** Lines 277-279 and 433-436, registered with [once]. *)
Definition onFetchEnd (accountId : string) (f : Fetch) : Fetch * Out :=
  if fetchEndOnce f
  then let f' := {| owner := owner f; msgs := msgs f;
                    fetchErrorOnce := fetchErrorOnce f; fetchEndOnce := false |} in
       match owner f with
       | OfBatch batchIndex _ _ =>
           (f', {| effects := [Log (log_debug ("Batch " +:+ pretty (batchIndex + 1)
                                     +:+ " fetch completed for " +:+ accountId))];
                   ended := None; signal := None |})
       | OfNewMail =>
           (f', {| effects := [Log (log_debug ("Finished fetching new messages for "
                                     +:+ accountId))];
                   ended := None; signal := Some RestartIdle |})
       end
  else (f, quiet).

Definition fetch_step (accountId : string) (total : nat) (f : Fetch) (ev : FetchEvent) :
    Fetch * Out :=
  match ev with
  | Message seq uuid now => (onMessage accountId seq uuid now f, quiet)
  | OnMessage i ev => onMessageEvent accountId total i ev f
  | FetchError err => onFetchError accountId err f
  | FetchEnd => onFetchEnd accountId f
  end.

(** A fetch object driven by a list of events; the outcomes in order. *)
Fixpoint fetch_run (accountId : string) (total : nat) (f : Fetch) (evs : list FetchEvent) :
    Fetch * list Out :=
  match evs with
  | [] => (f, [])
  | ev :: evs =>
      let '(f1, o) := fetch_step accountId total f ev in
      let '(f2, os) := fetch_run accountId total f1 evs in
      (f2, o :: os)
  end.




(** Line 354: the template literal [`${lastMessages}:${total}`]. *)
Definition range_text (first last : Z) : string :=
  pretty first +:+ ":" +:+ pretty last.

End Batcher.
End Batcher.

(** ** ImapSyncService: connections, maps, timers and the public methods *)
Module Service.
Import Normalizer Batcher.
Section Service.
Context `{!Libraries}.

(** Lines 8-14. *)
Record ImapAccountConfig := {
  user : string;
  password : string;
  host : string;
  port : Z;
  tls : bool
}.

(** The library calls made on a connection object. *)
Inductive Cmd :=
| CmdConnect
| CmdOpenBox
| CmdSearch
| CmdFetch (ids : list Z)
| CmdSeqFetch (range : string)
| CmdIdle
| CmdIdleStop
| CmdEnd.

(** How far [initialSync] has got on a connection: which library callback
    is outstanding. *)
Inductive Phase := PNone | POpenBox | PSearch | PBatches.

(** The promise [initialSync] returns. *)
Inductive Promise := Pending | Resolved | Rejected (err : string).

(** An [Imap] object as the service sees it: the configuration it was
    created from, whether the three [once] listeners of [connectAccount] are
    still registered, the number of ['mail'] listeners, the error that calls
    into the library currently throw (if they do), [imap._box] (its [messages.total]), the
    calls made so far, and the state of the initial sync running on it with
    every fetch object it has created. *)
Record Imap := mkImap {
  config : ImapAccountConfig;
  onReady : bool;
  onError : bool;
  onEnd : bool;
  mailListeners : nat;
  throwing : option string;
  box : option Z;
  commands : list Cmd;
  phase : Phase;
  promise : Promise;
  batches : list (list Z);
  fetches : list Fetch
}.

(** The callbacks handed to [setTimeout]: lines 97-102, 117 and 307-315. *)
Inductive TimerAction :=
| ReconnectAfterError (accountId : string)
| ReconnectAfterEnd (cfg : ImapAccountConfig)
| Watchdog (accountId : string) (imap : nat).

Record Timer := { delay : Z; action : TimerAction }.

(** The service: its configuration and three maps (lines 17-21), the [Imap]
    objects created so far (an object is named by its index), the pending
    timeouts with the next handle [setTimeout] returns, the records passed
    to [emit('emailReceived', _)] and the logger's output.  [accounts] is a
    [Map] that is iterated, so it keeps insertion order. *)
Record State := mkState {
  accountConfigs : list ImapAccountConfig;
  accounts : list (string * nat);
  connectionsActive : gmap string bool;
  watchdogTimers : gmap string nat;
  heap : list Imap;
  timers : gmap nat Timer;
  nextTimer : nat;
  emails : list Email.t;
  logs : list LogEntry
}.

(** *** Updates of an [Imap] object *)

Definition clear_onReady (i : Imap) : Imap :=
  mkImap (config i) false (onError i) (onEnd i) (mailListeners i) (throwing i) (box i)
    (commands i) (phase i) (promise i) (batches i) (fetches i).
Definition clear_onError (i : Imap) : Imap :=
  mkImap (config i) (onReady i) false (onEnd i) (mailListeners i) (throwing i) (box i)
    (commands i) (phase i) (promise i) (batches i) (fetches i).
Definition clear_onEnd (i : Imap) : Imap :=
  mkImap (config i) (onReady i) (onError i) false (mailListeners i) (throwing i) (box i)
    (commands i) (phase i) (promise i) (batches i) (fetches i).
Definition add_mail_listener (i : Imap) : Imap :=
  mkImap (config i) (onReady i) (onError i) (onEnd i) (S (mailListeners i)) (throwing i) (box i)
    (commands i) (phase i) (promise i) (batches i) (fetches i).
Definition set_throwing (b : option string) (i : Imap) : Imap :=
  mkImap (config i) (onReady i) (onError i) (onEnd i) (mailListeners i) b (box i)
    (commands i) (phase i) (promise i) (batches i) (fetches i).
Definition set_box (b : option Z) (i : Imap) : Imap :=
  mkImap (config i) (onReady i) (onError i) (onEnd i) (mailListeners i) (throwing i) b
    (commands i) (phase i) (promise i) (batches i) (fetches i).
Definition call (c : Cmd) (i : Imap) : Imap :=
  mkImap (config i) (onReady i) (onError i) (onEnd i) (mailListeners i) (throwing i) (box i)
    (commands i ++ [c]) (phase i) (promise i) (batches i) (fetches i).
Definition set_phase (p : Phase) (i : Imap) : Imap :=
  mkImap (config i) (onReady i) (onError i) (onEnd i) (mailListeners i) (throwing i) (box i)
    (commands i) p (promise i) (batches i) (fetches i).
Definition set_promise (p : Promise) (i : Imap) : Imap :=
  mkImap (config i) (onReady i) (onError i) (onEnd i) (mailListeners i) (throwing i) (box i)
    (commands i) (phase i) p (batches i) (fetches i).
Definition set_batches (b : list (list Z)) (i : Imap) : Imap :=
  mkImap (config i) (onReady i) (onError i) (onEnd i) (mailListeners i) (throwing i) (box i)
    (commands i) (phase i) (promise i) b (fetches i).
Definition set_fetches (fs : list Fetch) (i : Imap) : Imap :=
  mkImap (config i) (onReady i) (onError i) (onEnd i) (mailListeners i) (throwing i) (box i)
    (commands i) (phase i) (promise i) (batches i) fs.

(** Lines 50-62: [new Imap(...)] with the three [once] listeners. *)
Definition new_imap (cfg : ImapAccountConfig) : Imap :=
  mkImap cfg true true true 0 None None [] PNone Pending [] [].

(** *** Updates of the service state *)

Definition set_accounts (a : list (string * nat)) (st : State) : State :=
  mkState (accountConfigs st) a (connectionsActive st) (watchdogTimers st) (heap st)
    (timers st) (nextTimer st) (emails st) (logs st).
Definition set_connectionsActive (a : gmap string bool) (st : State) : State :=
  mkState (accountConfigs st) (accounts st) a (watchdogTimers st) (heap st)
    (timers st) (nextTimer st) (emails st) (logs st).
Definition set_watchdogTimers (w : gmap string nat) (st : State) : State :=
  mkState (accountConfigs st) (accounts st) (connectionsActive st) w (heap st)
    (timers st) (nextTimer st) (emails st) (logs st).
Definition set_heap (h : list Imap) (st : State) : State :=
  mkState (accountConfigs st) (accounts st) (connectionsActive st) (watchdogTimers st) h
    (timers st) (nextTimer st) (emails st) (logs st).
Definition set_timers (t : gmap nat Timer) (n : nat) (st : State) : State :=
  mkState (accountConfigs st) (accounts st) (connectionsActive st) (watchdogTimers st) (heap st)
    t n (emails st) (logs st).
Definition emit (e : Email.t) (st : State) : State :=
  mkState (accountConfigs st) (accounts st) (connectionsActive st) (watchdogTimers st) (heap st)
    (timers st) (nextTimer st) (emails st ++ [e]) (logs st).
Definition logger (l : LogEntry) (st : State) : State :=
  mkState (accountConfigs st) (accounts st) (connectionsActive st) (watchdogTimers st) (heap st)
    (timers st) (nextTimer st) (emails st) (logs st ++ [l]).

(** Apply [f] to the [Imap] object [c]. *)
Definition modify (c : nat) (f : Imap → Imap) (st : State) : State :=
  set_heap (alter f c (heap st)) st.

(** [setTimeout(action, delay)]: the new state and the handle. *)
Definition setTimeout (a : TimerAction) (d : Z) (st : State) : State * nat :=
  let t := nextTimer st in
  (set_timers (<[t := {| delay := d; action := a |}]> (timers st)) (S t) st, t).

Definition clearTimeout (t : nat) (st : State) : State :=
  set_timers (delete t (timers st)) (nextTimer st) st.

(** [Map.set] on a map that keeps insertion order. *)
Fixpoint map_set {V} (k : string) (v : V) (m : list (string * V)) : list (string * V) :=
  match m with
  | [] => [(k, v)]
  | (k', v') :: m =>
      if decide (k = k') then (k, v) :: m else (k', v') :: map_set k v m
  end.

(** [this.accountConfigs.find(cfg => cfg.user === accountId)]. *)
Definition find_config (accountId : string) (st : State) : option ImapAccountConfig :=
  List.find (λ cfg, bool_decide (user cfg = accountId)) (accountConfigs st).

(** [this.connectionsActive.get(accountId)] in a condition. *)
Definition active (accountId : string) (st : State) : bool :=
  match connectionsActive st !! accountId with
  | Some b => b
  | None => false
  end.

(** The error a call on the object [c] throws, if it does. *)
Definition thrown (c : nat) (st : State) : option string :=
  heap st !! c ≫= throwing.

(** Applying the effects of the message handlers to the service. *)
Definition apply_effect (st : State) (e : Effect) : State :=
  match e with
  | Log l => logger l st
  | Emit d => emit d st
  end.

(** *** The methods of the class *)

(** Lines 21-28. *)
Definition new_service (configs : list ImapAccountConfig) : State :=
  let st := mkState configs [] ∅ ∅ [] ∅ 0 [] [] in
  if bool_decide (length configs = 0)
  then logger (log_error "No IMAP account configurations provided") st
  else st.

(** Lines 46-69. *)
Definition connectAccount (cfg : ImapAccountConfig) (st : State) : State :=
  let accountId := user cfg in
  let st := logger (log_info ("Connecting to IMAP account: " +:+ accountId)) st in
  let imap := length (heap st) in
  let st := set_heap (heap st ++ [new_imap cfg]) st in
  let st := set_accounts (map_set accountId imap (accounts st)) st in
  modify imap (call CmdConnect) st.

(** Lines 33-41; a fresh [Imap] object does not throw on [connect]. *)
Definition startSync (st : State) : State :=
  foldl (λ st cfg, connectAccount cfg st) st (accountConfigs st).

(** Lines 125-134. *)
Definition cleanupConnection (accountId : string) (st : State) : State :=
  let st := set_connectionsActive (<[accountId := false]> (connectionsActive st)) st in
  match watchdogTimers st !! accountId with
  | Some timer =>
      let st := clearTimeout timer st in
      set_watchdogTimers (delete accountId (watchdogTimers st)) st
  | None => st
  end.

(** Lines 92-103. *)
Definition onImapError (accountId err : string) (st : State) : State :=
  let st := logger (log_error_with ("IMAP error for account " +:+ accountId +:+ ":") err) st in
  let st := cleanupConnection accountId st in
  fst (setTimeout (ReconnectAfterError accountId) 30000 st).

(** Lines 108-120. *)
Definition onImapEnd (accountId : string) (st : State) : State :=
  let st := logger (log_info ("IMAP connection ended for account: " +:+ accountId)) st in
  let st := cleanupConnection accountId st in
  if active accountId st
  then match find_config accountId st with
       | Some cfg =>
           let st := logger (log_info ("Attempting to reconnect to account: " +:+ accountId)) st in
           fst (setTimeout (ReconnectAfterEnd cfg) 5000 st)
       | None => st
       end
  else st.

(** Lines 301-322: the closure [restartIdle] of [startIdleMode]. *)
Definition restartIdle (accountId : string) (imap : nat) (st : State) : State :=
  if active accountId st
  then match thrown imap st with
       | Some error =>
           logger (log_error_with ("Error starting IDLE mode for " +:+ accountId +:+ ":") error) st
       | None =>
         let st := modify imap (call CmdIdle) st in
         let '(st, watchdogTimer) := setTimeout (Watchdog accountId imap) (29 * 60 * 1000) st in
         set_watchdogTimers (<[accountId := watchdogTimer]> (watchdogTimers st)) st
       end
  else st.

(** Lines 307-315: the watchdog callback. *)
Definition onWatchdog (accountId : string) (imap : nat) (st : State) : State :=
  let st := logger (log_debug ("Restarting IDLE for " +:+ accountId +:+ " (watchdog)")) st in
  match thrown imap st with
  | Some error =>
      logger (log_error_with ("Error in IDLE watchdog for " +:+ accountId +:+ ":") error) st
  | None => restartIdle accountId imap (modify imap (call CmdIdleStop) st)
  end.

(** Lines 296-332. *)
Definition startIdleMode (accountId : string) (imap : nat) (st : State) : State :=
  let st := logger (log_info ("Starting IDLE mode for account: " +:+ accountId)) st in
  let st := modify imap add_mail_listener st in
  restartIdle accountId imap st.

(** Lines 337-357 and 437-440; the handlers of the fetch object it creates
    are [Batcher]'s for [OfNewMail]. *)
Definition fetchNewEmails (accountId : string) (imap : nat) (numNewMsgs : Z) (st : State) : State :=
  match thrown imap st with
  | Some error =>
      let st := logger (log_error_with ("Error handling new messages for " +:+ accountId +:+ ":")
                          error) st in
      startIdleMode accountId imap st
  | None =>
      let st := modify imap (call CmdIdleStop) st in
      match heap st !! imap ≫= box with
      | None =>
          let st := logger (log_error ("Mailbox not open for " +:+ accountId)) st in
          startIdleMode accountId imap st
      | Some total =>
          let lastMessages := (total - numNewMsgs + 1)%Z in
          let st := modify imap (call (CmdSeqFetch (range_text lastMessages total))) st in
          modify imap (λ i, set_fetches (fetches i ++ [new_fetch OfNewMail]) i) st
      end
  end.

(** Lines 325-328: the ['mail'] event reaches every listener registered
    when it is emitted. *)
Definition onMail (imap : nat) (numNewMsgs : Z) (st : State) : State :=
  match heap st !! imap with
  | Some i =>
      let accountId := user (config i) in
      Nat.iter (mailListeners i)
        (λ st,
           let st := logger (log_info (pretty numNewMsgs +:+ " new message(s) arrived for "
                                       +:+ accountId)) st in
           fetchNewEmails accountId imap numNewMsgs st)
        st
  | None => st
  end.

(** The continuation of [onImapReady] once the promise of [initialSync]
    settles: lines 83-86. *)
Definition resolve (accountId : string) (imap : nat) (st : State) : State :=
  match heap st !! imap with
  | Some i =>
      match promise i with
      | Pending => startIdleMode accountId imap (modify imap (set_promise Resolved) st)
      | _ => st
      end
  | None => st
  end.

Definition reject (accountId : string) (imap : nat) (err : string) (st : State) : State :=
  match heap st !! imap with
  | Some i =>
      match promise i with
      | Pending =>
          logger (log_error_with ("Error during initial sync for " +:+ accountId +:+ ":") err)
            (modify imap (set_promise (Rejected err)) st)
      | _ => st
      end
  | None => st
  end.

(** Lines 181-190: [processBatch]; the handlers of the fetch object it
    creates are [Batcher]'s for [OfBatch]. *)
Definition processBatch (accountId : string) (imap : nat) (batchIndex : nat) (st : State) : State :=
  match heap st !! imap with
  | Some i =>
      match batches i !! batchIndex with
      | None => resolve accountId imap st
      | Some batch =>
          match throwing i with
          | Some _ => st
          | None =>
              let st := modify imap (call (CmdFetch batch)) st in
              modify imap
                (λ i, set_fetches (fetches i ++ [new_fetch (OfBatch batchIndex batch 0)]) i) st
          end
      end
  | None => st
  end.

(** Lines 139-143 and 286-289: [initialSync] up to the call of [openBox]. *)
Definition initialSync (accountId : string) (imap : nat) (st : State) : State :=
  match thrown imap st with
  | Some error =>
      let st := logger (log_error_with ("Error during initial sync for " +:+ accountId +:+ ":")
                          error) st in
      reject accountId imap error st
  | None => modify imap (set_phase POpenBox) (modify imap (call CmdOpenBox) st)
  end.

(** Lines 74-81. *)
Definition onImapReady (accountId : string) (imap : nat) (st : State) : State :=
  let st := logger (log_info ("IMAP connection ready for account: " +:+ accountId)) st in
  let st := set_connectionsActive (<[accountId := true]> (connectionsActive st)) st in
  initialSync accountId imap st.

(** Lines 143-160: the callback of [openBox]; on success the library has
    stored the mailbox in [imap._box]. *)
Definition onOpenBox (accountId : string) (imap : nat) (res : string + Z) (st : State) : State :=
  match res with
  | inl err =>
      let st := modify imap (set_phase PNone) st in
      let st := logger (log_error_with ("Error opening INBOX for " +:+ accountId +:+ ":") err) st in
      reject accountId imap err st
  | inr total =>
      let st := modify imap (set_box (Some total)) st in
      let st := logger (log_info ("Opened INBOX for " +:+ accountId +:+ ", message count: "
                                  +:+ pretty total)) st in
      match thrown imap st with
      | Some _ => modify imap (set_phase PNone) st
      | None => modify imap (set_phase PSearch) (modify imap (call CmdSearch) st)
      end
  end.

(** Lines 160-178 and 283: the callback of [search]. *)
Definition onSearch (accountId : string) (imap : nat) (res : string + list Z) (st : State) : State :=
  match res with
  | inl searchErr =>
      let st := modify imap (set_phase PNone) st in
      let st := logger (log_error_with ("Error searching emails for " +:+ accountId +:+ ":")
                          searchErr) st in
      reject accountId imap searchErr st
  | inr results =>
      let st := logger (log_info ("Found " +:+ pretty (length results)
                                  +:+ " emails in the last 30 days for " +:+ accountId)) st in
      if bool_decide (length results = 0)
      then resolve accountId imap (modify imap (set_phase PNone) st)
      else
        let st := modify imap (set_batches (make_batches results)) st in
        let st := modify imap (set_phase PBatches) st in
        processBatch accountId imap 0 st
  end.

(** An event on the [f]-th fetch object of a connection. *)
Definition onFetchEvent (imap f : nat) (ev : FetchEvent) (st : State) : State :=
  match heap st !! imap with
  | Some i =>
      let accountId := user (config i) in
      match fetches i !! f with
      | Some fetch =>
          let '(fetch', out) := fetch_step accountId (length (batches i)) fetch ev in
          let st := modify imap (λ i, set_fetches (<[f := fetch']> (fetches i)) i) st in
          let st := foldl apply_effect st (effects out) in
          match signal out with
          | Some (NextBatch k) => processBatch accountId imap k st
          | Some (Reject err) => reject accountId imap err st
          | Some RestartIdle => startIdleMode accountId imap st
          | None => st
          end
      | None => st
      end
  | None => st
  end.

(** Lines 447-464: the body of the loop of [stopSync]. *)
Definition stopAccount (st : State) (entry : string * nat) : State :=
  let '(accountId, imap) := entry in
  let st := set_connectionsActive (<[accountId := false]> (connectionsActive st)) st in
  let st :=
    match watchdogTimers st !! accountId with
    | Some timer =>
        let st := clearTimeout timer st in
        set_watchdogTimers (delete accountId (watchdogTimers st)) st
    | None => st
    end in
  match thrown imap st with
  | Some error =>
      logger (log_error_with ("Error closing IMAP connection for " +:+ accountId +:+ ":") error) st
  | None =>
      let st := modify imap (call CmdEnd) st in
      logger (log_info ("Closed IMAP connection for " +:+ accountId)) st
  end.

(** Lines 446-470. *)
Definition stopSync (st : State) : State :=
  let st := foldl stopAccount st (accounts st) in
  let st := set_accounts [] st in
  let st := set_connectionsActive ∅ st in
  set_watchdogTimers ∅ st.

(** A timeout fires: it leaves the queue and its callback runs. *)
Definition onTimer (t : nat) (st : State) : State :=
  match timers st !! t with
  | Some tm =>
      let st := clearTimeout t st in
      match action tm with
      | ReconnectAfterError accountId =>
          match find_config accountId st with
          | Some cfg => connectAccount cfg st
          | None => st
          end
      | ReconnectAfterEnd cfg => connectAccount cfg st
      | Watchdog accountId imap => onWatchdog accountId imap st
      end
  | None => st
  end.

(** *** The event loop *)

(** What can happen to the service: calls of its two public methods,
    events of a connection object (lines 60-62 and 325), callbacks of the
    library calls of [initialSync], events of a fetch object, a timeout, and
    changes the library makes on its own ([imap._box] on a mailbox update,
    calls on the object starting or ceasing to throw). *)
Inductive Event :=
| CallStartSync
| CallStopSync
| EvReady (imap : nat)
| EvError (imap : nat) (err : string)
| EvEnd (imap : nat)
| EvMail (imap : nat) (numNewMsgs : Z)
| EvOpenBox (imap : nat) (res : string + Z)
| EvSearch (imap : nat) (res : string + list Z)
| EvFetch (imap f : nat) (ev : FetchEvent)
| EvTimer (t : nat)
| EvBox (imap : nat) (b : option Z)
| EvThrowing (imap : nat) (error : option string).

Definition step (st : State) (ev : Event) : State :=
  match ev with
  | CallStartSync => startSync st
  | CallStopSync => stopSync st
  | EvReady imap =>
      match heap st !! imap with
      | Some i =>
          if onReady i
          then onImapReady (user (config i)) imap (modify imap clear_onReady st)
          else st
      | None => st
      end
  | EvError imap err =>
      match heap st !! imap with
      | Some i =>
          if onError i
          then onImapError (user (config i)) err (modify imap clear_onError st)
          else st
      | None => st
      end
  | EvEnd imap =>
      match heap st !! imap with
      | Some i =>
          if onEnd i
          then onImapEnd (user (config i)) (modify imap clear_onEnd st)
          else st
      | None => st
      end
  | EvMail imap numNewMsgs => onMail imap numNewMsgs st
  | EvOpenBox imap res =>
      match heap st !! imap with
      | Some i =>
          match phase i with
          | POpenBox => onOpenBox (user (config i)) imap res st
          | _ => st
          end
      | None => st
      end
  | EvSearch imap res =>
      match heap st !! imap with
      | Some i =>
          match phase i with
          | PSearch => onSearch (user (config i)) imap res st
          | _ => st
          end
      | None => st
      end
  | EvFetch imap f ev => onFetchEvent imap f ev st
  | EvTimer t => onTimer t st
  | EvBox imap b => modify imap (set_box b) st
  | EvThrowing imap error => modify imap (set_throwing error) st
  end.

Definition run (st : State) (evs : list Event) : State := foldl step st evs.

End Service.
End Service.

(** ** Predicates on the state of the service *)
Module Invariants.
Import Normalizer Batcher Service.
Section Invariants.
Context `{!Libraries}.

(** The number of messages of a fetch whose ['end'] handler has run: the
    messages that have been processed. *)
Definition processed (f : Fetch) : nat :=
  length (filter (λ m, endOnce m = false) (msgs f)).

(** What holds of every connection object at every moment:
    - before ['ready'] the initial sync has not started;
    - fetch objects of [processBatch] exist only once the batches are made;
    - the batches are those cut from a non-empty search result;
    - the closure of a batch fetch holds the batch of its index, and its
      [processedCount] is the number of its messages processed;
    - a fetch for batch [k + 1] is preceded by a fetch for batch [k] all of
      whose messages have been processed. *)
Record imap_inv (i : Imap) : Prop := {
  inv_fresh : onReady i = true → phase i = PNone;
  inv_no_batch : phase i ≠ PBatches → ∀ f, f ∈ fetches i → owner f = OfNewMail;
  inv_batches : phase i = PBatches →
    ∃ results, results ≠ [] ∧ batches i = make_batches results;
  inv_batch : ∀ n f k b pc,
    fetches i !! n = Some f → owner f = OfBatch k b pc →
    batches i !! k = Some b ∧ pc = processed f;
  inv_order : ∀ n f k b pc,
    fetches i !! n = Some f → owner f = OfBatch (S k) b pc →
    ∃ n' f' b' pc',
      n' < n ∧ fetches i !! n' = Some f' ∧ owner f' = OfBatch k b' pc'
      ∧ batches i !! k = Some b' ∧ length b' ≤ pc' ∧ pc' = processed f'
}.

Definition Inv (st : State) : Prop :=
  ∀ c i, heap st !! c = Some i → imap_inv i.

(** A connection object changes without touching its initial sync: the
    batches, the phase and the existing fetch objects stay, new fetch
    objects are those of [fetchNewEmails]. *)
Definition evolves (i i' : Imap) : Prop :=
  config i' = config i ∧ batches i' = batches i ∧ phase i' = phase i
  ∧ (onReady i' = true → onReady i = true)
  ∧ ∃ extra, fetches i' = fetches i ++ extra
             ∧ Forall (λ f, owner f = OfNewMail) extra.

(** A state changes without emitting and without touching any initial
    sync; connection objects may be created. *)
Definition state_evolves (st st' : State) : Prop :=
  emails st' = emails st
  ∧ ∀ c, match heap st !! c with
         | Some i => ∃ i', heap st' !! c = Some i' ∧ evolves i i'
         | None => ∀ i', heap st' !! c = Some i' → imap_inv i'
         end.

(** The states the service can be in: those the event loop reaches from a
    newly constructed service. *)
Definition reachable (st : State) : Prop :=
  ∃ configs evs, st = run (new_service configs) evs.

End Invariants.
End Invariants.

(** ** Concrete inputs

    A small instance of the environment, used to run the model: headers are
    a single [Subject:] line, bodies starting with [%] fail to parse. *)
Module Fixture.
Import Normalizer Batcher Service.

Definition parse_subject (buffer : string) : ParsedHeader :=
  if String.prefix "Subject: " buffer
  then {[ "subject" := [String.substring 9 (String.length buffer - 9) buffer] ]}
  else ∅.

Definition parse_mime (buffer : string) : string + ParsedMail :=
  if String.prefix "%" buffer
  then inl "Error: malformed MIME"
  else inr {| mail_text := Some buffer; mail_html := None; mail_attachments := [] |}.

#[local] Instance libs : Libraries :=
  {| parseHeader := parse_subject; simpleParser := parse_mime; parseDate := λ _, 0%Z |}.

Definition header_part : string := "HEADER.FIELDS (FROM TO CC BCC SUBJECT DATE)".

Definition alice : ImapAccountConfig :=
  {| user := "alice@example.com"; password := "secret"; host := "imap.example.com";
     port := 993; tls := true |}.

(** One account connects, its mailbox of ten messages opens, the search of
    the last thirty days finds nothing, and the connection idles. *)
Definition idling : State :=
  run (new_service [alice])
    [CallStartSync; EvReady 0; EvOpenBox 0 (inr 10%Z); EvSearch 0 (inr [])].

(** An eleventh message arrives while the connection idles. *)
Definition one_new_message : list Event := [EvBox 0 (Some 11%Z); EvMail 0 1].

(** A message with a subject, whose body part is delivered and parsed, whose
    attributes arrive, and which ends. *)
Definition plain_message (subject body : string) (u : N) : list MsgEvent :=
  [BodyEnd header_part ["Subject: "; subject] 5%Z; BodyEnd "TEXT" [body] 6%Z; ParseSettled 0;
   Attributes {| uid := u; flags := Some ["\Seen"] |}].

(** The [j]-th message announced by a fetch, delivered whole. *)
Definition deliver (j : nat) (seq : Z) (u : N) : list FetchEvent :=
  Message seq "9f1c" 7%Z :: (OnMessage j <$> (plain_message "hi" "text" u ++ [End])).

(** The watchdog timeout of [alice]'s first connection. *)
Definition watchdog : Timer :=
  {| delay := 1740000; action := Watchdog "alice@example.com" 0 |}.

(** A search result of twenty-five identifiers. *)
Definition twenty_five : list Z := seqZ 101 25.

(** A message of the [j]-th announcement of a fetch is announced and ends
    at once. *)
Definition announce_and_end (j : nat) : list FetchEvent :=
  [Message (Z.of_nat j) "uuid" 7%Z; OnMessage j End].

End Fixture.

(** ** Observations on traces, used to state further properties *)
Module Observations.
Import Normalizer Batcher Service.

Definition is_parse_settled (ev : MsgEvent) : bool :=
  match ev with ParseSettled _ => true | _ => false end.

(** The fields a header part sets are set together. *)
Definition header_fields (e : Email.t) : Prop :=
  is_Some (Email.subject e) →
  truthy (Email.subject e) = true ∧ is_Some (Email.from e) ∧ is_Some (Email.to e)
  ∧ is_Some (Email.cc e) ∧ is_Some (Email.bcc e) ∧ is_Some (Email.date e).

(** The attachment list is undefined or non-empty, with named entries. *)
Definition attachments_named (e : Email.t) : Prop :=
  match Email.attachments e with
  | None => True
  | Some l => l ≠ [] ∧ Forall (λ a, filename a ≠ "") l
  end.

(** The batch indices for which a fetch object asked [processBatch], and
    the times it asked for [startIdleMode]. *)
Definition next_batch_requests (os : list Out) : list nat :=
  omap (λ o, match signal o with Some (NextBatch k) => Some k | _ => None end) os.

Definition restart_requests (os : list Out) : list unit :=
  omap (λ o, match signal o with Some RestartIdle => Some () | _ => None end) os.

End Observations.

(** A second instance of the environment: a body that starts with [<] is
    HTML without a text part and carries one unnamed attachment. *)
Module Samples.
Import Normalizer Batcher Service.

Definition parse_html (buffer : string) : string + ParsedMail :=
  if String.prefix "<" buffer
  then inr {| mail_text := None; mail_html := Some buffer;
              mail_attachments := [ {| att_filename := None;
                                       att_contentType := "application/pdf";
                                       att_size := 1024 |} ] |}
  else Fixture.parse_mime buffer.

#[local] Instance html_libs : Libraries :=
  {| parseHeader := Fixture.parse_subject; simpleParser := parse_html;
     parseDate := λ _, 0%Z |}.

End Samples.

(** ** Observations on the service *)
Module Registry.
Import Normalizer Batcher Service.

(** [this.accounts.get(accountId)]. *)
Definition account_get (accountId : string) (st : State) : option nat :=
  snd <$> List.find (λ entry, bool_decide (entry.1 = accountId)) (accounts st).

(** [connectAccount] on a fresh object, as [startSync] and the reconnection
    timeouts run it. *)
Definition connected (cfg : ImapAccountConfig) : Imap := call CmdConnect (new_imap cfg).

(** The watchdog handle [stopSync] finds for one of the registered
    accounts. *)
Definition registered_watchdog (st : State) (t : nat) : Prop :=
  ∃ accountId imap, (accountId, imap) ∈ accounts st ∧ watchdogTimers st !! accountId = Some t.

(** What [imap.end()] does in the loop of [stopSync]: nothing when the call
    throws. *)
Definition ended_by_stop (i : Imap) : Imap :=
  match throwing i with
  | Some _ => i
  | None => call CmdEnd i
  end.

End Registry.

(** ** What the handlers keep *)
Module Frames.
Import Normalizer Batcher Service Invariants Observations Registry.
Section Frames.
Context `{!Libraries}.

(** The ['end'] event of a message of a fetch. *)
Definition is_message_end (ev : Event) : bool :=
  match ev with
  | EvFetch _ _ (OnMessage _ End) => true
  | _ => false
  end.

(** The message objects of a connection, over all its fetch objects. *)
Definition messages (i : Imap) : list Msg := fetches i ≫= msgs.

(** The timeouts the service arms: lines 102 and 315. *)
Definition error_reconnect (accountId : string) : Timer :=
  {| delay := 30000; action := ReconnectAfterError accountId |}.

Definition idle_watchdog (accountId : string) (imap : nat) : Timer :=
  {| delay := 29 * 60 * 1000; action := Watchdog accountId imap |}.

Definition armed (tm : Timer) : Prop :=
  (∃ accountId, tm = error_reconnect accountId)
  ∨ (∃ accountId imap, tm = idle_watchdog accountId imap).

(** A handler that creates no connection object and no message object,
    emits nothing and leaves the account map: the configuration of every
    connection and its messages stay, and a timeout pending afterwards was
    pending before or is one of the two the service arms. *)
Definition keeps (st st' : State) : Prop :=
  accountConfigs st' = accountConfigs st
  ∧ accounts st' = accounts st
  ∧ emails st' = emails st
  ∧ (∀ t tm, timers st' !! t = Some tm → timers st !! t = Some tm ∨ armed tm)
  ∧ length (heap st') = length (heap st)
  ∧ ∀ c i i', heap st !! c = Some i → heap st' !! c = Some i' →
      config i' = config i ∧ messages i' = messages i.

(** The fields of the [email] object that never change, and the two
    properties its setters keep. *)
Definition msg_ok (accountId : string) (e : Email.t) : Prop :=
  Email.accountId e = accountId ∧ Email.folder e = "INBOX"
  ∧ Email.aiCategory e = Uncategorized
  ∧ header_fields e ∧ attachments_named e.

(** A record as [EmailDocument] requires it, of a configured account. *)
Definition record_ok (configs : list ImapAccountConfig) (e : Email.t) : Prop :=
  (∃ cfg, cfg ∈ configs ∧ Email.accountId e = user cfg)
  ∧ Email.folder e = "INBOX"
  ∧ Email.aiCategory e = Uncategorized
  ∧ (∃ s b f t c bc d,
       Email.subject e = Some s ∧ s ≠ "" ∧ Email.body e = Some b ∧ b ≠ ""
       ∧ Email.from e = Some f ∧ Email.to e = Some t ∧ Email.cc e = Some c
       ∧ Email.bcc e = Some bc ∧ Email.date e = Some d)
  ∧ attachments_named e.

(** Every account is registered to one connection object, which exists
    and was created for that account, and no object serves two accounts. *)
Definition registry_ok (st : State) : Prop :=
  NoDup (accounts st).*1
  ∧ NoDup (accounts st).*2
  ∧ ∀ a c, (a, c) ∈ accounts st → ∃ i, heap st !! c = Some i ∧ user (config i) = a.

(** What holds of the service at every moment: the pending timeouts are
    reconnections after an error and watchdogs, the account map is
    well formed, every connection is that of a configured account and its
    messages carry its account, and the records emitted are complete. *)
Record sound (st : State) : Prop := {
  sound_timers : ∀ t tm, timers st !! t = Some tm → armed tm;
  sound_registry : registry_ok st;
  sound_config : ∀ c i, heap st !! c = Some i → config i ∈ accountConfigs st;
  sound_messages : ∀ c i m, heap st !! c = Some i → m ∈ messages i →
                     msg_ok (user (config i)) (email m);
  sound_records : ∀ e, e ∈ emails st → record_ok (accountConfigs st) e
}.

End Frames.
End Frames.

(** ** Further concrete inputs *)
Module Scenarios.
Import Normalizer Batcher Service Fixture.

(** The connection of [alice] idles on an empty search result; an eleventh
    message arrives and is delivered whole. *)
Definition one_delivery : list Event :=
  [CallStartSync; EvReady 0; EvOpenBox 0 (inr 10%Z); EvSearch 0 (inr [])]
  ++ one_new_message ++ (EvFetch 0 0 <$> deliver 0 11 42).

(** A search finds twenty-five messages; the ten messages of the first
    batch are announced and end, so that the second batch is fetched. *)
Definition second_batch_events : list Event :=
  [CallStartSync; EvReady 0; EvOpenBox 0 (inr 200%Z); EvSearch 0 (inr twenty_five)]
  ++ (EvFetch 0 0 <$> concat (announce_and_end <$> seq 0 10)).

(** The mailbox of [alice] cannot be opened. *)
Definition open_fails : list Event :=
  [CallStartSync; EvReady 0; EvOpenBox 0 (inl "NO [NONEXISTENT] Unknown Mailbox")].

(** The search of [alice]'s mailbox is outstanding. *)
Definition searching : list Event :=
  [CallStartSync; EvReady 0; EvOpenBox 0 (inr 200%Z)].

End Scenarios.

(** ** The order of the batch fetches *)
Module BatchOrder.
Import Normalizer Batcher Service Invariants.
Section BatchOrder.
Context `{!Libraries}.

(** The batch a fetch object of the initial sync was created for. *)
Definition batch_index (f : Fetch) : option nat :=
  match owner f with
  | OfBatch batchIndex _ _ => Some batchIndex
  | OfNewMail => None
  end.

(** The batches fetched on a connection, in the order of the [imap.fetch]
    calls. *)
Definition batch_indices (fs : list Fetch) : list nat := omap batch_index fs.

(** The ['end'] handler has run for as many messages as the batch has
    identifiers. *)
Definition batch_done (f : Fetch) : Prop :=
  match owner f with
  | OfBatch _ batch processedCount => length batch ≤ processedCount
  | OfNewMail => True
  end.

(** The batches fetched so far are the first [n], each once and in order,
    and all but the last are done. *)
Definition in_order (fs : list Fetch) : Prop :=
  ∃ n, batch_indices fs = seq 0 n
       ∧ ∀ f k, f ∈ fs → batch_index f = Some k → S k < n → batch_done f.

(** A handler that creates no connection and, on every connection, only
    adds fetch objects of [fetchNewEmails]. *)
Definition only_new_mail (st st' : State) : Prop :=
  ∀ c i', heap st' !! c = Some i' →
    ∃ i extra, heap st !! c = Some i ∧ fetches i' = fetches i ++ extra
               ∧ Forall (λ f, owner f = OfNewMail) extra.

(** What holds of every connection at every moment. *)
Definition ordered (st : State) : Prop :=
  ∀ c i, heap st !! c = Some i → in_order (fetches i).

End BatchOrder.
End BatchOrder.

(** ** IDLE starts when the initial sync has resolved *)
Module IdleGuard.
Import Normalizer Batcher Service Invariants.
Section IdleGuard.
Context `{!Libraries}.

(** The library calls of [startIdleMode] and [fetchNewEmails]. *)
Definition is_idle_call (c : Cmd) : bool :=
  match c with
  | CmdIdle | CmdIdleStop | CmdSeqFetch _ => true
  | _ => false
  end.

(** What [startIdleMode] or [fetchNewEmails] leave on a connection: a
    ['mail'] listener, one of their calls, or a fetch of new mail. *)
Definition idle_started (i : Imap) : Prop :=
  0 < mailListeners i
  ∨ (∃ c, c ∈ commands i ∧ is_idle_call c = true)
  ∨ (∃ f, f ∈ fetches i ∧ owner f = OfNewMail).

(** The promise of [initialSync] on the connection has resolved. *)
Definition resolved (imap : nat) (st : State) : Prop :=
  ∃ i, heap st !! imap = Some i ∧ promise i = Resolved.

(** What holds at every moment: IDLE has started only on connections
    whose initial sync resolved, and a pending watchdog belongs to such a
    connection. *)
Definition guarded (st : State) : Prop :=
  (∀ c i, heap st !! c = Some i → idle_started i → promise i = Resolved)
  ∧ (∀ t tm a c, timers st !! t = Some tm → action tm = Watchdog a c → resolved c st).

(** What every handler guarantees: a connection object stays, a settled
    promise keeps its value, IDLE starts on resolved connections only, and
    a watchdog is armed for a resolved connection only. *)
Definition guards (st st' : State) : Prop :=
  (∀ c i, heap st !! c = Some i →
          ∃ i', heap st' !! c = Some i'
                ∧ (promise i ≠ Pending → promise i' = promise i)
                ∧ (idle_started i' → idle_started i ∨ promise i' = Resolved))
  ∧ (∀ c i', heap st !! c = None → heap st' !! c = Some i' →
             idle_started i' → promise i' = Resolved)
  ∧ (∀ t tm a c, timers st' !! t = Some tm → action tm = Watchdog a c →
                 timers st !! t = Some tm ∨ resolved c st').

(** An update of a connection object that settles nothing and starts no
    IDLE. *)
Definition inert (g : Imap → Imap) : Prop :=
  ∀ i, promise (g i) = promise i ∧ (idle_started (g i) → idle_started i).

End IdleGuard.
End IdleGuard.

(** ** A connection that delivers every message of every batch *)
Module Delivery.
Import Normalizer Batcher Service.
Section Delivery.
Context `{!Libraries}.

(** One message as the library delivers it: the sequence number of its
    ['message'] event, the values [uuidv4()] and [new Date()] return in
    the handler, and the events of the message object before its
    ['end']. *)
Record Delivered := {
  d_seq : Z;
  d_uuid : string;
  d_now : Date;
  d_events : list MsgEvent
}.

Definition no_end (d : Delivered) : Prop := existsb is_end (d_events d) = false.

(** The events of the [j]-th message of a fetch, its ['end'] last. *)
Definition message_events (j : nat) (d : Delivered) : list FetchEvent :=
  Message (d_seq d) (d_uuid d) (d_now d) :: (OnMessage j <$> (d_events d ++ [End])).

(** The messages of one fetch, one after the other, after [j] others. *)
Fixpoint batch_events (j : nat) (ds : list Delivered) : list FetchEvent :=
  match ds with
  | [] => []
  | d :: ds => message_events j d ++ batch_events (S j) ds
  end.

(** The batches of an initial sync on the connection [c], one after the
    other; the fetch object of the first is the [f]-th of [c]. *)
Fixpoint sync_events (c f : nat) (dss : list (list Delivered)) : list Event :=
  match dss with
  | [] => []
  | ds :: dss => (EvFetch c f <$> batch_events 0 ds) ++ sync_events c (S f) dss
  end.

(** What a message emits when it ends. *)
Definition record_of (accountId : string) (d : Delivered) : list Email.t :=
  emitted (msg_run (new_msg accountId (d_seq d) (d_uuid d) (d_now d))
             (d_events d ++ [End])).2.

(** The message object once it has ended. *)
Definition ended_message (accountId : string) (d : Delivered) : Msg :=
  (msg_run (new_msg accountId (d_seq d) (d_uuid d) (d_now d)) (d_events d ++ [End])).1.

(** Two states with the same flags, timers and account map. *)
Definition same_control (st st' : State) : Prop :=
  accountConfigs st' = accountConfigs st
  ∧ accounts st' = accounts st
  ∧ connectionsActive st' = connectionsActive st
  ∧ watchdogTimers st' = watchdogTimers st
  ∧ timers st' = timers st
  ∧ nextTimer st' = nextTimer st.

(** The initial sync of the connection [c], started in [st0] with the
    batches [bs], is fetching batch [k], which is [b]; [pc] of its
    messages have been announced and have ended, and [recs] has been
    emitted since [st0].  [cmds] are the calls made before the first
    fetch, [ml] the ['mail'] listeners, [base] the number of fetch objects
    that existed. *)
Definition syncing (st0 : State) (c : nat) (a : string) (bs : list (list Z))
    (cmds : list Cmd) (ml base : nat) (k : nat) (b : list Z) (pc : nat)
    (recs : list Email.t) (st : State) : Prop :=
  same_control st0 st
  ∧ emails st = emails st0 ++ recs
  ∧ bs !! k = Some b
  ∧ ∃ i fetch,
      heap st !! c = Some i
      ∧ user (config i) = a ∧ batches i = bs ∧ throwing i = None
      ∧ promise i = Pending ∧ mailListeners i = ml
      ∧ commands i = cmds ++ (CmdFetch <$> take (S k) bs)
      ∧ length (fetches i) = base + S k
      ∧ fetches i !! (base + k) = Some fetch
      ∧ owner fetch = OfBatch k b pc ∧ length (msgs fetch) = pc.

(** The initial sync has resolved and the connection idles. *)
Definition synced (st0 : State) (c : nat) (a : string) (bs : list (list Z))
    (cmds : list Cmd) (ml base : nat) (recs : list Email.t) (st : State) : Prop :=
  emails st = emails st0 ++ recs
  ∧ timers st = <[nextTimer st0 := {| delay := 29 * 60 * 1000;
                                     action := Watchdog a c |}]> (timers st0)
  ∧ watchdogTimers st = <[a := nextTimer st0]> (watchdogTimers st0)
  ∧ connectionsActive st = connectionsActive st0
  ∧ accounts st = accounts st0
  ∧ ∃ i, heap st !! c = Some i
         ∧ promise i = Resolved
         ∧ mailListeners i = S ml
         ∧ commands i = cmds ++ (CmdFetch <$> bs) ++ [CmdIdle]
         ∧ length (fetches i) = base + length bs.

End Delivery.

(** A message with subject and body, as [Fixture.plain_message] delivers
    it, and the three batches of twenty-five such messages. *)
Definition sample_message (u : nat) : Delivered :=
  {| d_seq := Z.of_nat u; d_uuid := "9f1c"; d_now := 7%Z;
     d_events := Fixture.plain_message "hi" "text" (N.of_nat u) |}.

Definition sample_batches : list (list Delivered) :=
  [sample_message <$> seq 1 10; sample_message <$> seq 11 10;
   sample_message <$> seq 21 5].

End Delivery.

(** ** Helpers of the other services

    [truncateText] of [WebhookService], [retryWithBackoff] of
    [AICategoryService] and [storeProductData] of [RagService]. *)
Module Helpers.

(** webhook.service.ts, lines 169-175.  [maxLength] is 200 and 500 at the
    two call sites; a string is the sequence of its code units. *)
Definition truncateText (text : string) (maxLength : nat) : string :=
  if decide (String.length text ≤ maxLength)
  then text
  else String.substring 0 maxLength text +:+ "...".

(** *** [retryWithBackoff]: webhook.service.ts (second part), lines 306-330 *)
Section Retry.
Context {T : Type}.

(** One round of the loop that failed and is retried: the message logged
    and the delay slept. *)
Definition retry_log (retries : nat) (maxRetries delay : Z) : LogEntry :=
  log_info ("Retry " +:+ pretty retries +:+ "/" +:+ pretty maxRetries +:+ " after "
            +:+ pretty delay +:+ "ms").

(** The loop.  [operation k] is the outcome of the call of [operation()]
    made after [k] failed calls: the error it rejects with, or its value.
    The result is what the function throws or returns, with the rounds
    that were retried. *)
Equations? retry_loop (operation : nat → string + T) (maxRetries : Z)
    (retries : nat) (delay : Z) (rounds : list (LogEntry * Z)) :
    (string + T) * list (LogEntry * Z)
    by wf (Z.to_nat (maxRetries - Z.of_nat retries)) lt :=
retry_loop operation maxRetries retries delay rounds with operation retries := {
  | inr value => (inr value, rounds);
  | inl error with decide (maxRetries ≤ Z.of_nat (S retries))%Z := {
    | left _ => (inl error, rounds);
    | right _ =>
        retry_loop operation maxRetries (S retries) (delay * 2)
          (rounds ++ [(retry_log (S retries) maxRetries delay, delay)]) } }.
Proof. lia. Qed.

Definition retryWithBackoff (operation : nat → string + T) (maxRetries initialDelay : Z) :
    (string + T) * list (LogEntry * Z) :=
  retry_loop operation maxRetries 0 initialDelay [].

End Retry.

(** *** [storeProductData]: rag.service.ts, lines 88-146 *)
Section Rag.
Context {Vector : Type}.

Record Point := {
  point_id : string;
  point_vector : Vector;
  point_text : string
}.

(** What the [PUT] of a batch of points does: it is answered with [ok],
    or with an error status and this text, or [fetch] rejects. *)
Inductive PutOutcome :=
| PutOk
| PutNotOk (errorText : string)
| PutRejects (error : string).

(** Lines 95-100: the loop that cuts the chunks into batches of five. *)
Equations? chunk_loop (chunks : list string) (i : nat) (batches : list (list string)) :
  list (list string) by wf (length chunks - i) lt :=
chunk_loop chunks i batches with decide (i < length chunks) := {
  | left _ => chunk_loop chunks (i + 5) (batches ++ [take 5 (drop i chunks)]);
  | right _ => batches }.
Proof. lia. Qed.

(** Lines 106-121: the points of one batch; [generateEmbedding] is given by
    its outcome for the chunk that gets the identifier [pointId], the
    message of the error it throws or the vector. *)
Fixpoint embed_batch (generateEmbedding : nat → string → string + Vector) (pointId : nat)
    (batch : list string) (points : list Point) : string + list Point :=
  match batch with
  | [] => inr points
  | chunk :: batch =>
      match generateEmbedding pointId chunk with
      | inl error => inl error
      | inr embedding =>
          embed_batch generateEmbedding (S pointId) batch
            (points ++ [{| point_id := pretty pointId; point_vector := embedding;
                           point_text := chunk |}])
      end
  end.

(** The result of [storeProductData]: the bodies of the [PUT] requests
    made, what the method logged, and the message of the error thrown, if any. *)
Record Stored := {
  puts : list (list Point);
  store_logs : list LogEntry;
  thrown : option string
}.

(** Lines 105-139: the loop over the batches; [put k] answers the request
    for the [k]-th batch. *)
Fixpoint store_batches (generateEmbedding : nat → string → string + Vector)
    (put : nat → list Point → PutOutcome) (k pointId : nat) (batches : list (list string)) :
    Stored :=
  match batches with
  | [] => {| puts := []; store_logs := []; thrown := None |}
  | batch :: batches =>
      match embed_batch generateEmbedding pointId batch [] with
      | inl error => {| puts := []; store_logs := []; thrown := Some error |}
      | inr points =>
          match put k points with
          | PutOk =>
              let rest := store_batches generateEmbedding put (S k)
                            (pointId + length batch) batches in
              {| puts := points :: puts rest; store_logs := store_logs rest;
                 thrown := thrown rest |}
          | PutNotOk errorText =>
              {| puts := [points];
                 store_logs := [log_error ("Failed to store vectors in Qdrant: " +:+ errorText)];
                 thrown := Some ("Failed to store vectors: " +:+ errorText) |}
          | PutRejects error =>
              {| puts := [points]; store_logs := []; thrown := Some error |}
          end
      end
  end.

(** Lines 93-145, on an initialised collection. *)
Definition storeProductData (generateEmbedding : nat → string → string + Vector)
    (put : nat → list Point → PutOutcome) (chunks : list string) : Stored :=
  let r := store_batches generateEmbedding put 0 1 (chunk_loop chunks 0 []) in
  match thrown r with
  | None =>
      {| puts := puts r;
         store_logs := store_logs r
                       ++ [log_info ("Stored " +:+ pretty (length chunks)
                                     +:+ " product data chunks in Qdrant")];
         thrown := None |}
  | Some error =>
      {| puts := puts r;
         store_logs := store_logs r ++ [log_error_with "Error storing product data:" error];
         thrown := Some error |}
  end.

End Rag.

End Helpers.

(** * Properties *)

Lemma truthy_spec s : truthy s = true ↔ ∃ v, s = Some v ∧ v ≠ "".
Proof.
  destruct s as [v|]; simpl.
  - rewrite negb_true_iff. split.
    + intros H. exists v. split; [done|]. by apply String.eqb_neq.
    + intros (w & [= <-] & Hw). by apply String.eqb_neq.
  - split; [done|]. by intros (? & ? & _).
Qed.

(** ** The message handlers *)
Section NormalizerFacts.
Context `{!Libraries}.
Import Normalizer.

Lemma msg_run_app m evs1 evs2 :
  msg_run m (evs1 ++ evs2) =
  ((msg_run (msg_run m evs1).1 evs2).1,
   (msg_run m evs1).2 ++ (msg_run (msg_run m evs1).1 evs2).2).
Proof.
  revert m. induction evs1 as [|ev evs1 IH]; intros m; simpl.
  - by destruct (msg_run m evs2).
  - destruct (msg_step m ev) as [[m1 fx1] ran]. rewrite IH.
    destruct (msg_run m1 evs1) as [m2 fx2]. simpl.
    by rewrite app_assoc.
Qed.

Lemma emitted_app fx1 fx2 : emitted (fx1 ++ fx2) = emitted fx1 ++ emitted fx2.
Proof. apply omap_app. Qed.

(** Only the ['end'] handler emits, and only the first time. *)
Lemma msg_step_emits m ev m' fx ran :
  msg_step m ev = (m', fx, ran) →
  emitted fx = (if ran && complete (email m) then [email m] else [])
  ∧ endOnce m' = (endOnce m && negb (is_end ev))
  ∧ ran = (is_end ev && endOnce m)
  ∧ seqno m' = seqno m.
Proof.
  destruct ev as [which chunks now|i|a|]; simpl.
  - intros [= <- <- <-]. unfold onBodyEnd.
    destruct (String.prefix _ _); simpl; by rewrite andb_true_r.
  - unfold onParseSettled, onParsed.
    destruct (awaiting m !! i) as [buffer|]; [destruct (simpleParser buffer)|];
      intros [= <- <- <-]; simpl; by rewrite andb_true_r.
  - intros [= <- <- <-]. unfold onAttributes.
    destruct (attributesOnce m); simpl; by rewrite andb_true_r.
  - unfold onMessageEnd. destruct (endOnce m) eqn:E; intros [= <- <- <-]; simpl.
    + by destruct (complete (email m)).
    + by rewrite E.
Qed.

Lemma no_emission_after_end m evs :
  endOnce m = false → emitted (msg_run m evs).2 = [].
Proof.
  revert m. induction evs as [|ev evs IH]; intros m Hm; simpl; [done|].
  destruct (msg_step m ev) as [[m1 fx1] ran] eqn:Hstep.
  apply msg_step_emits in Hstep as (Hfx & Hend & -> & _). rewrite Hm in Hfx, Hend.
  rewrite andb_false_r in Hfx. simpl in *.
  specialize (IH m1 Hend). destruct (msg_run m1 evs) as [m2 fx2]. simpl in *.
  by rewrite emitted_app, Hfx, IH.
Qed.

Lemma no_emission_before_end m evs :
  existsb is_end evs = false →
  emitted (msg_run m evs).2 = [] ∧ endOnce (msg_run m evs).1 = endOnce m.
Proof.
  revert m. induction evs as [|ev evs IH]; intros m Hevs; simpl in *; [done|].
  apply orb_false_iff in Hevs as [Hev Hevs].
  destruct (msg_step m ev) as [[m1 fx1] ran] eqn:Hstep.
  apply msg_step_emits in Hstep as (Hfx & Hend & -> & _). rewrite Hev in Hfx, Hend.
  simpl in *. rewrite andb_true_r in Hend.
  destruct (IH m1 Hevs) as [IH1 IH2]. destruct (msg_run m1 evs) as [m2 fx2]. simpl in *.
  rewrite emitted_app, Hfx, IH1, IH2. done.
Qed.

(** What a message emits over its whole life: the object as it stands at
    the first ['end'], when that object is complete. *)
Lemma emitted_at_first_end m pre post :
  endOnce m = true → existsb is_end pre = false →
  emitted (msg_run m (pre ++ End :: post)).2 =
  if complete (email (msg_run m pre).1) then [email (msg_run m pre).1] else [].
Proof.
  intros Hm Hpre. rewrite msg_run_app. simpl.
  destruct (no_emission_before_end m pre Hpre) as [Hfx Hend].
  rewrite emitted_app, Hfx. simpl.
  set (m1 := (msg_run m pre).1) in *. rewrite Hm in Hend.
  unfold onMessageEnd. rewrite Hend.
  pose proof (no_emission_after_end
    {| email := email m1; seqno := seqno m1; awaiting := awaiting m1;
       attributesOnce := attributesOnce m1; endOnce := false |} post eq_refl) as Hpost.
  destruct (msg_run _ post) as [m2 fx2]. simpl in *.
  rewrite emitted_app, Hpost, app_nil_r. by destruct (complete (email m1)).
Qed.

Lemma complete_spec e :
  complete e = true ↔
  ∃ s b, Email.subject e = Some s ∧ s ≠ "" ∧ Email.body e = Some b ∧ b ≠ "".
Proof.
  unfold complete. rewrite andb_true_iff, !truthy_spec. split.
  - intros [(s & Hs & Hs') (b & Hb & Hb')]. by exists s, b.
  - intros (s & b & Hs & Hs' & Hb & Hb'). split; eauto.
Qed.

(** C3.  A fetched message gives rise to a record exactly when, at the
    moment its ['end'] event is handled, its subject and its body are both
    present and non-empty; the record is the object as it stands then.  In
    particular a message whose body is the empty string at that moment is
    dropped, whatever its subject, and a message that never ends emits
    nothing. *)
Theorem emitted_iff_subject_and_body_at_end accountId seq uuid now pre post :
  existsb is_end pre = false →
  let m := new_msg accountId seq uuid now in
  let at_end := email (msg_run m pre).1 in
  let out := emitted (msg_run m (pre ++ End :: post)).2 in
  (out = [at_end] ∨ out = [])
  ∧ (out = [at_end] ↔
     ∃ s b, Email.subject at_end = Some s ∧ s ≠ ""
            ∧ Email.body at_end = Some b ∧ b ≠ "")
  ∧ (Email.body at_end = Some "" → out = [])
  ∧ (Email.body at_end = None → out = [])
  ∧ (Email.subject at_end = None → out = [])
  ∧ emitted (msg_run m pre).2 = [].
Proof.
  intros Hpre m at_end out.
  assert (Hout : out = if complete at_end then [at_end] else [])
    by (by apply emitted_at_first_end).
  pose proof (complete_spec at_end) as Hc.
  split_and!.
  - rewrite Hout. destruct (complete at_end); auto.
  - rewrite Hout, <- Hc. destruct (complete at_end); [done|]. split; [|done].
    intros [=].
  - intros Hb. rewrite Hout. unfold complete. rewrite Hb. simpl. by rewrite andb_false_r.
  - intros Hb. rewrite Hout. unfold complete. rewrite Hb. simpl. by rewrite andb_false_r.
  - intros Hs. rewrite Hout. unfold complete. by rewrite Hs.
  - by apply no_emission_before_end.
Qed.

(** The subject changes only when a header part ends. *)
Lemma subject_preserved m evs :
  existsb is_header_end evs = false →
  Email.subject (email (msg_run m evs).1) = Email.subject (email m).
Proof.
  revert m. induction evs as [|ev evs IH]; intros m Hevs; simpl in *; [done|].
  apply orb_false_iff in Hevs as [Hev Hevs].
  destruct (msg_step m ev) as [[m1 fx1] ran] eqn:Hstep.
  specialize (IH m1 Hevs). destruct (msg_run m1 evs) as [m2 fx2]. simpl in *.
  rewrite IH. clear IH.
  destruct ev as [which chunks now|i|a|]; simpl in *.
  - injection Hstep as <- _ _. unfold onBodyEnd. by rewrite Hev.
  - unfold onParseSettled, onParsed in Hstep.
    destruct (awaiting m !! i) as [buffer|]; [destruct (simpleParser buffer)|];
      by injection Hstep as <- _ _.
  - injection Hstep as <- _ _. unfold onAttributes. by destruct (attributesOnce m).
  - unfold onMessageEnd in Hstep. destruct (endOnce m); by injection Hstep as <- _ _.
Qed.

Lemma header_without_subject which chunks now m :
  String.prefix "HEADER" which = true →
  parseHeader (buffer_of chunks) !! "subject" = None →
  Email.subject (email (onBodyEnd which chunks now m)) = Some "(No Subject)".
Proof.
  intros Hw Hs. unfold onBodyEnd. rewrite Hw. simpl. by rewrite Hs.
Qed.

(** C10.  When the header part of a fetched message ends and the parsed
    header has no subject field, the handler sets the subject to the
    placeholder ["(No Subject)"]; and when no later header part replaces it
    before the message ends, every record emitted for the message carries
    that placeholder as its subject. *)
Theorem missing_subject_gets_placeholder
    accountId seq uuid now0 pre which chunks now mid post :
  String.prefix "HEADER" which = true →
  parseHeader (buffer_of chunks) !! "subject" = None →
  existsb is_end (pre ++ mid) = false →
  existsb is_header_end mid = false →
  (∀ m, Email.subject (email (onBodyEnd which chunks now m)) = Some "(No Subject)")
  ∧ ∀ e, e ∈ emitted (msg_run (new_msg accountId seq uuid now0)
                        (pre ++ BodyEnd which chunks now :: mid ++ End :: post)).2 →
         Email.subject e = Some "(No Subject)".
Proof.
  intros Hw Hs Hend Hmid. split; [intros m; by apply header_without_subject|].
  intros e. rewrite existsb_app in Hend. apply orb_false_iff in Hend as [Hpre Hmid'].
  replace (pre ++ BodyEnd which chunks now :: mid ++ End :: post)
    with ((pre ++ BodyEnd which chunks now :: mid) ++ End :: post)
    by (by rewrite <- app_assoc).
  rewrite emitted_at_first_end; [|done|].
  2:{ rewrite existsb_app. simpl. by rewrite Hpre, Hmid'. }
  set (m := new_msg accountId seq uuid now0).
  assert (Hsub : Email.subject (email (msg_run m (pre ++ BodyEnd which chunks now :: mid)).1)
                 = Some "(No Subject)").
  { rewrite msg_run_app. simpl.
    pose proof (subject_preserved (onBodyEnd which chunks now (msg_run m pre).1) mid Hmid) as Hp.
    destruct (msg_run (onBodyEnd _ _ _ _) mid) as [m2 fx2]. simpl in *.
    rewrite Hp. by apply header_without_subject. }
  destruct (complete _); [|by intros ?%elem_of_nil].
  by intros ->%list_elem_of_singleton.
Qed.

(** The account of a message object never changes. *)
Lemma msg_step_accountId m ev m' fx ran :
  msg_step m ev = (m', fx, ran) →
  Email.accountId (email m') = Email.accountId (email m).
Proof.
  destruct ev as [which chunks now|i|a|]; simpl.
  - intros [= <- _ _]. unfold onBodyEnd. by destruct (String.prefix _ _).
  - unfold onParseSettled, onParsed.
    destruct (awaiting m !! i) as [buffer|]; [destruct (simpleParser buffer)|];
      by intros [= <- _ _].
  - intros [= <- _ _]. unfold onAttributes. by destruct (attributesOnce m).
  - unfold onMessageEnd. destruct (endOnce m); by intros [= <- _ _].
Qed.

(** Once the ['attributes'] handler has run, the identifier is final. *)
Lemma id_final m evs e :
  attributesOnce m = false →
  e ∈ emitted (msg_run m evs).2 → Email.id e = Email.id (email m).
Proof.
  revert m. induction evs as [|ev evs IH]; intros m Hm; simpl.
  { by intros ?%elem_of_nil. }
  destruct (msg_step m ev) as [[m1 fx1] ran] eqn:Hstep.
  specialize (IH m1). destruct (msg_run m1 evs) as [m2 fx2]. simpl in *.
  rewrite emitted_app, elem_of_app.
  destruct ev as [which chunks now|i|a|]; simpl in *.
  - injection Hstep as <- <- _. unfold onBodyEnd in *.
    destruct (String.prefix _ _); simpl in *;
      (intros [?%elem_of_nil|He]; [done|by rewrite (IH Hm He)]).
  - unfold onParseSettled, onParsed in Hstep.
    destruct (awaiting m !! i) as [buffer|]; [destruct (simpleParser buffer)|];
      injection Hstep as <- <-; simpl in *;
      (intros [?%elem_of_nil|He]; [done|by rewrite (IH Hm He)]).
  - injection Hstep as <- <- _. unfold onAttributes in *. rewrite Hm in *.
    intros [?%elem_of_nil|He]; [done|by rewrite (IH Hm He)].
  - unfold onMessageEnd in Hstep. destruct (endOnce m); injection Hstep as <- <- _; simpl in *.
    + intros [He|He]; [|by rewrite (IH Hm He)].
      destruct (complete (email m)); simpl in He.
      * by apply list_elem_of_singleton in He as ->.
      * by apply elem_of_nil in He.
    + intros [?%elem_of_nil|He]; [done|by rewrite (IH Hm He)].
Qed.

Lemma id_from_attributes m evs a e :
  attributesOnce m = true →
  attrs_before_end evs = Some a →
  e ∈ emitted (msg_run m evs).2 →
  Email.id e = make_id (Email.accountId (email m)) (uid a).
Proof.
  revert m. induction evs as [|ev evs IH]; intros m Hm Ha; simpl in *; [done|].
  destruct (msg_step m ev) as [[m1 fx1] ran] eqn:Hstep.
  pose proof (msg_step_accountId _ _ _ _ _ Hstep) as Hacc.
  pose proof (id_final m1 evs e) as Hfin.
  specialize (IH m1). destruct (msg_run m1 evs) as [m2 fx2]. simpl in *.
  rewrite emitted_app, elem_of_app.
  destruct ev as [which chunks now|i|a'|]; simpl in *; [| | |done].
  - injection Hstep as <- <- _. rewrite <- Hacc.
    intros [?%elem_of_nil|He]; [done|]. apply IH; [|done..].
    unfold onBodyEnd. by destruct (String.prefix _ _).
  - rewrite <- Hacc. unfold onParseSettled, onParsed in Hstep.
    destruct (awaiting m !! i) as [buffer|]; [destruct (simpleParser buffer)|];
      injection Hstep as <- <-; simpl in *;
      (intros [?%elem_of_nil|He]; [done|by apply IH]).
  - injection Ha as ->. injection Hstep as <- <- _.
    unfold onAttributes in *. rewrite Hm in *. simpl in *.
    intros [?%elem_of_nil|He]; [done|]. by rewrite (Hfin eq_refl He).
Qed.

(** C2.  The identifier of an emitted record is the account identifier, a
    dash and the decimal [uid] carried by the message's attributes, for
    every message whose attributes are delivered before its end (as the
    library does): it depends neither on the value [uuidv4()] returned, nor
    on the sequence number, the clock or the other events of the message.
    Hence two fetches of a message with the same account and [uid] emit
    records with the same identifier, and distinct [uid]s give distinct
    identifiers. *)
Theorem identifier_is_account_dash_uid accountId :
  (∀ seq uuid now evs a e,
     attrs_before_end evs = Some a →
     e ∈ emitted (msg_run (new_msg accountId seq uuid now) evs).2 →
     Email.id e = accountId +:+ "-" +:+ pretty (uid a))
  ∧ (∀ seq1 uuid1 now1 evs1 a1 e1 seq2 uuid2 now2 evs2 a2 e2,
       attrs_before_end evs1 = Some a1 →
       attrs_before_end evs2 = Some a2 →
       e1 ∈ emitted (msg_run (new_msg accountId seq1 uuid1 now1) evs1).2 →
       e2 ∈ emitted (msg_run (new_msg accountId seq2 uuid2 now2) evs2).2 →
       (uid a1 = uid a2 ↔ Email.id e1 = Email.id e2)).
Proof.
  assert (H1 : ∀ seq uuid now evs a e,
     attrs_before_end evs = Some a →
     e ∈ emitted (msg_run (new_msg accountId seq uuid now) evs).2 →
     Email.id e = accountId +:+ "-" +:+ pretty (uid a)).
  { intros seq uuid now evs a e Ha He.
    exact (id_from_attributes (new_msg accountId seq uuid now) evs a e eq_refl Ha He). }
  split; [done|].
  intros seq1 uuid1 now1 evs1 a1 e1 seq2 uuid2 now2 evs2 a2 e2 Ha1 Ha2 He1 He2.
  rewrite (H1 _ _ _ _ _ _ Ha1 He1), (H1 _ _ _ _ _ _ Ha2 He2). split.
  - by intros ->.
  - intros Heq. apply (inj (String.append accountId)) in Heq.
    apply (inj (String.append "-")) in Heq. by apply (inj pretty) in Heq.
Qed.


End NormalizerFacts.

(** ** Batches and fetch objects *)
Section BatcherFacts.
Context `{!Libraries}.
Import Normalizer Batcher.

(** The loop appends the rest of [results], cut every [batchSize]. *)
Lemma batches_loop_concat results i batches :
  concat (batches_loop results i batches) = concat batches ++ drop i results.
Proof.
  funelim (batches_loop results i batches).
  - rewrite H0, concat_app. simpl. rewrite app_nil_r, <- app_assoc. f_equal.
    unfold slice. replace (i + batchSize - i) with batchSize by lia.
    rewrite <- (take_drop batchSize (drop i results)) at 2.
    by rewrite drop_drop.
  - by rewrite drop_ge, app_nil_r by lia.
Qed.

Lemma batches_loop_length results i batches :
  length (batches_loop results i batches) =
  length batches + (length results - i + 9) / 10.
Proof.
  funelim (batches_loop results i batches).
  - rewrite H0, length_app. cbn [length]. unfold batchSize.
    assert ((length results - i + 9) / 10 = 1 + (length results - (i + 10) + 9) / 10); [|lia].
    destruct (decide (i + 10 ≤ length results)).
    + replace (length results - i + 9) with (1 * 10 + (length results - (i + 10) + 9)) by lia.
      by rewrite Nat.div_add_l.
    + replace (length results - (i + 10) + 9) with 9 by lia.
      rewrite (Nat.div_small 9 10) by lia.
      symmetry. apply (Nat.div_unique _ _ _ (length results - i - 1)); lia.
  - replace (length results - i + 9) with 9 by lia. rewrite (Nat.div_small 9 10); lia.
Qed.

(** Each batch is the next [batchSize] identifiers of [results]. *)
Lemma batches_loop_lookup results i batches :
  i = batchSize * length batches →
  (∀ k b, batches !! k = Some b →
     b = take batchSize (drop (batchSize * k) results) ∧ batchSize * k < length results) →
  ∀ k b, batches_loop results i batches !! k = Some b →
    b = take batchSize (drop (batchSize * k) results) ∧ batchSize * k < length results.
Proof.
  funelim (batches_loop results i batches); [|done].
  intros Hi Hacc. apply H0.
  - rewrite length_app. cbn [length]. unfold batchSize in *. lia.
  - intros k b [Hk|[Hk Hb]]%lookup_app_Some; [by apply Hacc|].
    apply list_lookup_singleton_Some in Hb as [Hk' <-].
    assert (k = length batches) as -> by lia. rewrite <- Hi.
    unfold slice. split; [|done]. f_equal. lia.
Qed.

(** The batches of the initial sync: in order and contiguous, they cover the
    search results, there are [ceil(n / 10)] of them, each has between one
    and [batchSize] identifiers and all but the last have [batchSize]. *)
Lemma make_batches_partition results :
  concat (make_batches results) = results
  ∧ length (make_batches results) = (length results + 9) / 10
  ∧ ∀ k b, make_batches results !! k = Some b →
      b = take batchSize (drop (batchSize * k) results)
      ∧ 1 ≤ length b ≤ batchSize
      ∧ (S k < length (make_batches results) → length b = batchSize).
Proof.
  unfold make_batches. split_and!.
  - by rewrite batches_loop_concat.
  - rewrite batches_loop_length. cbn [length]. by rewrite Nat.sub_0_r.
  - intros k b Hb.
    pose proof (lookup_lt_Some _ _ _ Hb) as Hlt.
    rewrite batches_loop_length in Hlt |- *. cbn [length] in Hlt |- *.
    rewrite Nat.sub_0_r in Hlt |- *.
    apply batches_loop_lookup in Hb as [-> Hk]; [|done|by intros ? ?; rewrite lookup_nil].
    split; [done|]. rewrite length_take, length_drop. unfold batchSize in *.
    pose proof (Nat.Div0.mul_div_le (length results + 9) 10) as Hq.
    set (q := (length results + 9) / 10) in *. clearbody q. lia.
Qed.


Lemma fetch_step_owner_new_mail accountId total f ev f' o :
  fetch_step accountId total f ev = (f', o) →
  owner f = OfNewMail →
  owner f' = OfNewMail ∧ (signal o = None ∨ signal o = Some RestartIdle).
Proof.
  intros Hstep Ho. destruct ev as [seq uuid now|i ev|err|]; simpl in Hstep.
  - injection Hstep as <- <-. auto.
  - unfold onMessageEvent in Hstep. destruct (msgs f !! i) as [m|].
    + destruct (msg_step m ev) as [[m' fx] ran]. unfold afterEnd in Hstep.
      simpl in Hstep. rewrite Ho in Hstep.
      destruct ran; injection Hstep as <- <-; auto.
    + injection Hstep as <- <-. auto.
  - unfold onFetchError in Hstep. rewrite Ho in Hstep.
    destruct (fetchErrorOnce f); injection Hstep as <- <-; auto.
  - unfold onFetchEnd in Hstep. rewrite Ho in Hstep.
    destruct (fetchEndOnce f); injection Hstep as <- <-; auto.
Qed.



(** *** The count of processed messages *)
Import Invariants.

Lemma processed_insert f i m m' :
  msgs f !! i = Some m →
  processed (with_msgs (<[i := m']> (msgs f)) f) + (if endOnce m then 0 else 1) =
  processed f + (if endOnce m' then 0 else 1).
Proof.
  unfold processed. simpl. generalize (msgs f) as l. intros l. revert i.
  induction l as [|x l IH]; intros [|i] Hi; simpl in *; try done.
  - injection Hi as ->. rewrite !filter_cons.
    destruct (decide (endOnce m' = false)) as [->|Hm'], (decide (endOnce m = false)) as [->|Hm];
      simpl; try lia.
    + destruct (endOnce m); [lia|done].
    + destruct (endOnce m'); [lia|done].
    + destruct (endOnce m), (endOnce m'); done || lia.
  - rewrite !filter_cons. specialize (IH i Hi).
    destruct (decide (endOnce x = false)); simpl; lia.
Qed.

Lemma processed_onMessage accountId seq uuid now f :
  processed (onMessage accountId seq uuid now f) = processed f.
Proof.
  unfold processed, onMessage. simpl. rewrite filter_app, length_app.
  rewrite filter_cons. simpl. destruct (decide (true = false)); [done|]. simpl. lia.
Qed.

(** One event on the fetch object of a batch: the closure keeps its batch,
    [processedCount] follows the messages processed, and the next batch is
    asked for exactly when [processedCount] reaches the size of the batch. *)
Lemma fetch_step_batch accountId total f ev f' o k b pc :
  fetch_step accountId total f ev = (f', o) →
  owner f = OfBatch k b pc →
  ∃ pc', owner f' = OfBatch k b pc' ∧ pc ≤ pc'
    ∧ processed f' + pc = processed f + pc'
    ∧ (signal o = None ∨ (∃ err, signal o = Some (Reject err))
       ∨ (signal o = Some (NextBatch (k + 1)) ∧ pc' = length b)).
Proof.
  intros Hstep Ho. destruct ev as [seq uuid now|i ev|err|]; simpl in Hstep.
  - injection Hstep as <- <-. exists pc. rewrite processed_onMessage. simpl. auto.
  - unfold onMessageEvent in Hstep. destruct (msgs f !! i) as [m|] eqn:Hi.
    2:{ injection Hstep as <- <-. exists pc. simpl. auto. }
    destruct (msg_step m ev) as [[m' fx] ran] eqn:Hm.
    apply msg_step_emits in Hm as (_ & Hend & Hran & _).
    pose proof (processed_insert f i m m' Hi) as Hp.
    destruct ran.
    + symmetry in Hran. apply andb_true_iff in Hran as [Hev Hm].
      rewrite Hm, Hev in Hend. simpl in Hend. rewrite Hm, Hend in Hp.
      unfold afterEnd in Hstep. simpl in Hstep. rewrite Ho in Hstep.
      case_bool_decide; injection Hstep as <- <-; exists (S pc); simpl;
        (split_and!; [done|lia|unfold processed in *; simpl in *; lia|auto]).
    + injection Hstep as <- <-. exists pc. simpl. split_and!; [done|lia| |auto].
      assert (endOnce m' = endOnce m) as Heq.
      { rewrite Hend. symmetry in Hran. apply andb_false_iff in Hran as [->| ->]; simpl;
          [by rewrite andb_true_r|done]. }
      rewrite Heq in Hp. lia.
  - unfold onFetchError in Hstep. rewrite Ho in Hstep.
    destruct (fetchErrorOnce f); injection Hstep as <- <-; exists pc; simpl;
      (split_and!; [done|lia|done|eauto]).
  - unfold onFetchEnd in Hstep. rewrite Ho in Hstep.
    destruct (fetchEndOnce f); injection Hstep as <- <-; exists pc; simpl;
      (split_and!; [done|lia|done|eauto]).
Qed.

End BatcherFacts.

(** ** The service *)
Section ServiceFacts.
Context `{!Libraries}.
Import Normalizer Batcher Service.

Lemma lookup_modify c f st : heap (modify c f st) !! c = f <$> heap st !! c.
Proof. apply list_lookup_alter_eq. Qed.


(** *** Changes that leave every initial sync alone *)
Import Invariants.

(** An update that keeps the fields [evolves] speaks of. *)
Ltac neutral := split_and!; try done; exists []; by rewrite app_nil_r.

Lemma evolves_refl i : evolves i i.
Proof. neutral. Qed.

Lemma evolves_trans i1 i2 i3 : evolves i1 i2 → evolves i2 i3 → evolves i1 i3.
Proof.
  intros (Hc & Hb & Hp & Hr & extra & Hf & Hx) (Hc' & Hb' & Hp' & Hr' & extra' & Hf' & Hx').
  split_and!; try congruence; [auto|].
  exists (extra ++ extra'). rewrite Hf', Hf, app_assoc. split; [done|].
  by apply Forall_app.
Qed.

Lemma evolves_inv i i' : imap_inv i → evolves i i' → imap_inv i'.
Proof.
  intros [Hfresh Hnb Hbs Hb Ho] (Hc & Hbat & Hp & Hr & extra & Hf & Hx).
  rewrite Forall_forall in Hx.
  assert (Hold : ∀ n f k b pc, fetches i' !! n = Some f → owner f = OfBatch k b pc →
                               fetches i !! n = Some f).
  { intros n f k b pc Hn Hown. rewrite Hf in Hn.
    apply lookup_app_Some in Hn as [Hn|[_ Hn]]; [done|].
    apply list_elem_of_lookup_2, Hx in Hn. congruence. }
  split.
  - intros H1. rewrite Hp. auto.
  - rewrite Hp, Hf. intros Hph f [Hin|Hin]%elem_of_app; auto.
  - rewrite Hp, Hbat. auto.
  - intros n f k b pc Hn Hown. rewrite Hbat. eapply Hb; [|done]. eauto.
  - intros n f k b pc Hn Hown.
    destruct (Ho n f k b pc) as (n' & f' & b' & pc' & Hlt & Hn' & Hrest); [eauto|done|].
    exists n', f', b', pc'. rewrite Hbat, Hf. split; [done|].
    split; [by apply lookup_app_l_Some|done].
Qed.

#[local] Instance state_evolves_preorder : PreOrder state_evolves.
Proof.
  split.
  - intros st. split; [done|]. intros c. destruct (heap st !! c) as [i|] eqn:Hc; [|done].
    exists i. split; [done|]. apply evolves_refl.
  - intros st1 st2 st3 [He H12] [He' H23]. split; [congruence|]. intros c.
    specialize (H12 c). specialize (H23 c).
    destruct (heap st1 !! c) as [i1|].
    + destruct H12 as (i2 & Hi2 & H12). rewrite Hi2 in H23.
      destruct H23 as (i3 & Hi3 & H23). exists i3. split; [done|].
      by eapply evolves_trans.
    + intros i3 Hi3. destruct (heap st2 !! c) as [i2|].
      * destruct H23 as (i3' & Hi3' & H23). rewrite Hi3 in Hi3'. injection Hi3' as <-.
        eapply evolves_inv; [|done]. by apply H12.
      * by apply H23.
Qed.

Lemma state_evolves_Inv st st' : Inv st → state_evolves st st' → Inv st'.
Proof.
  intros HI [_ Hev] c i' Hc. specialize (Hev c).
  destruct (heap st !! c) as [i|] eqn:Hi.
  - destruct Hev as (i'' & Hi'' & Hev). rewrite Hc in Hi''. injection Hi'' as <-.
    eapply evolves_inv; [|done]. by eapply HI.
  - by apply Hev.
Qed.

(** A state whose heap differs by one update of one object. *)
Lemma state_evolves_alter st st' c g :
  emails st' = emails st →
  heap st' = alter g c (heap st) →
  (∀ i, evolves i (g i)) →
  state_evolves st st'.
Proof.
  intros He Hh Hg. split; [done|]. intros c'. rewrite Hh.
  destruct (decide (c = c')) as [<-|Hne].
  - rewrite list_lookup_alter_eq. destruct (heap st !! c) as [i|]; simpl; [|done].
    eauto.
  - rewrite list_lookup_alter_ne by done. destruct (heap st !! c') as [i|]; [|done].
    exists i. split; [done|]. apply evolves_refl.
Qed.

Lemma state_evolves_same st st' :
  emails st' = emails st → heap st' = heap st → state_evolves st st'.
Proof.
  intros He Hh. apply (state_evolves_alter st st' 0 id); [done| |apply evolves_refl].
  rewrite Hh. symmetry. by apply list_alter_id.
Qed.

Lemma evolves_call c i : evolves i (call c i).
Proof. neutral. Qed.

Lemma evolves_add_mail_listener i : evolves i (add_mail_listener i).
Proof. neutral. Qed.

Lemma evolves_set_promise p i : evolves i (set_promise p i).
Proof. neutral. Qed.

Lemma evolves_set_box b i : evolves i (set_box b i).
Proof. neutral. Qed.

Lemma evolves_set_throwing b i : evolves i (set_throwing b i).
Proof. neutral. Qed.

Lemma evolves_clear_onReady i : evolves i (clear_onReady i).
Proof. neutral. Qed.

Lemma evolves_clear_onError i : evolves i (clear_onError i).
Proof. neutral. Qed.

Lemma evolves_clear_onEnd i : evolves i (clear_onEnd i).
Proof. neutral. Qed.

Lemma evolves_new_mail_fetch i :
  evolves i (set_fetches (fetches i ++ [new_fetch OfNewMail]) i).
Proof. split_and!; try done. exists [new_fetch OfNewMail]. split; [done|]. by constructor. Qed.

Lemma modify_evolves c g st : (∀ i, evolves i (g i)) → state_evolves st (modify c g st).
Proof. intros. by apply (state_evolves_alter _ _ c g). Qed.

Lemma restartIdle_evolves accountId imap st :
  state_evolves st (restartIdle accountId imap st).
Proof.
  unfold restartIdle. destruct (active accountId st); [|done].
  destruct (thrown imap st); [by apply state_evolves_same|].
  by apply (state_evolves_alter _ _ imap (call CmdIdle)); [..|apply evolves_call].
Qed.

Lemma startIdleMode_evolves accountId imap st :
  state_evolves st (startIdleMode accountId imap st).
Proof.
  unfold startIdleMode. etrans; [|apply restartIdle_evolves].
  by apply (state_evolves_alter _ _ imap add_mail_listener);
    [..|apply evolves_add_mail_listener].
Qed.

Lemma onWatchdog_evolves accountId imap st :
  state_evolves st (onWatchdog accountId imap st).
Proof.
  unfold onWatchdog. destruct (thrown imap _); [by apply state_evolves_same|].
  etrans; [|apply restartIdle_evolves].
  by apply (state_evolves_alter _ _ imap (call CmdIdleStop)); [..|apply evolves_call].
Qed.

Lemma fetchNewEmails_evolves accountId imap n st :
  state_evolves st (fetchNewEmails accountId imap n st).
Proof.
  unfold fetchNewEmails. destruct (thrown imap st).
  { etrans; [|apply startIdleMode_evolves]. by apply state_evolves_same. }
  destruct (_ ≫= box) as [total|].
  - etrans; [apply (modify_evolves imap (call CmdIdleStop)), evolves_call|].
    etrans; [apply (modify_evolves imap (call (CmdSeqFetch (range_text (total - n + 1) total)))),
             evolves_call|].
    apply modify_evolves, evolves_new_mail_fetch.
  - etrans; [|apply startIdleMode_evolves].
    by apply (state_evolves_alter _ _ imap (call CmdIdleStop)); [..|apply evolves_call].
Qed.

Lemma onMail_evolves imap n st : state_evolves st (onMail imap n st).
Proof.
  unfold onMail. destruct (heap st !! imap) as [i|]; [|done].
  induction (mailListeners i) as [|k IH]; simpl; [done|].
  etrans; [apply IH|]. etrans; [|apply fetchNewEmails_evolves].
  by apply state_evolves_same.
Qed.

Lemma resolve_evolves accountId imap st : state_evolves st (resolve accountId imap st).
Proof.
  unfold resolve. destruct (heap st !! imap) as [i|]; [|done].
  destruct (promise i); try done.
  etrans; [|apply startIdleMode_evolves].
  apply modify_evolves, evolves_set_promise.
Qed.

Lemma reject_evolves accountId imap err st :
  state_evolves st (reject accountId imap err st).
Proof.
  unfold reject. destruct (heap st !! imap) as [i|]; [|done].
  destruct (promise i); try done.
  by apply (state_evolves_alter _ _ imap (set_promise (Rejected err)));
    [..|apply evolves_set_promise].
Qed.

Lemma cleanupConnection_heap accountId st :
  heap (cleanupConnection accountId st) = heap st.
Proof. unfold cleanupConnection. simpl. by destruct (_ !! _). Qed.

Lemma cleanupConnection_emails accountId st :
  emails (cleanupConnection accountId st) = emails st.
Proof. unfold cleanupConnection. simpl. by destruct (_ !! _). Qed.

Lemma cleanupConnection_evolves accountId st :
  state_evolves st (cleanupConnection accountId st).
Proof.
  apply state_evolves_same; [apply cleanupConnection_emails|apply cleanupConnection_heap].
Qed.

Lemma onImapError_evolves accountId err st :
  state_evolves st (onImapError accountId err st).
Proof.
  unfold onImapError. apply state_evolves_same; simpl;
    by rewrite ?cleanupConnection_emails, ?cleanupConnection_heap.
Qed.

Lemma onImapEnd_evolves accountId st : state_evolves st (onImapEnd accountId st).
Proof.
  unfold onImapEnd.
  destruct (active _ _); [destruct (find_config _ _)|];
    apply state_evolves_same; simpl;
    by rewrite ?cleanupConnection_emails, ?cleanupConnection_heap.
Qed.

Lemma new_imap_inv cfg : imap_inv (call CmdConnect (new_imap cfg)).
Proof.
  split; simpl; try done.
  all: try by intros _ f ?%elem_of_nil.
  all: intros n f k b pc; by rewrite lookup_nil.
Qed.

Lemma connectAccount_evolves cfg st : state_evolves st (connectAccount cfg st).
Proof.
  unfold connectAccount. split; [done|]. intros c. simpl.
  destruct (heap st !! c) as [i|] eqn:Hc.
  - exists i. split; [|apply evolves_refl].
    pose proof (lookup_lt_Some _ _ _ Hc).
    rewrite list_lookup_alter_ne by lia. by apply lookup_app_l_Some.
  - intros i' Hi'. apply lookup_ge_None in Hc.
    destruct (decide (c = length (heap st))) as [->|Hne].
    + rewrite list_lookup_alter_eq, lookup_app_r, Nat.sub_diag in Hi' by done.
      injection Hi' as <-. apply new_imap_inv.
    + rewrite list_lookup_alter_ne in Hi' by done.
      apply lookup_lt_Some in Hi'. rewrite length_app in Hi'. simpl in Hi'. lia.
Qed.

Lemma startSync_evolves st : state_evolves st (startSync st).
Proof.
  unfold startSync. generalize (accountConfigs st) as cfgs. intros cfgs.
  revert st. induction cfgs as [|cfg cfgs IH]; intros st; simpl; [done|].
  etrans; [apply (connectAccount_evolves cfg)|]. apply IH.
Qed.

Lemma stopAccount_evolves st entry : state_evolves st (stopAccount st entry).
Proof.
  destruct entry as [accountId imap]. unfold stopAccount.
  set (st1 := match watchdogTimers _ !! accountId with Some _ => _ | None => _ end).
  assert (H1 : heap st1 = heap st ∧ emails st1 = emails st).
  { unfold st1. simpl. by destruct (_ !! _). }
  destruct H1 as [Hh He].
  destruct (thrown imap st1).
  - by apply state_evolves_same.
  - apply (state_evolves_alter _ _ imap (call CmdEnd)); [done| |apply evolves_call].
    simpl. by rewrite Hh.
Qed.

Lemma stopSync_evolves st : state_evolves st (stopSync st).
Proof.
  unfold stopSync.
  assert (H1 : ∀ entries st, state_evolves st (foldl stopAccount st entries)).
  { induction entries as [|e entries IH]; intros st'; simpl; [done|].
    etrans; [apply (stopAccount_evolves st' e)|]. apply IH. }
  etrans; [apply (H1 (accounts st) st)|]. by apply state_evolves_same.
Qed.

Lemma onTimer_evolves t st : state_evolves st (onTimer t st).
Proof.
  unfold onTimer. destruct (timers st !! t) as [tm|]; [|done].
  destruct (action tm) as [accountId|cfg|accountId imap].
  - destruct (find_config _ _); [|by apply state_evolves_same].
    etrans; [|apply connectAccount_evolves]. by apply state_evolves_same.
  - etrans; [|apply connectAccount_evolves]. by apply state_evolves_same.
  - etrans; [|apply onWatchdog_evolves]. by apply state_evolves_same.
Qed.

(** *** The initial sync keeps the invariant *)

Lemma Inv_alter st st' c g :
  Inv st →
  heap st' = alter g c (heap st) →
  (∀ i, heap st !! c = Some i → imap_inv i → imap_inv (g i)) →
  Inv st'.
Proof.
  intros HI Hh Hg c' i' Hc'. rewrite Hh in Hc'.
  destruct (decide (c = c')) as [<-|Hne].
  - rewrite list_lookup_alter_eq in Hc'.
    destruct (heap st !! c) as [i|] eqn:Hc; [|done].
    injection Hc' as <-. apply Hg; [done|]. by eapply HI.
  - rewrite list_lookup_alter_ne in Hc' by done. by eapply HI.
Qed.

Lemma imap_inv_not_fresh i : imap_inv i → phase i ≠ PNone → onReady i = false.
Proof.
  intros [Hfresh _ _ _ _] Hp. destruct (onReady i); [|done]. by destruct Hp; apply Hfresh.
Qed.

(** Leaving a phase other than [PBatches]. *)
Lemma imap_inv_set_phase g p i :
  imap_inv i →
  phase i ≠ PBatches →
  evolves i (g i) →
  (p ≠ PNone → onReady (g i) = false) →
  (p = PBatches → ∃ results, results ≠ [] ∧ batches (g i) = make_batches results) →
  imap_inv (set_phase p (g i)).
Proof.
  intros Hinv Hph Hev Hr Hb.
  pose proof (evolves_inv _ _ Hinv Hev) as [Hfresh Hnb Hbs Hbatch Hord].
  destruct Hev as (_ & _ & Hp & _).
  assert (Hall : ∀ f, f ∈ fetches (g i) → owner f = OfNewMail).
  { apply Hnb. by rewrite Hp. }
  split; simpl.
  - intros Hon. destruct p; try done; rewrite Hr in Hon; done.
  - auto.
  - done.
  - intros n f k b pc Hn Ho. apply list_elem_of_lookup_2, Hall in Hn. congruence.
  - intros n f k b pc Hn Ho. apply list_elem_of_lookup_2, Hall in Hn. congruence.
Qed.

Lemma initialSync_Inv accountId imap st :
  Inv st →
  (∀ i, heap st !! imap = Some i → phase i = PNone ∧ onReady i = false) →
  Inv (initialSync accountId imap st).
Proof.
  intros HI Hpre. unfold initialSync. destruct (thrown imap st).
  - eapply state_evolves_Inv; [done|]. etrans; [|apply reject_evolves].
    by apply state_evolves_same.
  - apply (Inv_alter st _ imap (λ i, set_phase POpenBox (call CmdOpenBox i))); [done| |].
    + simpl. by rewrite list_alter_alter_eq.
    + intros i Hi Hinv. destruct (Hpre i Hi) as [Hp Hr].
      apply (imap_inv_set_phase (call CmdOpenBox)); try done.
      * by rewrite Hp.
      * apply evolves_call.
Qed.

Lemma onImapReady_Inv imap i st :
  Inv st → heap st !! imap = Some i → onReady i = true →
  Inv (onImapReady (user (config i)) imap (modify imap clear_onReady st)).
Proof.
  intros HI Hi Hready. unfold onImapReady. apply initialSync_Inv.
  - eapply state_evolves_Inv; [done|]. etrans; [apply (modify_evolves imap clear_onReady)|].
    + apply evolves_clear_onReady.
    + by apply state_evolves_same.
  - intros i'. simpl. rewrite list_lookup_alter_eq, Hi. simpl. intros [= <-]. simpl.
    split; [|done]. by apply (HI imap i).
Qed.

Lemma onOpenBox_Inv accountId imap res st :
  Inv st →
  (∀ i, heap st !! imap = Some i → phase i = POpenBox) →
  Inv (onOpenBox accountId imap res st).
Proof.
  intros HI Hpre. unfold onOpenBox. destruct res as [err|total].
  - eapply state_evolves_Inv; [|apply reject_evolves].
    apply (Inv_alter st _ imap (λ i, set_phase PNone (id i))); [done|done|].
    intros i Hi Hinv. apply (imap_inv_set_phase id); try done.
    + by rewrite (Hpre i Hi).
    + apply evolves_refl.
  - destruct (thrown imap _).
    + apply (Inv_alter st _ imap (λ i, set_phase PNone (set_box (Some total) i))); [done| |].
      * simpl. by rewrite list_alter_alter_eq.
      * intros i Hi Hinv. apply (imap_inv_set_phase (set_box (Some total))); try done.
        -- by rewrite (Hpre i Hi).
        -- apply evolves_set_box.
    + apply (Inv_alter st _ imap
               (λ i, set_phase PSearch (call CmdSearch (set_box (Some total) i)))); [done| |].
      * simpl. rewrite !list_alter_alter_eq. done.
      * intros i Hi Hinv.
        apply (imap_inv_set_phase (λ i, call CmdSearch (set_box (Some total) i))); try done.
        -- by rewrite (Hpre i Hi).
        -- eapply evolves_trans; [apply evolves_set_box|apply evolves_call].
        -- intros _. simpl. apply imap_inv_not_fresh; [done|]. by rewrite (Hpre i Hi).
Qed.

Lemma processBatch_Inv accountId imap k st :
  Inv st →
  (∀ i, heap st !! imap = Some i →
     phase i = PBatches
     ∧ match k with
       | 0 => True
       | S k' => ∃ n' f' b' pc',
           fetches i !! n' = Some f' ∧ owner f' = OfBatch k' b' pc'
           ∧ batches i !! k' = Some b' ∧ length b' ≤ pc' ∧ pc' = processed f'
       end) →
  Inv (processBatch accountId imap k st).
Proof.
  intros HI Hpre. unfold processBatch.
  destruct (heap st !! imap) as [i|] eqn:Hi; [|done].
  destruct (batches i !! k) as [batch|] eqn:Hk.
  2:{ eapply state_evolves_Inv; [done|apply resolve_evolves]. }
  destruct (throwing i); [done|].
  apply (Inv_alter st _ imap
           (λ i, set_fetches (fetches (call (CmdFetch batch) i)
                              ++ [new_fetch (OfBatch k batch 0)]) (call (CmdFetch batch) i)));
    [done| |].
  { simpl. by rewrite list_alter_alter_eq. }
  intros i' Hi' [Hfresh Hnb Hbs Hbatch Hord]. rewrite Hi in Hi'. injection Hi' as <-.
  destruct (Hpre i eq_refl) as [Hph Hprev].
  split; simpl.
  - done.
  - by rewrite Hph.
  - done.
  - intros n f k0 b pc [Hn|[Hn Hf]]%lookup_app_Some Ho; [by eapply Hbatch|].
    apply list_lookup_singleton_Some in Hf as [_ <-]. simpl in Ho.
    by injection Ho as <- <- <-.
  - intros n f k0 b pc [Hn|[Hn Hf]]%lookup_app_Some Ho.
    + destruct (Hord n f k0 b pc Hn Ho) as (n' & f' & b' & pc' & Hlt & Hn' & Hrest).
      exists n', f', b', pc'. split; [done|]. split; [by apply lookup_app_l_Some|done].
    + apply list_lookup_singleton_Some in Hf as [_ <-]. simpl in Ho.
      injection Ho as -> <- <-.
      destruct Hprev as (n' & f' & b' & pc' & Hn' & Hrest).
      exists n', f', b', pc'. pose proof (lookup_lt_Some _ _ _ Hn').
      split; [lia|]. split; [by apply lookup_app_l_Some|done].
Qed.

Lemma onSearch_Inv accountId imap res st :
  Inv st →
  (∀ i, heap st !! imap = Some i → phase i = PSearch) →
  Inv (onSearch accountId imap res st).
Proof.
  intros HI Hpre. unfold onSearch. destruct res as [err|results].
  - eapply state_evolves_Inv; [|apply reject_evolves].
    apply (Inv_alter st _ imap (λ i, set_phase PNone (id i))); [done|done|].
    intros i Hi Hinv. apply (imap_inv_set_phase id); try done.
    + by rewrite (Hpre i Hi).
    + apply evolves_refl.
  - case_bool_decide as Hlen.
    + eapply state_evolves_Inv; [|apply resolve_evolves].
      apply (Inv_alter st _ imap (λ i, set_phase PNone (id i))); [done|done|].
      intros i Hi Hinv. apply (imap_inv_set_phase id); try done.
      * by rewrite (Hpre i Hi).
      * apply evolves_refl.
    + apply processBatch_Inv.
      * apply (Inv_alter st _ imap
                 (λ i, set_phase PBatches (set_batches (make_batches results) i))); [done| |].
        { simpl. by rewrite list_alter_alter_eq. }
        intros i Hi [Hfresh Hnb Hbs Hbatch Hord].
        assert (Hall : ∀ f, f ∈ fetches i → owner f = OfNewMail).
        { apply Hnb. by rewrite (Hpre i Hi). }
        split; simpl.
        -- intros Hr. apply Hfresh in Hr. rewrite (Hpre i Hi) in Hr. done.
        -- done.
        -- intros _. exists results. split; [|done]. by intros ->.
        -- intros n f k b pc Hn Ho. apply list_elem_of_lookup_2, Hall in Hn. congruence.
        -- intros n f k b pc Hn Ho. apply list_elem_of_lookup_2, Hall in Hn. congruence.
      * intros i. simpl. rewrite list_alter_alter_eq, list_lookup_alter_eq.
        destruct (heap st !! imap); simpl; [|done]. by intros [= <-].
Qed.

Lemma apply_effects_heap st fx : heap (foldl apply_effect st fx) = heap st.
Proof.
  revert st. induction fx as [|e fx IH]; intros st; simpl; [done|].
  rewrite IH. by destruct e.
Qed.

Lemma apply_effects_emails st fx :
  emails (foldl apply_effect st fx) = emails st ++ emitted fx.
Proof.
  revert st. induction fx as [|e fx IH]; intros st; simpl.
  - by rewrite app_nil_r.
  - rewrite IH. destruct e; simpl; [done|].
    unfold emitted. simpl. by rewrite <- app_assoc.
Qed.

(** Replacing a fetch object by its successor. *)
Lemma imap_inv_update_fetch i f fetch fetch' :
  imap_inv i →
  fetches i !! f = Some fetch →
  (owner fetch = OfNewMail ∧ owner fetch' = OfNewMail)
  ∨ (∃ k b pc pc', owner fetch = OfBatch k b pc ∧ owner fetch' = OfBatch k b pc'
                   ∧ pc ≤ pc' ∧ pc' = processed fetch') →
  imap_inv (set_fetches (<[f := fetch']> (fetches i)) i).
Proof.
  intros [Hfresh Hnb Hbs Hbatch Hord] Hf Hown.
  pose proof (lookup_lt_Some _ _ _ Hf) as Hlt.
  split; simpl; [done| |done| |].
  - intros Hph x [n Hn]%list_elem_of_lookup.
    apply list_lookup_insert_Some in Hn as [(-> & <- & _)|[Hne Hn]].
    + destruct Hown as [[_ Ho]|(k & b & pc & pc' & Ho & _)]; [done|].
      apply list_elem_of_lookup_2, (Hnb Hph) in Hf. congruence.
    + eapply Hnb; [done|]. by eapply list_elem_of_lookup_2.
  - intros n x k b pc Hn Ho.
    apply list_lookup_insert_Some in Hn as [(-> & <- & _)|[Hne Hn]]; [|by eapply Hbatch].
    destruct Hown as [[_ Ho']|(k' & b' & pc0 & pc' & Ho0 & Ho' & Hle & Hpc)]; [congruence|].
    rewrite Ho in Ho'. injection Ho' as -> -> ->.
    destruct (Hbatch _ _ _ _ _ Hf Ho0) as [Hb _]. done.
  - intros n x k b pc Hn Ho.
    assert (∃ x0 pc0, fetches i !! n = Some x0 ∧ owner x0 = OfBatch (S k) b pc0)
      as (x0 & pc0 & Hn0 & Ho0).
    { apply list_lookup_insert_Some in Hn as [(-> & <- & _)|[Hne Hn]]; [|eauto].
      destruct Hown as [[_ Ho']|(k' & b' & pc0 & pc' & Ho0 & Ho' & Hle & Hpc)]; [congruence|].
      rewrite Ho in Ho'. injection Ho' as -> -> ->. eauto. }
    destruct (Hord _ _ _ _ _ Hn0 Ho0) as (n' & f' & b' & pc' & Hlt' & Hn' & Ho' & Hb' & Hle' & Hpc').
    destruct (decide (n' = f)) as [->|Hne].
    + rewrite Hf in Hn'. injection Hn' as <-.
      destruct Hown as [[Ho1 _]|(k1 & b1 & pc1 & pc1' & Ho1 & Ho1' & Hle1 & Hpc1)]; [congruence|].
      rewrite Ho' in Ho1. injection Ho1 as <- <- <-.
      exists f, fetch', b', pc1'. split; [done|].
      split; [by apply list_lookup_insert_eq|]. split_and!; try done. lia.
    + exists n', f', b', pc'. split; [done|].
      split; [by rewrite list_lookup_insert_ne|done].
Qed.

Lemma onFetchEvent_Inv imap f ev st : Inv st → Inv (onFetchEvent imap f ev st).
Proof.
  intros HI. unfold onFetchEvent.
  destruct (heap st !! imap) as [i|] eqn:Hi; [|done].
  destruct (fetches i !! f) as [fetch|] eqn:Hf; [|done].
  destruct (fetch_step _ _ fetch ev) as [fetch' out] eqn:Hstep.
  pose proof (HI imap i Hi) as Hinv.
  set (st1 := modify imap (λ i, set_fetches (<[f := fetch']> (fetches i)) i) st).
  set (st2 := foldl apply_effect st1 (effects out)).
  assert (Hh2 : heap st2 = heap st1) by apply apply_effects_heap.
  assert (Hown : (owner fetch = OfNewMail ∧ owner fetch' = OfNewMail
                  ∧ (signal out = None ∨ signal out = Some RestartIdle))
                 ∨ (∃ k b pc pc', owner fetch = OfBatch k b pc ∧ owner fetch' = OfBatch k b pc'
                      ∧ pc ≤ pc' ∧ pc' = processed fetch'
                      ∧ batches i !! k = Some b
                      ∧ (signal out = None ∨ (∃ err, signal out = Some (Reject err))
                         ∨ (signal out = Some (NextBatch (S k)) ∧ pc' = length b)))).
  { destruct (owner fetch) as [k b pc|] eqn:Ho.
    - right. destruct (fetch_step_batch _ _ _ _ _ _ _ _ _ Hstep Ho) as (pc' & Ho' & Hle & Hp & Hs).
      destruct (inv_batch i Hinv _ _ _ _ _ Hf Ho) as [Hb Hpc].
      exists k, b, pc, pc'. rewrite Nat.add_1_r in Hs. split_and!; try done. lia.
    - left. destruct (fetch_step_owner_new_mail _ _ _ _ _ _ Hstep Ho) as [Ho' Hs]. done. }
  assert (HI1 : Inv st1).
  { apply (Inv_alter st _ imap (λ i, set_fetches (<[f := fetch']> (fetches i)) i)); [done..|].
    intros i0 Hi0 _. rewrite Hi in Hi0. injection Hi0 as <-.
    apply (imap_inv_update_fetch i f fetch fetch'); [done..|].
    destruct Hown as [(? & ? & _)|(k & b & pc & pc' & ? & ? & ? & ? & _)]; [by left|].
    right. by exists k, b, pc, pc'. }
  assert (HI2 : Inv st2).
  { intros c i0. rewrite Hh2. apply HI1. }
  assert (Hi2 : heap st2 !! imap = Some (set_fetches (<[f := fetch']> (fetches i)) i)).
  { rewrite Hh2. unfold st1. by rewrite lookup_modify, Hi. }
  destruct Hown as [(_ & _ & [-> | ->])
                   |(k & b & pc & pc' & Ho & Ho' & Hle & Hpc & Hb & [-> |[[err ->]|[-> Hlen]]])];
    try done.
  - eapply state_evolves_Inv; [done|apply startIdleMode_evolves].
  - eapply state_evolves_Inv; [done|apply reject_evolves].
  - apply processBatch_Inv; [done|]. intros i2. rewrite Hi2. intros [= <-]. simpl.
    split.
    + destruct (phase i) eqn:Hph; try done;
        apply list_elem_of_lookup_2 in Hf;
        apply (inv_no_batch i Hinv) in Hf; congruence.
    + exists f, fetch', b, pc'. pose proof (lookup_lt_Some _ _ _ Hf).
      split; [by apply list_lookup_insert_eq|]. split_and!; try done. lia.
Qed.

(** Every event keeps the invariant. *)
Lemma step_Inv st ev : Inv st → Inv (step st ev).
Proof.
  intros HI. destruct ev as [| |imap|imap err|imap|imap n|imap res|imap res|imap f ev|t|imap b
                            |imap e]; simpl.
  - eapply state_evolves_Inv; [done|apply startSync_evolves].
  - eapply state_evolves_Inv; [done|apply stopSync_evolves].
  - destruct (heap st !! imap) as [i|] eqn:Hi; [|done].
    destruct (onReady i) eqn:Hr; [|done]. by apply onImapReady_Inv.
  - destruct (heap st !! imap) as [i|] eqn:Hi; [|done].
    destruct (onError i); [|done].
    eapply state_evolves_Inv; [done|]. etrans; [|apply onImapError_evolves].
    apply modify_evolves, evolves_clear_onError.
  - destruct (heap st !! imap) as [i|] eqn:Hi; [|done].
    destruct (onEnd i); [|done].
    eapply state_evolves_Inv; [done|]. etrans; [|apply onImapEnd_evolves].
    apply modify_evolves, evolves_clear_onEnd.
  - eapply state_evolves_Inv; [done|apply onMail_evolves].
  - destruct (heap st !! imap) as [i|] eqn:Hi; [|done].
    destruct (phase i) eqn:Hp; try done.
    apply onOpenBox_Inv; [done|]. intros i'. rewrite Hi. by intros [= <-].
  - destruct (heap st !! imap) as [i|] eqn:Hi; [|done].
    destruct (phase i) eqn:Hp; try done.
    apply onSearch_Inv; [done|]. intros i'. rewrite Hi. by intros [= <-].
  - by apply onFetchEvent_Inv.
  - eapply state_evolves_Inv; [done|apply onTimer_evolves].
  - eapply state_evolves_Inv; [done|]. apply modify_evolves, evolves_set_box.
  - eapply state_evolves_Inv; [done|]. apply modify_evolves, evolves_set_throwing.
Qed.

Lemma run_Inv st evs : Inv st → Inv (run st evs).
Proof.
  revert st. induction evs as [|ev evs IH]; intros st HI; simpl; [done|].
  apply IH. by apply step_Inv.
Qed.

Lemma reachable_Inv st : reachable st → Inv st.
Proof.
  intros (configs & evs & ->). apply run_Inv.
  intros c i. unfold new_service. case_bool_decide; simpl; by rewrite lookup_nil.
Qed.

(** *** Claims about the initial sync and the fetch of new mail *)

Lemma make_batches_first results :
  results ≠ [] → ∃ b0, make_batches results !! 0 = Some b0.
Proof.
  intros Hne. apply lookup_lt_is_Some.
  destruct (make_batches_partition results) as (_ & -> & _).
  destruct results as [|x results]; [done|]. simpl length.
  pose proof (Nat.Div0.div_le_mono 10 (S (length results) + 9) 10) as Hdiv.
  rewrite Nat.div_same in Hdiv by lia. lia.
Qed.





End ServiceFacts.

(** ** Runs on concrete inputs *)
Section Runs.
Import Normalizer Batcher Service Invariants Fixture.
#[local] Existing Instance Fixture.libs.

Lemma emitted_iff_subject_and_body_at_end_witness :
  let pre := plain_message "hello" "see you at 10" 42 in
  let m := new_msg "alice@example.com" 11%Z "0b5c" 4%Z in
  existsb is_end pre = false
  ∧ (emitted (msg_run m (pre ++ [End])).2 = [email (msg_run m pre).1]
     ↔ ∃ s b, Email.subject (email (msg_run m pre).1) = Some s ∧ s ≠ ""
              ∧ Email.body (email (msg_run m pre).1) = Some b ∧ b ≠ "")
  ∧ emitted (msg_run m (pre ++ [End])).2 = [email (msg_run m pre).1]
  ∧ Email.body (email (msg_run m pre).1) = Some "see you at 10".
Proof.
  intros pre m.
  assert (Hpre : existsb is_end pre = false) by reflexivity.
  pose proof (emitted_iff_subject_and_body_at_end "alice@example.com" 11%Z "0b5c" 4%Z
                pre [] Hpre)
    as (_ & Hiff & _).
  split_and!; [exact Hpre|exact Hiff| |reflexivity].
  apply Hiff. exists "hello", "see you at 10". by vm_compute.
Defined.

Lemma missing_subject_gets_placeholder_witness :
  let mid := [BodyEnd "TEXT" ["call me"] 6%Z; ParseSettled 0;
              Attributes {| uid := 7; flags := None |}] in
  let evs := [] ++ BodyEnd header_part ["From: bob@example.com"] 5%Z :: mid ++ End :: [] in
  String.prefix "HEADER" header_part = true
  ∧ parseHeader (buffer_of ["From: bob@example.com"]) !! "subject" = None
  ∧ existsb is_end ([] ++ mid) = false
  ∧ existsb is_header_end mid = false
  ∧ (∀ e, e ∈ emitted (msg_run (new_msg "alice@example.com" 3%Z "77aa" 4%Z) evs).2 →
          Email.subject e = Some "(No Subject)")
  ∧ Email.subject <$> emitted (msg_run (new_msg "alice@example.com" 3%Z "77aa" 4%Z) evs).2
    = [Some "(No Subject)"].
Proof.
  intros mid evs.
  assert (H1 : String.prefix "HEADER" header_part = true) by reflexivity.
  assert (H2 : parseHeader (buffer_of ["From: bob@example.com"]) !! "subject" = None)
    by reflexivity.
  assert (H3 : existsb is_end ([] ++ mid) = false) by reflexivity.
  assert (H4 : existsb is_header_end mid = false) by reflexivity.
  split_and!; try done.
  exact (proj2 (missing_subject_gets_placeholder "alice@example.com" 3%Z "77aa" 4%Z
                  [] header_part ["From: bob@example.com"] 5%Z mid [] H1 H2 H3 H4)).
Defined.

Lemma identifier_is_account_dash_uid_witness :
  let first := plain_message "hello" "see you at 10" 42 ++ [End] in
  let again := [Attributes {| uid := 42; flags := None |};
                BodyEnd "TEXT" ["see you at 10"] 900%Z;
                BodyEnd header_part ["Subject: hello"] 901%Z; ParseSettled 0; End] in
  let e1 := emitted (msg_run (new_msg "alice@example.com" 11%Z "0b5c" 4%Z) first).2 in
  let e2 := emitted (msg_run (new_msg "alice@example.com" 3%Z "f00d" 800%Z) again).2 in
  attrs_before_end first = Some {| uid := 42; flags := Some ["\Seen"] |}
  ∧ attrs_before_end again = Some {| uid := 42; flags := None |}
  ∧ Email.id <$> e1 = ["alice@example.com-42"]
  ∧ Email.id <$> e2 = ["alice@example.com-42"]
  ∧ ∀ x1 x2, x1 ∈ e1 → x2 ∈ e2 → Email.id x1 = Email.id x2.
Proof.
  intros first again e1 e2.
  assert (H1 : attrs_before_end first = Some {| uid := 42; flags := Some ["\Seen"] |})
    by reflexivity.
  assert (H2 : attrs_before_end again = Some {| uid := 42; flags := None |})
    by reflexivity.
  split_and!; [done|done|by vm_compute|by vm_compute|].
  intros x1 x2 Hx1 Hx2.
  by apply (proj2 (identifier_is_account_dash_uid "alice@example.com")
              11%Z "0b5c" 4%Z first _ x1 3%Z "f00d" 800%Z again _ x2 H1 H2 Hx1 Hx2).
Defined.





(** C8 (a defect of the code).  The guard of [onImapEnd] reads the flag
    that [cleanupConnection] has just set to [false], so the ['end'] handler
    never schedules a reconnection: it adds no timeout, whatever the state.
    On the idling connection of [alice], whose flag is [true] and on which
    [stopSync] was never called, an ['end'] event leaves no timeout
    pending. *)
Theorem end_event_never_schedules_reconnect :
  (∀ st accountId, active accountId (cleanupConnection accountId st) = false)
  ∧ (∀ st accountId,
       nextTimer (onImapEnd accountId st) = nextTimer st
       ∧ heap (onImapEnd accountId st) = heap st
       ∧ ∀ t tm, timers (onImapEnd accountId st) !! t = Some tm → timers st !! t = Some tm)
  ∧ connectionsActive idling !! "alice@example.com" = Some true
  ∧ map_to_list (timers idling) = [(0, watchdog)]
  ∧ map_to_list (timers (run idling [EvEnd 0])) = []
  ∧ nextTimer (run idling [EvEnd 0]) = nextTimer idling
  ∧ commands <$> heap (run idling [EvEnd 0]) = [[CmdConnect; CmdOpenBox; CmdSearch; CmdIdle]].
Proof.
  assert (Hguard : ∀ st accountId, active accountId (cleanupConnection accountId st) = false).
  { intros st accountId. unfold active, cleanupConnection. simpl.
    destruct (watchdogTimers st !! accountId); simpl; by rewrite lookup_insert_eq. }
  split_and!; [done| |by vm_compute..].
  intros st accountId. unfold onImapEnd. rewrite Hguard.
  unfold cleanupConnection. simpl.
  destruct (watchdogTimers st !! accountId) as [timer|]; simpl; split_and!; try done.
  intros t tm Ht. by apply lookup_delete_Some in Ht as [_ Ht].
Qed.

(** C4 (a defect of the code).  [onImapError] schedules a reconnection
    after 30 seconds whatever the flag of the account says.  After
    [stopSync] has returned on the idling connection of [alice], an
    ['error'] event on the closed connection arms that timeout, and when it
    fires [connectAccount] creates a second connection and calls
    [connect] on it.  The same happens when the ['error'] event precedes
    [stopSync] and its timeout fires afterwards: [stopSync] does not cancel
    it. *)
Theorem error_after_stop_reconnects :
  (∀ st accountId err,
     timers (onImapError accountId err st) !! nextTimer st
     = Some {| delay := 30000; action := ReconnectAfterError accountId |})
  ∧ (let stopped := run idling [CallStopSync] in
     let failed := run stopped [EvError 0 "ECONNRESET"] in
     let later := run failed [EvTimer 1] in
     accounts stopped = []
     ∧ map_to_list (timers stopped) = []
     ∧ commands <$> heap stopped = [[CmdConnect; CmdOpenBox; CmdSearch; CmdIdle; CmdEnd]]
     ∧ map_to_list (timers failed)
       = [(1, {| delay := 30000; action := ReconnectAfterError "alice@example.com" |})]
     ∧ commands <$> heap later
       = [[CmdConnect; CmdOpenBox; CmdSearch; CmdIdle; CmdEnd]; [CmdConnect]]
     ∧ accounts later = [("alice@example.com", 1)]
     ∧ commands <$> heap (run idling [EvError 0 "ECONNRESET"; CallStopSync; EvTimer 1])
       = [[CmdConnect; CmdOpenBox; CmdSearch; CmdIdle; CmdEnd]; [CmdConnect]]).
Proof.
  split; [|by vm_compute].
  intros st accountId err. unfold onImapError, cleanupConnection. simpl.
  destruct (watchdogTimers st !! accountId); simpl; by rewrite lookup_insert_eq.
Qed.

(** C5 (a defect of the code).  Every call of [startIdleMode] registers one
    more ['mail'] listener on the connection.  On the idling connection of
    [alice] there is one listener; when the fetch of a new message ends,
    [startIdleMode] runs again and there are two, and the next notification
    of one new message starts two fetches of the same range. *)
Theorem idle_reentry_adds_mail_listener :
  (∀ st accountId imap,
     (mailListeners <$> heap (startIdleMode accountId imap st) !! imap)
     = (S <$> (mailListeners <$> heap st !! imap)))
  ∧ (let fetched := run idling (one_new_message ++ [EvFetch 0 0 FetchEnd]) in
     let notified := run fetched [EvBox 0 (Some 12%Z); EvMail 0 1] in
     mailListeners <$> heap idling = [1]
     ∧ mailListeners <$> heap (run idling one_new_message) = [1]
     ∧ mailListeners <$> heap fetched = [2]
     ∧ commands <$> heap fetched
       = [[CmdConnect; CmdOpenBox; CmdSearch; CmdIdle; CmdIdleStop; CmdSeqFetch "11:11";
           CmdIdle]]
     ∧ commands <$> heap notified
       = [[CmdConnect; CmdOpenBox; CmdSearch; CmdIdle; CmdIdleStop; CmdSeqFetch "11:11";
           CmdIdle; CmdIdleStop; CmdSeqFetch "12:12"; CmdIdleStop; CmdSeqFetch "12:12"]]
     ∧ (length ∘ fetches) <$> heap notified = [3]).
Proof.
  split; [|by vm_compute].
  intros st accountId imap. unfold startIdleMode, restartIdle, thrown. simpl.
  destruct (active accountId _); simpl.
  - rewrite list_lookup_alter_eq. destruct (heap st !! imap) as [i|] eqn:Hi; simpl.
    + destruct (throwing i); simpl; [by rewrite list_lookup_alter_eq, Hi|].
      by rewrite list_alter_alter_eq, list_lookup_alter_eq, Hi.
    + by rewrite list_alter_alter_eq, list_lookup_alter_eq, Hi.
  - rewrite list_lookup_alter_eq. by destruct (heap st !! imap).
Qed.

(** C6 (a defect of the code).  [fetchNewEmails] cancels no timeout: when
    the mailbox is open and the library does not throw, the pending
    timeouts and the map of watchdog handles are the same after it as
    before.  On the idling connection of [alice] the watchdog armed on
    idle entry is still pending while the new message is fetched; when the
    fetch ends a second watchdog is armed and its handle replaces the first
    in the map, so that [stopSync] cancels the second and the first stays
    pending. *)
Theorem new_mail_fetch_leaves_watchdog_armed :
  (∀ st accountId imap n,
     match thrown imap st, heap st !! imap ≫= box with
     | None, Some _ =>
         timers (fetchNewEmails accountId imap n st) = timers st
         ∧ watchdogTimers (fetchNewEmails accountId imap n st) = watchdogTimers st
     | _, _ => True
     end)
  ∧ (let fetching := run idling one_new_message in
     let fetched := run fetching [EvFetch 0 0 FetchEnd] in
     let stopped := run fetched [CallStopSync] in
     map_to_list (timers idling) = [(0, watchdog)]
     ∧ commands <$> heap fetching
       = [[CmdConnect; CmdOpenBox; CmdSearch; CmdIdle; CmdIdleStop; CmdSeqFetch "11:11"]]
     ∧ map_to_list (timers fetching) = [(0, watchdog)]
     ∧ map_to_list (watchdogTimers fetching) = [("alice@example.com", 0)]
     ∧ map_to_list (timers fetched) = [(1, watchdog); (0, watchdog)]
     ∧ map_to_list (watchdogTimers fetched) = [("alice@example.com", 1)]
     ∧ map_to_list (timers stopped) = [(0, watchdog)]
     ∧ map_to_list (watchdogTimers stopped) = []).
Proof.
  split; [|by vm_compute].
  intros st accountId imap n. unfold fetchNewEmails, thrown.
  destruct (heap st !! imap) as [i|] eqn:Hi; simpl; [|done].
  destruct (throwing i); [done|].
  destruct (box i) as [total|] eqn:Hb; [|done].
  rewrite list_lookup_alter_eq, Hi. simpl. by rewrite Hb.
Qed.

End Runs.

(** * Further properties of the code *)

(** ** Records a message can emit *)
Section NormalizerExtras.
Context `{!Libraries}.
Import Normalizer Observations.

Lemma or_str_nonempty s d : d ≠ "" → or_str s d ≠ "".
Proof.
  intros Hd. destruct s as [v|]; simpl; [|done].
  by destruct (String.eqb_spec v "").
Qed.

(** What holds of the [email] object at every moment holds of the record. *)
Lemma emitted_invariant (P : Email.t → Prop) m evs :
  (∀ m ev m' fx ran, msg_step m ev = (m', fx, ran) → P (email m) → P (email m')) →
  P (email m) →
  ∀ e, e ∈ emitted (msg_run m evs).2 → P e ∧ complete e = true.
Proof.
  intros Hstep. revert m. induction evs as [|ev evs IH]; intros m HP e; simpl.
  { by intros ?%elem_of_nil. }
  destruct (msg_step m ev) as [[m1 fx1] ran] eqn:Hm.
  pose proof (Hstep _ _ _ _ _ Hm HP) as HP1.
  apply msg_step_emits in Hm as (Hfx & _).
  specialize (IH m1 HP1 e). destruct (msg_run m1 evs) as [m2 fx2]. simpl in *.
  rewrite emitted_app, elem_of_app, Hfx. intros [He|He]; [|by apply IH].
  destruct ran; simpl in He; [|by apply elem_of_nil in He].
  destruct (complete (email m)) eqn:Hc; [|by apply elem_of_nil in He].
  by apply list_elem_of_singleton in He as ->.
Qed.

(** A handler other than the three setters leaves the [email] object. *)
Lemma msg_step_email m ev m' fx ran :
  msg_step m ev = (m', fx, ran) →
  email m' = email m
  ∨ (∃ h now, email m' = set_header h now (email m))
  ∨ (∃ p, email m' = set_body p (email m))
  ∨ (∃ buffer, email m' = set_raw_body buffer (email m))
  ∨ (∃ a, email m' = set_attributes a (email m)).
Proof.
  destruct ev as [which chunks now|i|a|]; simpl.
  - intros [= <- _ _]. unfold onBodyEnd. destruct (String.prefix _ _); simpl; eauto 6.
  - unfold onParseSettled, onParsed.
    destruct (awaiting m !! i) as [buffer|]; [destruct (simpleParser buffer)|];
      intros [= <- _ _]; simpl; eauto 8.
  - intros [= <- _ _]. unfold onAttributes. destruct (attributesOnce m); simpl; eauto 8.
  - unfold onMessageEnd. destruct (endOnce m); intros [= <- _ _]; simpl; eauto.
Qed.

Lemma msg_step_fields acc now m ev m' fx ran :
  msg_step m ev = (m', fx, ran) →
  (Email.accountId (email m) = acc ∧ Email.folder (email m) = "INBOX"
   ∧ Email.aiCategory (email m) = Uncategorized ∧ Email.indexedAt (email m) = now
   ∧ header_fields (email m) ∧ attachments_named (email m)) →
  (Email.accountId (email m') = acc ∧ Email.folder (email m') = "INBOX"
   ∧ Email.aiCategory (email m') = Uncategorized ∧ Email.indexedAt (email m') = now
   ∧ header_fields (email m') ∧ attachments_named (email m')).
Proof.
  intros Hstep (Ha & Hf & Hc & Hi & Hh & Hat).
  destruct (msg_step_email _ _ _ _ _ Hstep)
    as [->|[(h & now' & ->)|[(p & ->)|[(buffer & ->)|(a & ->)]]]];
    unfold header_fields, attachments_named in *; simpl; try done.
  - split_and!; try done. intros _. split_and!; try done.
    simpl. apply negb_true_iff, String.eqb_neq. by apply or_str_nonempty.
  - split_and!; try done. case_bool_decide as Hlen; [|done].
    split.
    + destruct (mail_attachments p); [simpl in Hlen; lia|done].
    + apply Forall_fmap, Forall_forall. intros x _. simpl. by apply or_str_nonempty.
Qed.

(** The cast of the emitted object to [EmailDocument] is sound: a record
    carries the account of its fetch, the folder [INBOX], the category
    [Uncategorized], the time of its creation, and every field that
    [EmailDocument] requires, with a non-empty subject and body. *)
Theorem emitted_record_is_complete acc seq uuid now evs e :
  e ∈ emitted (msg_run (new_msg acc seq uuid now) evs).2 →
  Email.accountId e = acc
  ∧ Email.folder e = "INBOX"
  ∧ Email.aiCategory e = Uncategorized
  ∧ Email.indexedAt e = now
  ∧ ∃ s b f t c bc d,
      Email.subject e = Some s ∧ s ≠ "" ∧ Email.body e = Some b ∧ b ≠ ""
      ∧ Email.from e = Some f ∧ Email.to e = Some t ∧ Email.cc e = Some c
      ∧ Email.bcc e = Some bc ∧ Email.date e = Some d.
Proof.
  intros He.
  apply (emitted_invariant
           (λ e, Email.accountId e = acc ∧ Email.folder e = "INBOX"
                 ∧ Email.aiCategory e = Uncategorized ∧ Email.indexedAt e = now
                 ∧ header_fields e ∧ attachments_named e)) in He
    as ((Ha & Hf & Hc & Hi & Hh & _) & Hcomplete).
  - apply complete_spec in Hcomplete as (s & b & Hs & Hs' & Hb & Hb').
    destruct Hh as (_ & [f Hfrom] & [t Hto] & [c Hcc] & [bc Hbcc] & [d Hd]);
      [by rewrite Hs|].
    split_and!; try done. by exists s, b, f, t, c, bc, d.
  - intros. by eapply msg_step_fields.
  - unfold header_fields, attachments_named. simpl. split_and!; try done;
      try by intros [? [=]].
Qed.

(** Attachment metadata: the list of a record is undefined or non-empty,
    and an attachment without a file name is called [unnamed], so no entry
    has an empty name. *)
Theorem emitted_attachments_are_named acc seq uuid now evs e :
  e ∈ emitted (msg_run (new_msg acc seq uuid now) evs).2 →
  Email.attachments e = None
  ∨ ∃ l, Email.attachments e = Some l ∧ l ≠ [] ∧ ∀ a, a ∈ l → filename a ≠ "".
Proof.
  intros He.
  apply (emitted_invariant
           (λ e, Email.accountId e = acc ∧ Email.folder e = "INBOX"
                 ∧ Email.aiCategory e = Uncategorized ∧ Email.indexedAt e = now
                 ∧ header_fields e ∧ attachments_named e)) in He
    as ((_ & _ & _ & _ & _ & Hat) & _).
  - unfold attachments_named in Hat. destruct (Email.attachments e) as [l|]; [|by left].
    right. exists l. destruct Hat as [Hne Hall]. split_and!; try done.
    by apply Forall_forall.
  - intros. by eapply msg_step_fields.
  - unfold header_fields, attachments_named. simpl. split_and!; try done;
      try by intros [? [=]].
Qed.

(** A message emits at most one record, however often its events are
    delivered. *)
Theorem at_most_one_record_per_message m evs :
  length (emitted (msg_run m evs).2) ≤ 1.
Proof.
  revert m. induction evs as [|ev evs IH]; intros m; simpl; [lia|].
  destruct (msg_step m ev) as [[m1 fx1] ran] eqn:Hm.
  apply msg_step_emits in Hm as (Hfx & Hend & Hran & _).
  pose proof (no_emission_after_end m1 evs) as Hafter.
  specialize (IH m1). destruct (msg_run m1 evs) as [m2 fx2]. simpl in *.
  rewrite emitted_app, length_app, Hfx.
  destruct ran; simpl; [|lia].
  symmetry in Hran. apply andb_true_iff in Hran as [Hev Hm0].
  rewrite Hm0, Hev in Hend. simpl in Hend. rewrite (Hafter Hend).
  destruct (complete (email m)); simpl; lia.
Qed.

(** After the ['attributes'] handler has run, identifier and read flag are
    final. *)
Lemma attributes_final m evs e :
  attributesOnce m = false →
  e ∈ emitted (msg_run m evs).2 →
  Email.id e = Email.id (email m) ∧ Email.read e = Email.read (email m).
Proof.
  revert m. induction evs as [|ev evs IH]; intros m Hm; simpl.
  { by intros ?%elem_of_nil. }
  destruct (msg_step m ev) as [[m1 fx1] ran] eqn:Hstep.
  pose proof (msg_step_emits _ _ _ _ _ Hstep) as (Hfx & _).
  specialize (IH m1). destruct (msg_run m1 evs) as [m2 fx2]. simpl in *.
  rewrite emitted_app, elem_of_app, Hfx.
  assert (attributesOnce m1 = false ∧ Email.id (email m1) = Email.id (email m)
          ∧ Email.read (email m1) = Email.read (email m)) as (Hm1 & Hid & Hread).
  { destruct ev as [which chunks now|i|a|]; simpl in Hstep.
    - injection Hstep as <- _ _. unfold onBodyEnd. by destruct (String.prefix _ _).
    - unfold onParseSettled, onParsed in Hstep.
      destruct (awaiting m !! i) as [buffer|]; [destruct (simpleParser buffer)|];
        by injection Hstep as <- _ _.
    - injection Hstep as <- _ _. unfold onAttributes. by rewrite Hm.
    - unfold onMessageEnd in Hstep. destruct (endOnce m); by injection Hstep as <- _ _. }
  intros [He|He].
  - destruct (ran && complete (email m)); [|by apply elem_of_nil in He].
    by apply list_elem_of_singleton in He as ->.
  - rewrite <- Hid, <- Hread. by apply IH.
Qed.

Lemma attributes_before_end m evs e :
  attributesOnce m = true →
  e ∈ emitted (msg_run m evs).2 →
  match attrs_before_end evs with
  | Some a => Email.id e = make_id (Email.accountId (email m)) (uid a)
              ∧ Email.read e = includes "\Seen" (or_nil (flags a))
  | None => Email.id e = Email.id (email m) ∧ Email.read e = Email.read (email m)
  end.
Proof.
  revert m. induction evs as [|ev evs IH]; intros m Hm; simpl.
  { by intros ?%elem_of_nil. }
  destruct (msg_step m ev) as [[m1 fx1] ran] eqn:Hstep.
  pose proof (msg_step_emits _ _ _ _ _ Hstep) as (Hfx & Hend & Hran & _).
  pose proof (attributes_final m1 evs e) as Hfin.
  pose proof (no_emission_after_end m1 evs) as Hafter.
  specialize (IH m1). destruct (msg_run m1 evs) as [m2 fx2]. simpl in *.
  rewrite emitted_app, elem_of_app, Hfx.
  destruct ev as [which chunks now|i|a|]; simpl in *.
  - subst ran. simpl. injection Hstep as <-.
    intros [?%elem_of_nil|He]; [done|].
    assert (attributesOnce (onBodyEnd which chunks now m) = true) as Hm1
      by (unfold onBodyEnd; by destruct (String.prefix _ _)).
    specialize (IH Hm1 He).
    replace (Email.accountId (email (onBodyEnd which chunks now m)))
      with (Email.accountId (email m)) in IH
      by (unfold onBodyEnd; by destruct (String.prefix _ _)).
    replace (Email.id (email (onBodyEnd which chunks now m)))
      with (Email.id (email m)) in IH
      by (unfold onBodyEnd; by destruct (String.prefix _ _)).
    replace (Email.read (email (onBodyEnd which chunks now m)))
      with (Email.read (email m)) in IH
      by (unfold onBodyEnd; by destruct (String.prefix _ _)).
    done.
  - subst ran. simpl. intros [?%elem_of_nil|He]; [done|].
    unfold onParseSettled, onParsed in Hstep.
    destruct (awaiting m !! i) as [buffer|]; [destruct (simpleParser buffer)|];
      injection Hstep as <- _; by apply IH.
  - subst ran. simpl. intros [?%elem_of_nil|He]; [done|].
    injection Hstep as <-. unfold onAttributes in *. rewrite Hm in *. simpl in *.
    by destruct (Hfin eq_refl He) as [-> ->].
  - intros [He|He].
    + destruct (ran && complete (email m)); [|by apply elem_of_nil in He].
      by apply list_elem_of_singleton in He as ->.
    + rewrite Hafter in He; [by apply elem_of_nil in He|].
      rewrite Hend. by rewrite andb_false_r.
Qed.

(** The read flag of a record is whether the flags of its attributes
    include [\Seen].  A message whose attributes did not arrive before its
    end keeps what the closure started with: the identifier [uuidv4()]
    returned and the flag [false]. *)
Theorem read_flag_follows_attributes acc seq uuid now evs e :
  e ∈ emitted (msg_run (new_msg acc seq uuid now) evs).2 →
  match attrs_before_end evs with
  | Some a => Email.read e = includes "\Seen" (or_nil (flags a))
  | None => Email.read e = false ∧ Email.id e = uuid
  end.
Proof.
  intros He.
  pose proof (attributes_before_end (new_msg acc seq uuid now) evs e eq_refl He) as H1.
  destruct (attrs_before_end evs); simpl in H1; [by destruct H1|].
  by destruct H1.
Qed.

(** The body changes only when a parse settles. *)
Lemma body_preserved m evs :
  existsb is_parse_settled evs = false →
  Email.body (email (msg_run m evs).1) = Email.body (email m).
Proof.
  revert m. induction evs as [|ev evs IH]; intros m Hevs; simpl in *; [done|].
  apply orb_false_iff in Hevs as [Hev Hevs].
  destruct (msg_step m ev) as [[m1 fx1] ran] eqn:Hstep.
  specialize (IH m1 Hevs). destruct (msg_run m1 evs) as [m2 fx2]. simpl in *.
  rewrite IH. clear IH.
  destruct ev as [which chunks now|i|a|]; simpl in *; [|done|..].
  - injection Hstep as <- _ _. unfold onBodyEnd. by destruct (String.prefix _ _).
  - injection Hstep as <- _ _. unfold onAttributes. by destruct (attributesOnce m).
  - unfold onMessageEnd in Hstep. destruct (endOnce m); by injection Hstep as <- _ _.
Qed.

(** A body part that parses but has no plain text (HTML only, or only
    attachments) leaves the body empty: if no other parse settles before
    the message ends, no record is emitted, whatever the subject. *)
Theorem body_without_text_is_dropped acc seq uuid now pre i buffer p mid post :
  existsb is_end (pre ++ mid) = false →
  existsb is_parse_settled mid = false →
  awaiting (msg_run (new_msg acc seq uuid now) pre).1 !! i = Some buffer →
  simpleParser buffer = inr p →
  truthy (mail_text p) = false →
  emitted (msg_run (new_msg acc seq uuid now)
             (pre ++ ParseSettled i :: mid ++ End :: post)).2 = [].
Proof.
  intros Hend Hmid Hi Hp Htext.
  rewrite existsb_app in Hend. apply orb_false_iff in Hend as [Hpre Hmid'].
  replace (pre ++ ParseSettled i :: mid ++ End :: post)
    with ((pre ++ ParseSettled i :: mid) ++ End :: post)
    by (by rewrite <- app_assoc).
  rewrite emitted_at_first_end; [|done|].
  2:{ rewrite existsb_app. simpl. by rewrite Hpre, Hmid'. }
  set (m := new_msg acc seq uuid now) in *.
  assert (Hbody : Email.body (email (msg_run m (pre ++ ParseSettled i :: mid)).1) = Some "").
  { rewrite msg_run_app. simpl. unfold onParseSettled, onParsed. rewrite Hi, Hp.
    match goal with |- context [msg_run ?m1 mid] =>
      pose proof (body_preserved m1 mid Hmid) as Hb; destruct (msg_run m1 mid) end.
    simpl in *. rewrite Hb. simpl. f_equal.
    destruct (mail_text p) as [t|]; simpl in *; [|done].
    by destruct (String.eqb_spec t ""). }
  unfold complete. rewrite Hbody. simpl. by rewrite andb_false_r.
Qed.

End NormalizerExtras.

Section NormalizerExtraRuns.
Import Normalizer Observations Fixture Samples.

Lemma emitted_record_is_complete_witness :
  let evs := plain_message "hello" "see you at 10" 42 ++ [End] in
  let out := emitted (msg_run (H := Fixture.libs)
                        (new_msg "alice@example.com" 11%Z "0b5c" 4%Z) evs).2 in
  Email.subject <$> out = [Some "hello"]
  ∧ ∀ e, e ∈ out →
      Email.accountId e = "alice@example.com" ∧ Email.folder e = "INBOX"
      ∧ Email.aiCategory e = Uncategorized ∧ Email.indexedAt e = 4%Z.
Proof.
  intros evs out. split; [by vm_compute|]. intros e He.
  destruct (emitted_record_is_complete (H := Fixture.libs)
              "alice@example.com" 11%Z "0b5c" 4%Z evs e He) as (H1 & H2 & H3 & H4 & _).
  by split_and!.
Defined.

Lemma emitted_attachments_are_named_witness :
  let evs := [BodyEnd header_part ["Subject: offer"] 5%Z;
              BodyEnd "TEXT" ["plain text"] 6%Z; BodyEnd "TEXT" ["<html>"] 6%Z;
              ParseSettled 1; ParseSettled 0; End] in
  let out := emitted (msg_run (H := html_libs)
                        (new_msg "alice@example.com" 11%Z "0b5c" 4%Z) evs).2 in
  ((λ e, option_map (map filename) (Email.attachments e)) <$> out) = [Some ["unnamed"]]
  ∧ ∀ e, e ∈ out →
      Email.attachments e = None
      ∨ ∃ l, Email.attachments e = Some l ∧ l ≠ [] ∧ ∀ a, a ∈ l → filename a ≠ "".
Proof.
  intros evs out. split; [by vm_compute|]. intros e He.
  exact (emitted_attachments_are_named (H := html_libs)
           "alice@example.com" 11%Z "0b5c" 4%Z evs e He).
Defined.

Lemma read_flag_follows_attributes_witness :
  let seen := plain_message "hello" "see you at 10" 42 ++ [End] in
  let late := [BodyEnd header_part ["Subject: hello"] 5%Z; BodyEnd "TEXT" ["hi"] 6%Z;
               ParseSettled 0; End; Attributes {| uid := 42; flags := Some ["\Seen"] |}] in
  let m := new_msg "alice@example.com" 11%Z "0b5c" 4%Z in
  (Email.read <$> emitted (msg_run (H := Fixture.libs) m seen).2) = [true]
  ∧ ((λ e, (Email.id e, Email.read e)) <$> emitted (msg_run (H := Fixture.libs) m late).2)
    = [("0b5c", false)]
  ∧ (∀ e, e ∈ emitted (msg_run (H := Fixture.libs) m seen).2 → Email.read e = true)
  ∧ (∀ e, e ∈ emitted (msg_run (H := Fixture.libs) m late).2 →
          Email.read e = false ∧ Email.id e = "0b5c").
Proof.
  intros seen late m. split_and!; [by vm_compute|by vm_compute| |].
  - intros e He.
    exact (read_flag_follows_attributes (H := Fixture.libs)
             "alice@example.com" 11%Z "0b5c" 4%Z seen e He).
  - intros e He.
    exact (read_flag_follows_attributes (H := Fixture.libs)
             "alice@example.com" 11%Z "0b5c" 4%Z late e He).
Defined.

Lemma body_without_text_is_dropped_witness :
  let pre := [BodyEnd header_part ["Subject: brochure"] 5%Z;
              BodyEnd "TEXT" ["<html><body>Our brochure</body></html>"] 6%Z] in
  let mid := [Attributes {| uid := 8; flags := None |}] in
  let m := new_msg "alice@example.com" 11%Z "0b5c" 4%Z in
  existsb is_end (pre ++ mid) = false
  ∧ existsb is_parse_settled mid = false
  ∧ simpleParser (Libraries := html_libs) "<html><body>Our brochure</body></html>"
    = inr {| mail_text := None;
             mail_html := Some "<html><body>Our brochure</body></html>";
             mail_attachments := [ {| att_filename := None;
                                      att_contentType := "application/pdf";
                                      att_size := 1024 |} ] |}
  ∧ Email.subject (email (msg_run (H := html_libs) m (pre ++ ParseSettled 0 :: mid)).1)
    = Some "brochure"
  ∧ emitted (msg_run (H := html_libs) m (pre ++ ParseSettled 0 :: mid ++ End :: [])).2 = [].
Proof.
  intros pre mid m.
  assert (H1 : existsb is_end (pre ++ mid) = false) by reflexivity.
  assert (H2 : existsb is_parse_settled mid = false) by reflexivity.
  assert (H3 : awaiting (msg_run (H := html_libs) m pre).1 !! 0
               = Some "<html><body>Our brochure</body></html>") by reflexivity.
  assert (H4 : simpleParser (Libraries := html_libs) "<html><body>Our brochure</body></html>"
               = inr {| mail_text := None;
                        mail_html := Some "<html><body>Our brochure</body></html>";
                        mail_attachments := [ {| att_filename := None;
                                                 att_contentType := "application/pdf";
                                                 att_size := 1024 |} ] |}) by reflexivity.
  split_and!; [exact H1|exact H2|exact H4|by vm_compute|].
  exact (body_without_text_is_dropped (H := html_libs) "alice@example.com" 11%Z "0b5c" 4%Z
           pre 0 _ _ mid [] H1 H2 H3 H4 eq_refl).
Defined.

End NormalizerExtraRuns.

(** ** Requests a fetch object makes *)
Section BatcherExtras.
Context `{!Libraries}.
Import Normalizer Batcher Observations.

(** What one event does to the closure of a fetch and to its ['end']
    listener. *)
Lemma fetch_step_request accountId total f ev f' o :
  fetch_step accountId total f ev = (f', o) →
  (fetchEndOnce f = false → fetchEndOnce f' = false)
  ∧ match signal o with
    | Some (NextBatch k') =>
        ∃ k b pc, owner f = OfBatch k b pc ∧ owner f' = OfBatch k b (S pc)
                  ∧ S pc = length b ∧ k' = k + 1
    | Some RestartIdle =>
        owner f = OfNewMail ∧ fetchEndOnce f = true ∧ fetchEndOnce f' = false
    | Some (Reject _) => ∃ k b pc, owner f = OfBatch k b pc
    | None => True
    end.
Proof.
  destruct ev as [seq uuid now|i ev|err|]; simpl.
  - by intros [= <- <-].
  - unfold onMessageEvent. destruct (msgs f !! i) as [m|]; [|by intros [= <- <-]].
    destruct (msg_step m ev) as [[m' fx] ran]. destruct ran; [|by intros [= <- <-]].
    unfold afterEnd. simpl. destruct (owner f) as [k b pc|] eqn:Ho.
    + case_bool_decide as Hpc; intros [= <- <-]; simpl; [|done].
      split; [done|]. by exists k, b, pc.
    + by intros [= <- <-].
  - unfold onFetchError. destruct (fetchErrorOnce f); [|by intros [= <- <-]].
    destruct (owner f) as [k b pc|] eqn:Ho; intros [= <- <-]; simpl; [|done].
    split; [done|]. by exists k, b, pc.
  - unfold onFetchEnd. destruct (fetchEndOnce f) eqn:He; [|by intros [= <- <-]].
    destruct (owner f) as [k b pc|] eqn:Ho; by intros [= <- <-].
Qed.

Lemma no_restart_after_end accountId total f evs :
  fetchEndOnce f = false →
  restart_requests (fetch_run accountId total f evs).2 = [].
Proof.
  revert f. induction evs as [|ev evs IH]; intros f Hf; simpl; [done|].
  destruct (fetch_step accountId total f ev) as [f1 o] eqn:Hstep.
  apply fetch_step_request in Hstep as [Hkeep Hsig].
  specialize (IH f1 (Hkeep Hf)). destruct (fetch_run accountId total f1 evs) as [f2 os].
  simpl in *. unfold restart_requests in *. simpl. rewrite IH.
  destruct (signal o) as [[k'|err|]|]; try done.
  destruct Hsig as (_ & Htrue & _). congruence.
Qed.

Lemma no_next_batch_when_complete accountId total f evs k b pc :
  owner f = OfBatch k b pc → length b ≤ pc →
  next_batch_requests (fetch_run accountId total f evs).2 = [].
Proof.
  revert f pc. induction evs as [|ev evs IH]; intros f pc Ho Hpc; simpl; [done|].
  destruct (fetch_step accountId total f ev) as [f1 o] eqn:Hstep.
  pose proof (fetch_step_request _ _ _ _ _ _ Hstep) as [_ Hsig].
  destruct (fetch_step_batch _ _ _ _ _ _ _ _ _ Hstep Ho) as (pc' & Ho' & Hle & _).
  specialize (IH f1 pc' Ho'). destruct (fetch_run accountId total f1 evs) as [f2 os].
  simpl in *. unfold next_batch_requests in *. simpl. rewrite IH by lia.
  destruct (signal o) as [[k'|err|]|]; try done.
  destruct Hsig as (k0 & b0 & pc0 & Ho0 & _ & Hlen & _).
  rewrite Ho in Ho0. injection Ho0 as <- <- <-. lia.
Qed.

Lemma no_next_batch_for_new_mail accountId total f evs :
  owner f = OfNewMail →
  next_batch_requests (fetch_run accountId total f evs).2 = [].
Proof.
  revert f. induction evs as [|ev evs IH]; intros f Ho; simpl; [done|].
  destruct (fetch_step accountId total f ev) as [f1 o] eqn:Hstep.
  destruct (fetch_step_owner_new_mail _ _ _ _ _ _ Hstep Ho) as [Ho' Hsig].
  specialize (IH f1 Ho'). destruct (fetch_run accountId total f1 evs) as [f2 os].
  simpl in *. unfold next_batch_requests in *. simpl. rewrite IH.
  by destruct Hsig as [-> | ->].
Qed.

(** Whatever events a fetch object receives, it asks for the next batch at
    most once, namely for the batch after its own and only if its batch
    was not yet complete, and it asks to restart IDLE at most once, only
    when it is a fetch of new mail.  So no batch is started twice by one
    fetch, and one fetch of new mail re-enters IDLE once. *)
Theorem fetch_asks_once accountId total f evs :
  let os := (fetch_run accountId total f evs).2 in
  length (next_batch_requests os) ≤ 1
  ∧ length (restart_requests os) ≤ 1
  ∧ (∀ k', k' ∈ next_batch_requests os →
       ∃ k b pc, owner f = OfBatch k b pc ∧ k' = k + 1 ∧ pc < length b)
  ∧ (∀ k b pc, owner f = OfBatch k b pc → restart_requests os = []).
Proof.
  simpl. split_and!.
  - revert f. induction evs as [|ev evs IH]; intros f; simpl; [lia|].
    destruct (fetch_step accountId total f ev) as [f1 o] eqn:Hstep.
    pose proof (fetch_step_request _ _ _ _ _ _ Hstep) as [_ Hsig].
    pose proof (no_next_batch_when_complete accountId total f1 evs) as Hdone.
    specialize (IH f1). destruct (fetch_run accountId total f1 evs) as [f2 os].
    simpl in *. unfold next_batch_requests in *. simpl.
    destruct (signal o) as [[k'|err|]|]; try done.
    destruct Hsig as (k0 & b0 & pc0 & _ & Ho1 & Hlen & _).
    rewrite (Hdone _ _ _ Ho1) by lia. simpl. lia.
  - revert f. induction evs as [|ev evs IH]; intros f; simpl; [lia|].
    destruct (fetch_step accountId total f ev) as [f1 o] eqn:Hstep.
    pose proof (fetch_step_request _ _ _ _ _ _ Hstep) as [_ Hsig].
    pose proof (no_restart_after_end accountId total f1 evs) as Hdone.
    specialize (IH f1). destruct (fetch_run accountId total f1 evs) as [f2 os].
    simpl in *. unfold restart_requests in *. simpl.
    destruct (signal o) as [[k'|err|]|]; try done.
    destruct Hsig as (_ & _ & Hoff). rewrite (Hdone Hoff). simpl. lia.
  - destruct (owner f) as [k b pc|] eqn:Ho.
    2:{ rewrite no_next_batch_for_new_mail by done. by intros k' ?%elem_of_nil. }
    destruct (decide (pc < length b)) as [Hlt|Hge].
    2:{ rewrite (no_next_batch_when_complete _ _ _ _ k b pc) by (done || lia).
        by intros k' ?%elem_of_nil. }
    intros k' Hk'. exists k, b, pc. split_and!; [done| |done].
    revert f pc Ho Hlt Hk'. induction evs as [|ev evs IH]; intros f pc Ho Hlt; simpl.
    { by intros ?%elem_of_nil. }
    destruct (fetch_step accountId total f ev) as [f1 o] eqn:Hstep.
    pose proof (fetch_step_request _ _ _ _ _ _ Hstep) as [_ Hsig].
    destruct (fetch_step_batch _ _ _ _ _ _ _ _ _ Hstep Ho) as (pc' & Ho' & Hle & _).
    pose proof (no_next_batch_when_complete accountId total f1 evs k b pc' Ho') as Hdone.
    specialize (IH f1 pc' Ho'). destruct (fetch_run accountId total f1 evs) as [f2 os].
    simpl in *. unfold next_batch_requests in *. simpl.
    destruct (signal o) as [[k''|err|]|]; simpl.
    + destruct Hsig as (k0 & b0 & pc0 & Ho0 & _ & _ & ->).
      rewrite Ho in Ho0. injection Ho0 as <- <- <-.
      intros [->|Hin]%elem_of_cons; [done|].
      destruct (decide (pc' < length b)); [by apply IH|].
      rewrite Hdone in Hin by lia. by apply elem_of_nil in Hin.
    + intros Hin. destruct (decide (pc' < length b)); [by apply IH|].
      rewrite Hdone in Hin by lia. by apply elem_of_nil in Hin.
    + intros Hin. destruct (decide (pc' < length b)); [by apply IH|].
      rewrite Hdone in Hin by lia. by apply elem_of_nil in Hin.
    + intros Hin. destruct (decide (pc' < length b)); [by apply IH|].
      rewrite Hdone in Hin by lia. by apply elem_of_nil in Hin.
  - intros k b pc Ho. revert f pc Ho. induction evs as [|ev evs IH]; intros f pc Ho; simpl.
    { done. }
    destruct (fetch_step accountId total f ev) as [f1 o] eqn:Hstep.
    pose proof (fetch_step_request _ _ _ _ _ _ Hstep) as [_ Hsig].
    destruct (fetch_step_batch _ _ _ _ _ _ _ _ _ Hstep Ho) as (pc' & Ho' & _).
    specialize (IH f1 pc' Ho'). destruct (fetch_run accountId total f1 evs) as [f2 os].
    simpl in *. unfold restart_requests in *. simpl. rewrite IH.
    destruct (signal o) as [[k'|err|]|]; try done.
    destruct Hsig as (Hnew & _). congruence.
Qed.

End BatcherExtras.

(** ** Starting and stopping the service *)
Section LifecycleExtras.
Context `{!Libraries}.
Import Normalizer Batcher Service Registry.

Lemma account_get_map_set a k v st :
  account_get a (set_accounts (map_set k v (accounts st)) st)
  = if decide (a = k) then Some v else account_get a st.
Proof.
  unfold account_get. simpl. induction (accounts st) as [|[k' v'] accs IH]; simpl.
  - case_bool_decide; case_decide; try done; congruence.
  - destruct (decide (k = k')) as [<-|Hne]; simpl.
    + case_bool_decide; case_decide; try done; congruence.
    + case_bool_decide as Hk; [|done]. simpl in Hk. subst k'.
      by rewrite decide_False by done.
Qed.

Lemma connect_all cfgs st :
  let st' := foldl (λ st cfg, connectAccount cfg st) st cfgs in
  heap st' = heap st ++ (connected <$> cfgs)
  ∧ logs st' = logs st
               ++ ((λ cfg, log_info ("Connecting to IMAP account: " +:+ user cfg)) <$> cfgs)
  ∧ emails st' = emails st
  ∧ timers st' = timers st
  ∧ nextTimer st' = nextTimer st
  ∧ connectionsActive st' = connectionsActive st
  ∧ watchdogTimers st' = watchdogTimers st
  ∧ accountConfigs st' = accountConfigs st
  ∧ ∀ a, account_get a st' =
         match last (filter (λ p, user p.2 = a) (imap pair cfgs)) with
         | Some (j, _) => Some (length (heap st) + j)
         | None => account_get a st
         end.
Proof.
  induction cfgs as [|cfg cfgs IH] using rev_ind; simpl.
  { rewrite !app_nil_r. done. }
  rewrite foldl_app. simpl.
  destruct IH as (Hh & Hl & He & Ht & Hn & Hc & Hw & Hcfg & Ha).
  set (st1 := foldl (λ st cfg, connectAccount cfg st) st cfgs) in *.
  split_and!; try done.
  - rewrite alter_app_r_alt by lia. rewrite Nat.sub_diag. simpl.
    by rewrite Hh, fmap_app, app_assoc.
  - by rewrite Hl, fmap_app, app_assoc.
  - intros a.
    pose proof (account_get_map_set a (user cfg) (length (heap st1))
                  (logger (log_info ("Connecting to IMAP account: " +:+ user cfg)) st1)) as Hget.
    unfold connectAccount. simpl in *. unfold account_get in *. simpl in *.
    rewrite Hget. rewrite imap_app, filter_app. simpl.
    rewrite Hh, length_app, length_fmap, Nat.add_0_r.
    destruct (decide (a = user cfg)) as [->|Hne].
    + rewrite filter_cons_True by done. rewrite filter_nil. by rewrite last_snoc.
    + rewrite filter_cons_False by (simpl; congruence). simpl.
      rewrite app_nil_r. apply Ha.
Qed.


Lemma stopAccount_spec st a c :
  let st' := stopAccount st (a, c) in
  emails st' = emails st
  ∧ nextTimer st' = nextTimer st
  ∧ accounts st' = accounts st
  ∧ accountConfigs st' = accountConfigs st
  ∧ watchdogTimers st' = delete a (watchdogTimers st)
  ∧ timers st' = match watchdogTimers st !! a with
                 | Some t => delete t (timers st)
                 | None => timers st
                 end
  ∧ heap st' = alter ended_by_stop c (heap st).
Proof.
  unfold stopAccount, thrown. simpl.
  assert (Hheap : ∀ st0 : State, heap st0 = heap st →
            heap (match heap st0 !! c ≫= throwing with
                  | Some error =>
                      logger (log_error_with
                                ("Error closing IMAP connection for " +:+ a +:+ ":") error) st0
                  | None => logger (log_info ("Closed IMAP connection for " +:+ a))
                              (modify c (call CmdEnd) st0)
                  end) = alter ended_by_stop c (heap st)).
  { intros st0 Hst0. rewrite Hst0. destruct (heap st !! c) as [i|] eqn:Hi; simpl.
    - destruct (throwing i) as [error|] eqn:Ht; simpl; rewrite Hst0.
      + symmetry. apply list_eq. intros c'. destruct (decide (c = c')) as [<-|Hne].
        * rewrite list_lookup_alter_eq, Hi. simpl. unfold ended_by_stop. by rewrite Ht.
        * by rewrite list_lookup_alter_ne.
      + apply list_eq. intros c'. destruct (decide (c = c')) as [<-|Hne].
        * rewrite !list_lookup_alter_eq, Hi. simpl. unfold ended_by_stop. by rewrite Ht.
        * by rewrite !list_lookup_alter_ne.
    - rewrite Hst0. apply list_eq. intros c'. destruct (decide (c = c')) as [<-|Hne].
      + by rewrite !list_lookup_alter_eq, Hi.
      + by rewrite !list_lookup_alter_ne. }
  destruct (watchdogTimers st !! a) as [t|] eqn:Hw; simpl.
  - split_and!; try (by destruct (heap st !! c ≫= throwing)).
    by apply (Hheap (set_watchdogTimers (delete a (watchdogTimers st))
                       (clearTimeout t
                          (set_connectionsActive (<[a:=false]> (connectionsActive st)) st)))).
  - split_and!; try (by destruct (heap st !! c ≫= throwing)).
    + destruct (heap st !! c ≫= throwing); simpl; symmetry; by apply delete_id.
    + by apply (Hheap (set_connectionsActive (<[a:=false]> (connectionsActive st)) st)).
Qed.

Lemma stop_all entries st :
  let st' := foldl stopAccount st entries in
  emails st' = emails st
  ∧ nextTimer st' = nextTimer st
  ∧ (∀ t, timers st' !! t = None ∨ timers st' !! t = timers st !! t)
  ∧ (∀ a t, a ∈ entries.*1 → watchdogTimers st !! a = Some t → timers st' !! t = None)
  ∧ (∀ t, (∀ a, a ∈ entries.*1 → watchdogTimers st !! a ≠ Some t) →
          timers st' !! t = timers st !! t)
  ∧ (NoDup entries.*2 →
     ∀ c, heap st' !! c
          = (if decide (c ∈ entries.*2) then ended_by_stop else id) <$> heap st !! c).
Proof.
  revert st. induction entries as [|[a c] entries IH]; intros st.
  { simpl. split_and!; try done; eauto.
    - by intros a t ?%elem_of_nil.
    - intros _ c. by destruct (heap st !! c). }
  destruct (stopAccount_spec st a c) as (He1 & Hn1 & _ & _ & Hw1 & Ht1 & Hh1).
  destruct (IH (stopAccount st (a, c))) as (He & Hn & Hsub & Hcancel & Hkeep & Hheap).
  rewrite !fmap_cons. cbn [foldl fst snd].
  set (st1 := stopAccount st (a, c)) in *.
  assert (Hsub1 : ∀ t, timers st1 !! t = None ∨ timers st1 !! t = timers st !! t).
  { intros t. rewrite Ht1. destruct (watchdogTimers st !! a) as [t0|]; [|by right].
    destruct (decide (t0 = t)) as [->|Hne].
    - left. apply lookup_delete_eq.
    - right. by apply lookup_delete_ne. }
  split_and!.
  - congruence.
  - congruence.
  - intros t. destruct (Hsub t) as [Hnone|Hsame]; [by left|].
    rewrite Hsame. apply Hsub1.
  - intros a' t Ha' Hw. apply elem_of_cons in Ha' as [->|Ha'].
    + destruct (Hsub t) as [Hnone|Hsame]; [done|]. rewrite Hsame, Ht1, Hw.
      apply lookup_delete_eq.
    + destruct (decide (a' = a)) as [->|Hne].
      * destruct (Hsub t) as [Hnone|Hsame]; [done|]. rewrite Hsame, Ht1, Hw.
        apply lookup_delete_eq.
      * apply (Hcancel a' t Ha'). rewrite Hw1. by rewrite lookup_delete_ne.
  - intros t Hno. rewrite Hkeep.
    + rewrite Ht1. destruct (watchdogTimers st !! a) as [t0|] eqn:Hw0; [|done].
      apply lookup_delete_ne. intros ->. apply (Hno a); [left|done].
    + intros a' Ha'. rewrite Hw1. destruct (decide (a = a')) as [<-|Hne].
      * by rewrite lookup_delete_eq.
      * rewrite lookup_delete_ne by done. apply Hno. by right.
  - intros [Hc Hnd]%NoDup_cons c'. rewrite (Hheap Hnd c'), Hh1.
    destruct (decide (c = c')) as [<-|Hne].
    + rewrite list_lookup_alter_eq. rewrite decide_False by done.
      rewrite decide_True by left. by destruct (heap st !! c).
    + rewrite list_lookup_alter_ne by done.
      destruct (decide (c' ∈ entries.*2)) as [Hin|Hin].
      * rewrite decide_True; [done|by right].
      * rewrite decide_False; [done|]. intros [?|?]%elem_of_cons; congruence.
Qed.

(** [stopSync] empties the three maps and emits nothing.  It adds no
    timeout, and the timeouts it cancels are exactly the watchdog handles
    found in [watchdogTimers] for the accounts of [accounts]: every other
    pending timeout, a reconnection in particular, is still pending after
    it. *)
Theorem stopSync_cancels_registered_watchdogs st :
  let st' := stopSync st in
  accounts st' = [] ∧ connectionsActive st' = ∅ ∧ watchdogTimers st' = ∅
  ∧ emails st' = emails st
  ∧ nextTimer st' = nextTimer st
  ∧ (∀ t, registered_watchdog st t → timers st' !! t = None)
  ∧ (∀ t, ¬ registered_watchdog st t → timers st' !! t = timers st !! t).
Proof.
  destruct (stop_all (accounts st) st) as (He & Hn & _ & Hcancel & Hkeep & _).
  unfold stopSync. simpl. split_and!; try done.
  - intros t (a & c & Hin & Hw). apply (Hcancel a t); [|done].
    apply list_elem_of_fmap. by exists (a, c).
  - intros t Hno. apply Hkeep. intros a Ha Hw. apply Hno.
    apply list_elem_of_fmap in Ha as ([a' c] & -> & Hin). by exists a', c.
Qed.

(** In a state whose accounts are registered to distinct connection
    objects, [stopSync] calls [end()] once on every registered object (and
    does nothing on an object whose calls throw) and touches no other
    object: a connection that a reconnection has replaced in [accounts]
    is not closed. *)
Theorem stopSync_ends_registered_connections st :
  NoDup (accounts st).*2 →
  heap (stopSync st)
  = imap (λ c i, if decide (c ∈ (accounts st).*2) then ended_by_stop i else i) (heap st).
Proof.
  intros Hnd. destruct (stop_all (accounts st) st) as (_ & _ & _ & _ & _ & Hheap).
  unfold stopSync. simpl. apply list_eq. intros c.
  rewrite (Hheap Hnd c), list_lookup_imap.
  destruct (heap st !! c); simpl; [|done]. by case_decide.
Qed.

End LifecycleExtras.

Section LifecycleExtraRuns.
Import Normalizer Batcher Service Registry Fixture.
#[local] Existing Instance Fixture.libs.

Lemma stopSync_ends_registered_connections_witness :
  NoDup (accounts idling).*2
  ∧ heap (stopSync idling)
    = imap (λ c i, if decide (c ∈ (accounts idling).*2) then ended_by_stop i else i)
        (heap idling).
Proof.
  assert (Hnd : NoDup (accounts idling).*2).
  { change (NoDup [0]). apply NoDup_singleton. }
  split; [exact Hnd|]. exact (stopSync_ends_registered_connections idling Hnd).
Defined.

End LifecycleExtraRuns.

(** ** What every handler keeps *)
Section FrameFacts.
Context `{!Libraries}.
Import Normalizer Batcher Service Invariants Observations Registry Frames.

Lemma keeps_refl st : keeps st st.
Proof.
  split_and!; try done; [intros; by left|]. intros c i i' Hi Hi'. rewrite Hi in Hi'. by injection Hi' as <-.
Qed.

Lemma keeps_trans st1 st2 st3 : keeps st1 st2 → keeps st2 st3 → keeps st1 st3.
Proof.
  intros (Hc & Ha & He & Ht & Hl & Hh) (Hc' & Ha' & He' & Ht' & Hl' & Hh').
  split_and!; try congruence.
  - intros t tm Htm. destruct (Ht' t tm Htm) as [Hold|Hnew]; [by apply Ht|by right].
  - intros c i1 i3 H1 H3.
    destruct (lookup_lt_is_Some_2 (heap st2) c) as [i2 H2].
    { rewrite Hl. by eapply lookup_lt_Some. }
    destruct (Hh c i1 i2 H1 H2) as [? ?]. destruct (Hh' c i2 i3 H2 H3) as [? ?].
    split; congruence.
Qed.

(** A handler that changes neither the connection objects nor the
    messages. *)
Lemma keeps_fields st st' :
  accountConfigs st' = accountConfigs st →
  accounts st' = accounts st →
  emails st' = emails st →
  heap st' = heap st →
  (∀ t tm, timers st' !! t = Some tm → timers st !! t = Some tm ∨ armed tm) →
  keeps st st'.
Proof.
  intros Hc Ha He Hh Ht. split_and!; try done; [by rewrite Hh|].
  intros c i i'. rewrite Hh. intros Hi Hi'. rewrite Hi in Hi'. by injection Hi' as <-.
Qed.

Lemma keeps_modify c g st :
  (∀ i, config (g i) = config i ∧ messages (g i) = messages i) →
  keeps st (modify c g st).
Proof.
  intros Hg. split_and!; try done; simpl.
  - intros; by left.
  - apply length_alter.
  - intros c' i i' Hi. destruct (decide (c = c')) as [<-|Hne].
    + rewrite list_lookup_alter_eq, Hi. simpl. intros [= <-]. apply Hg.
    + rewrite list_lookup_alter_ne by done. rewrite Hi. by intros [= <-].
Qed.

Lemma keeps_logger l st : keeps st (logger l st).
Proof. apply keeps_fields; try done. intros; by left. Qed.

Lemma messages_new_fetch o i :
  messages (set_fetches (fetches i ++ [new_fetch o]) i) = messages i.
Proof. unfold messages. simpl. rewrite bind_app. simpl. by rewrite !app_nil_r. Qed.

(** Chains of updates: each step is one the handlers make. *)
Ltac frame :=
  repeat first
    [ apply keeps_refl
    | eapply keeps_trans; [|apply keeps_logger]
    | eapply keeps_trans;
      [|apply keeps_modify; intros; split; first [done|apply messages_new_fetch]] ].

Lemma active_cleanupConnection accountId st :
  active accountId (cleanupConnection accountId st) = false.
Proof.
  unfold active, cleanupConnection. simpl.
  destruct (watchdogTimers st !! accountId); simpl; by rewrite lookup_insert_eq.
Qed.

Lemma cleanupConnection_keeps accountId st : keeps st (cleanupConnection accountId st).
Proof.
  unfold cleanupConnection. simpl.
  destruct (watchdogTimers st !! accountId) as [timer|]; apply keeps_fields; simpl; try done.
  - intros t tm [_ Ht]%lookup_delete_Some. by left.
  - intros; by left.
Qed.

Lemma onImapError_keeps accountId err st : keeps st (onImapError accountId err st).
Proof.
  unfold onImapError.
  eapply keeps_trans; [eapply keeps_trans; [apply keeps_logger|apply cleanupConnection_keeps]|].
  apply keeps_fields; simpl; try done.
  intros t tm [[_ <-]|[_ Ht]]%lookup_insert_Some; [|by left].
  right. left. by exists accountId.
Qed.

Lemma onImapEnd_keeps accountId st : keeps st (onImapEnd accountId st).
Proof.
  unfold onImapEnd. rewrite active_cleanupConnection.
  eapply keeps_trans; [apply keeps_logger|apply cleanupConnection_keeps].
Qed.

Lemma restartIdle_keeps accountId imap st : keeps st (restartIdle accountId imap st).
Proof.
  unfold restartIdle. destruct (active accountId st); [|apply keeps_refl].
  destruct (thrown imap st); [apply keeps_logger|].
  eapply keeps_trans; [apply (keeps_modify imap (call CmdIdle)); by intros|].
  apply keeps_fields; simpl; try done.
  intros t tm [[_ <-]|[_ Ht]]%lookup_insert_Some; [|by left].
  right. right. by exists accountId, imap.
Qed.

Lemma startIdleMode_keeps accountId imap st : keeps st (startIdleMode accountId imap st).
Proof.
  unfold startIdleMode. eapply keeps_trans; [|apply restartIdle_keeps]. frame.
Qed.

Lemma onWatchdog_keeps accountId imap st : keeps st (onWatchdog accountId imap st).
Proof.
  unfold onWatchdog. destruct (thrown imap _); [frame|].
  eapply keeps_trans; [|apply restartIdle_keeps]. frame.
Qed.

Lemma fetchNewEmails_keeps accountId imap n st :
  keeps st (fetchNewEmails accountId imap n st).
Proof.
  unfold fetchNewEmails. destruct (thrown imap st).
  { eapply keeps_trans; [|apply startIdleMode_keeps]. frame. }
  destruct (_ ≫= box) as [total|].
  - frame.
  - eapply keeps_trans; [|apply startIdleMode_keeps]. frame.
Qed.

Lemma onMail_keeps imap n st : keeps st (onMail imap n st).
Proof.
  unfold onMail. destruct (heap st !! imap) as [i|]; [|apply keeps_refl].
  induction (mailListeners i) as [|k IH]; simpl; [apply keeps_refl|].
  eapply keeps_trans; [apply IH|].
  eapply keeps_trans; [|apply fetchNewEmails_keeps]. frame.
Qed.

Lemma resolve_keeps accountId imap st : keeps st (resolve accountId imap st).
Proof.
  unfold resolve. destruct (heap st !! imap) as [i|]; [|apply keeps_refl].
  destruct (promise i); try apply keeps_refl.
  eapply keeps_trans; [|apply startIdleMode_keeps]. frame.
Qed.

Lemma reject_keeps accountId imap err st : keeps st (reject accountId imap err st).
Proof.
  unfold reject. destruct (heap st !! imap) as [i|]; [|apply keeps_refl].
  destruct (promise i); try apply keeps_refl. frame.
Qed.

Lemma processBatch_keeps accountId imap k st : keeps st (processBatch accountId imap k st).
Proof.
  unfold processBatch. destruct (heap st !! imap) as [i|]; [|apply keeps_refl].
  destruct (batches i !! k) as [batch|]; [|apply resolve_keeps].
  destruct (throwing i); [apply keeps_refl|]. frame.
Qed.

Lemma initialSync_keeps accountId imap st : keeps st (initialSync accountId imap st).
Proof.
  unfold initialSync. destruct (thrown imap st).
  - eapply keeps_trans; [|apply reject_keeps]. frame.
  - frame.
Qed.

Lemma onImapReady_keeps accountId imap st : keeps st (onImapReady accountId imap st).
Proof.
  unfold onImapReady. eapply keeps_trans; [|apply initialSync_keeps].
  apply keeps_fields; try done. intros; by left.
Qed.

Lemma onOpenBox_keeps accountId imap res st : keeps st (onOpenBox accountId imap res st).
Proof.
  unfold onOpenBox. destruct res as [err|total].
  - eapply keeps_trans; [|apply reject_keeps]. frame.
  - destruct (thrown imap _); frame.
Qed.

Lemma onSearch_keeps accountId imap res st : keeps st (onSearch accountId imap res st).
Proof.
  unfold onSearch. destruct res as [err|results].
  - eapply keeps_trans; [|apply reject_keeps]. frame.
  - case_bool_decide.
    + eapply keeps_trans; [|apply resolve_keeps]. frame.
    + eapply keeps_trans; [|apply processBatch_keeps]. frame.
Qed.

Lemma stopAccount_keeps st entry : keeps st (stopAccount st entry).
Proof.
  destruct entry as [a c].
  destruct (stopAccount_spec st a c) as (He & Hn & Ha & Hc & Hw & Ht & Hh).
  split_and!; try done.
  - intros t tm. rewrite Ht. destruct (watchdogTimers st !! a) as [t0|]; [|intros; by left].
    intros [_ Htm]%lookup_delete_Some. by left.
  - rewrite Hh. apply length_alter.
  - intros c' i i' Hi. rewrite Hh. destruct (decide (c = c')) as [<-|Hne].
    + rewrite list_lookup_alter_eq, Hi. simpl. intros [= <-]. unfold ended_by_stop.
      by destruct (throwing i).
    + rewrite list_lookup_alter_ne by done. rewrite Hi. by intros [= <-].
Qed.

(** *** The invariant *)

Lemma sound_keeps st st' : sound st → keeps st st' → sound st'.
Proof.
  intros [Ht [Hk [Hv Hreg]] Hcfg Hm Hr] (Hc & Ha & He & Htm & Hl & Hh).
  assert (Hback : ∀ c i', heap st' !! c = Some i' →
            ∃ i, heap st !! c = Some i ∧ config i' = config i ∧ messages i' = messages i).
  { intros c i' Hi'. destruct (lookup_lt_is_Some_2 (heap st) c) as [i Hi].
    { rewrite <- Hl. by eapply lookup_lt_Some. }
    exists i. split; [done|]. by apply (Hh c). }
  split.
  - intros t tm Htm'. destruct (Htm t tm Htm') as [Hold|Hnew]; [by eapply Ht|done].
  - unfold registry_ok. rewrite Ha. split_and!; try done.
    intros a c Hin. destruct (Hreg a c Hin) as (i & Hi & Hu).
    destruct (lookup_lt_is_Some_2 (heap st') c) as [i' Hi'].
    { rewrite Hl. by eapply lookup_lt_Some. }
    exists i'. split; [done|]. destruct (Hh c i i' Hi Hi') as [-> _]. done.
  - intros c i' Hi'. destruct (Hback c i' Hi') as (i & Hi & -> & _). rewrite Hc. by eapply Hcfg.
  - intros c i' m Hi'. destruct (Hback c i' Hi') as (i & Hi & -> & ->). by eapply Hm.
  - rewrite He, Hc. done.
Qed.

Lemma map_set_spec {V} k (v : V) (m : list (string * V)) :
  NoDup m.*1 →
  (∀ a c, (a, c) ∈ map_set k v m ↔ (a = k ∧ c = v) ∨ (a ≠ k ∧ (a, c) ∈ m))
  ∧ NoDup (map_set k v m).*1
  ∧ (NoDup m.*2 → v ∉ m.*2 → NoDup (map_set k v m).*2).
Proof.
  induction m as [|[k' v'] m IH]; simpl; intros Hnd.
  { split_and!.
    - intros a c. rewrite list_elem_of_singleton. split.
      + intros [= -> ->]. by left.
      + intros [[-> ->]|[_ ?%elem_of_nil]]; done.
    - apply NoDup_singleton.
    - intros _ _. apply NoDup_singleton. }
  apply NoDup_cons in Hnd as [Hk' Hnd]. destruct (IH Hnd) as (Hin & Hkeys & Hvals).
  assert (Hkey : ∀ a c, (a, c) ∈ m → a ≠ k').
  { intros a c Hac ->. apply Hk', list_elem_of_fmap. by exists (k', c). }
  destruct (decide (k = k')) as [<-|Hne]; simpl.
  - split_and!.
    + intros a c. rewrite !elem_of_cons. split.
      * intros [[= -> ->]|Hac]; [by left|]. right. split; [by eapply Hkey|by right].
      * intros [[-> ->]|[Ha [[= -> ->]|Hac]]]; [by left|done|by right].
    + by apply NoDup_cons.
    + intros [_ Hnd2]%NoDup_cons Hv%not_elem_of_cons. apply NoDup_cons. by destruct Hv.
  - split_and!.
    + intros a c. rewrite !elem_of_cons, Hin. split.
      * intros [[= -> ->]|[?|[? ?]]]; [right; split; [done|by left]|by left|].
        right. split; [done|by right].
      * intros [[-> ->]|[Ha [[= -> ->]|Hac]]]; [right; by left|by left|].
        right. right. done.
    + apply NoDup_cons. split; [|done].
      intros ([a c] & Heq & Hac)%list_elem_of_fmap. simpl in Heq. subst a.
      apply Hin in Hac as [[-> _]|[_ Hac]]; [done|]. by eapply Hkey.
    + intros [Hv' Hnd2]%NoDup_cons [Hvv' Hv]%not_elem_of_cons. apply NoDup_cons.
      split; [|by apply Hvals].
      intros ([a c] & Heq & Hac)%list_elem_of_fmap. simpl in Heq. subst c.
      apply Hin in Hac as [[_ ->]|[_ Hac]]; [done|].
      apply Hv', list_elem_of_fmap. by exists (a, v').
Qed.

Lemma connectAccount_heap cfg st :
  heap (connectAccount cfg st) = heap st ++ [connected cfg].
Proof.
  unfold connectAccount. simpl. rewrite alter_app_r_alt by lia.
  by rewrite Nat.sub_diag.
Qed.

Lemma connectAccount_sound cfg st :
  cfg ∈ accountConfigs st → sound st → sound (connectAccount cfg st).
Proof.
  intros Hcfg [Ht [Hk [Hv Hreg]] Hc Hm Hr].
  pose proof (connectAccount_heap cfg st) as Hh.
  assert (Hfresh : length (heap st) ∉ (accounts st).*2).
  { intros ([a c] & Heq & Hac)%list_elem_of_fmap. simpl in Heq. subst c.
    destruct (Hreg a _ Hac) as (i & Hi%lookup_lt_Some & _). lia. }
  destruct (map_set_spec (user cfg) (length (heap st)) (accounts st) Hk)
    as (Hin & Hkeys & Hvals).
  split.
  - done.
  - split_and!; [done|by apply Hvals|]. intros a c Hac. rewrite Hh.
    change (accounts (connectAccount cfg st))
      with (map_set (user cfg) (length (heap st)) (accounts st)) in Hac.
    apply Hin in Hac as [[-> ->]|[_ Hac]].
    + exists (connected cfg). split; [|done].
      rewrite lookup_app_r by lia. by rewrite Nat.sub_diag.
    + destruct (Hreg a c Hac) as (i & Hi & Hu). exists i. split; [|done].
      by apply lookup_app_l_Some.
  - intros c i. rewrite Hh. intros [Hi|[_ Hi]]%lookup_app_Some; [by eapply Hc|].
    apply list_lookup_singleton_Some in Hi as [_ <-]. done.
  - intros c i m. rewrite Hh. intros [Hi|[_ Hi]]%lookup_app_Some; [by eapply Hm|].
    apply list_lookup_singleton_Some in Hi as [_ <-]. by intros ?%elem_of_nil.
  - done.
Qed.

Lemma startSync_sound st : sound st → sound (startSync st).
Proof.
  unfold startSync.
  assert (Hall : ∀ cfgs st, cfgs ⊆ accountConfigs st → sound st →
            sound (foldl (λ st cfg, connectAccount cfg st) st cfgs)).
  { induction cfgs as [|cfg cfgs IH]; intros st0 Hsub Hs; simpl; [done|].
    apply IH.
    - intros x Hx. apply (Hsub x). by right.
    - apply connectAccount_sound; [|done]. apply Hsub. by left. }
  by apply Hall.
Qed.

Lemma stopSync_sound st : sound st → sound (stopSync st).
Proof.
  intros Hs. unfold stopSync.
  assert (Hall : ∀ entries st, keeps st (foldl stopAccount st entries)).
  { induction entries as [|e entries IH]; intros st0; simpl; [apply keeps_refl|].
    eapply keeps_trans; [apply (stopAccount_keeps st0 e)|apply IH]. }
  destruct (sound_keeps _ _ Hs (Hall (accounts st) st)) as [Ht _ Hc Hm Hr].
  split; try done. split_and!; simpl; try apply NoDup_nil_2.
  by intros a c ?%elem_of_nil.
Qed.

Lemma onTimer_sound t st : sound st → sound (onTimer t st).
Proof.
  intros Hs. unfold onTimer. destruct (timers st !! t) as [tm|] eqn:Htm; [|done].
  assert (Hs1 : sound (clearTimeout t st)).
  { apply (sound_keeps st); [done|]. apply keeps_fields; try done.
    simpl. intros t' tm' [_ ?]%lookup_delete_Some. by left. }
  destruct (action tm) as [accountId|cfg|accountId imap] eqn:Ha.
  - destruct (find_config accountId _) as [cfg|] eqn:Hf; [|done].
    apply connectAccount_sound; [|done].
    apply find_some in Hf as [Hin _]. by apply list_elem_of_In.
  - destruct (sound_timers st Hs t tm Htm) as [[a ->]|(a & c & ->)]; done.
  - eapply sound_keeps; [done|apply onWatchdog_keeps].
Qed.

(** *** Events of a fetch object *)

(** What one event does to the messages of a fetch: nothing, one more
    message, or one step of one message, whose effects are those of the
    event as far as records go. *)
Lemma fetch_step_msgs accountId total f ev f' o :
  fetch_step accountId total f ev = (f', o) →
  (msgs f' = msgs f ∧ emitted (effects o) = [])
  ∨ (∃ seq uuid now, msgs f' = msgs f ++ [new_msg accountId seq uuid now]
                     ∧ emitted (effects o) = [])
  ∨ (∃ j mev m m' fx ran,
       ev = OnMessage j mev ∧ msgs f !! j = Some m ∧ msg_step m mev = (m', fx, ran)
       ∧ msgs f' = <[j := m']> (msgs f) ∧ emitted (effects o) = emitted fx).
Proof.
  destruct ev as [seq uuid now|j mev|err|]; simpl.
  - intros [= <- <-]. right. left. by exists seq, uuid, now.
  - unfold onMessageEvent. destruct (msgs f !! j) as [m|] eqn:Hj; [|intros [= <- <-]; by left].
    destruct (msg_step m mev) as [[m' fx] ran] eqn:Hm.
    intros Hstep. right. right. exists j, mev, m, m', fx, ran.
    destruct ran.
    + unfold afterEnd in Hstep. simpl in Hstep. destruct (owner f) as [k b pc|].
      * case_bool_decide; injection Hstep as <- <-; simpl; split_and!; try done.
        -- rewrite emitted_app. simpl. by rewrite app_nil_r.
        -- by rewrite app_nil_r.
      * injection Hstep as <- <-. simpl. split_and!; try done. by rewrite app_nil_r.
    + injection Hstep as <- <-. by split_and!.
  - unfold onFetchError. destruct (fetchErrorOnce f); [|intros [= <- <-]; by left].
    destruct (owner f); intros [= <- <-]; by left.
  - unfold onFetchEnd. destruct (fetchEndOnce f); [|intros [= <- <-]; by left].
    destruct (owner f); intros [= <- <-]; by left.
Qed.

Lemma apply_effects_fields st fx :
  let st' := foldl apply_effect st fx in
  accountConfigs st' = accountConfigs st ∧ accounts st' = accounts st
  ∧ timers st' = timers st ∧ heap st' = heap st
  ∧ emails st' = emails st ++ emitted fx.
Proof.
  revert st. induction fx as [|[l|e] fx IH]; intros st; simpl.
  - by rewrite app_nil_r.
  - destruct (IH (logger l st)) as (? & ? & ? & ? & ?). by split_and!.
  - destruct (IH (emit e st)) as (? & ? & ? & ? & He). split_and!; try done.
    rewrite He. simpl. by rewrite <- app_assoc.
Qed.

(** An event of a fetch object is a step of that object, the effects of
    the step, and then the call it asks for, which emits nothing. *)
Lemma onFetchEvent_cases imap f ev st :
  keeps st (onFetchEvent imap f ev st)
  ∨ ∃ i fetch fetch' o,
      heap st !! imap = Some i ∧ fetches i !! f = Some fetch
      ∧ fetch_step (user (config i)) (length (batches i)) fetch ev = (fetch', o)
      ∧ keeps (foldl apply_effect
                 (modify imap (λ i, set_fetches (<[f := fetch']> (fetches i)) i) st)
                 (effects o))
          (onFetchEvent imap f ev st).
Proof.
  unfold onFetchEvent. destruct (heap st !! imap) as [i|] eqn:Hi; [|left; apply keeps_refl].
  destruct (fetches i !! f) as [fetch|] eqn:Hf; [|left; apply keeps_refl].
  destruct (fetch_step _ _ fetch ev) as [fetch' o] eqn:Hstep.
  right. exists i, fetch, fetch', o. split_and!; try done.
  destruct (signal o) as [[k|err|]|].
  - apply processBatch_keeps.
  - apply reject_keeps.
  - apply startIdleMode_keeps.
  - apply keeps_refl.
Qed.

Lemma msg_ok_new accountId uuid now : msg_ok accountId (new_email accountId uuid now).
Proof.
  unfold msg_ok, header_fields, attachments_named. simpl.
  split_and!; try done; try by intros [? [=]].
Qed.

Lemma msg_ok_step accountId m ev m' fx ran :
  msg_step m ev = (m', fx, ran) →
  msg_ok accountId (email m) → msg_ok accountId (email m').
Proof.
  intros Hstep (Ha & Hf & Hc & Hh & Hat).
  destruct (msg_step_fields accountId (Email.indexedAt (email m)) _ _ _ _ _ Hstep)
    as (? & ? & ? & _ & ? & ?); by split_and!.
Qed.

Lemma record_ok_complete configs cfg e :
  cfg ∈ configs → msg_ok (user cfg) e → complete e = true → record_ok configs e.
Proof.
  intros Hcfg (Ha & Hf & Hc & Hh & Hat) Hcomplete.
  apply complete_spec in Hcomplete as (s & b & Hs & Hs' & Hb & Hb').
  destruct Hh as (_ & [f Hfrom] & [t Hto] & [c Hcc] & [bc Hbcc] & [d Hd]);
    [by rewrite Hs|].
  split_and!; try done; [by exists cfg|]. by exists s, b, f, t, c, bc, d.
Qed.

Lemma onFetchEvent_sound imap f ev st : sound st → sound (onFetchEvent imap f ev st).
Proof.
  intros Hs.
  destruct (onFetchEvent_cases imap f ev st)
    as [Hk|(i & fetch & fetch' & o & Hi & Hf & Hstep & Hk)]; [by eapply sound_keeps|].
  eapply sound_keeps; [|exact Hk].
  set (st1 := modify imap (λ i, set_fetches (<[f := fetch']> (fetches i)) i) st).
  destruct (apply_effects_fields st1 (effects o)) as (Hc2 & Ha2 & Ht2 & Hh2 & He2).
  destruct Hs as [Ht Hreg Hcfg Hm Hr].
  pose proof (Hcfg imap i Hi) as Hcfgi.
  assert (Hmi : ∀ m, m ∈ msgs fetch → msg_ok (user (config i)) (email m)).
  { intros m Hin. apply (Hm imap i m Hi). apply list_elem_of_bind. exists fetch.
    split; [done|]. by eapply list_elem_of_lookup_2. }
  assert (Hnew : ∀ m, m ∈ msgs fetch' → msg_ok (user (config i)) (email m)).
  { destruct (fetch_step_msgs _ _ _ _ _ _ Hstep)
      as [[-> _]|[(seq & uuid & now & -> & _)|(j & mev & m0 & m' & fx & ran
                                                & _ & Hj & Hms & -> & _)]].
    - done.
    - intros m [Hin|Hin]%elem_of_app; [by apply Hmi|].
      apply list_elem_of_singleton in Hin as ->. apply msg_ok_new.
    - intros m Hin. apply list_elem_of_lookup in Hin as [j' Hj'].
      destruct (decide (j = j')) as [<-|Hne].
      + rewrite list_lookup_insert_eq in Hj' by (by eapply lookup_lt_Some).
        injection Hj' as <-. eapply msg_ok_step; [done|]. apply Hmi.
        by eapply list_elem_of_lookup_2.
      + rewrite list_lookup_insert_ne in Hj' by done. apply Hmi.
        by eapply list_elem_of_lookup_2. }
  assert (Hheap : ∀ c i', heap st1 !! c = Some i' →
            (c ≠ imap ∧ heap st !! c = Some i')
            ∨ (c = imap ∧ i' = set_fetches (<[f := fetch']> (fetches i)) i)).
  { intros c i'. unfold st1. simpl. destruct (decide (imap = c)) as [<-|Hne].
    - rewrite list_lookup_alter_eq, Hi. simpl. intros [= <-]. by right.
    - rewrite list_lookup_alter_ne by done. intros Hc. left. by split. }
  split.
  - rewrite Ht2. exact Ht.
  - destruct Hreg as (Hk1 & Hk2 & Hreg). unfold registry_ok. rewrite Ha2.
    split_and!; try done. intros a c Hac. destruct (Hreg a c Hac) as (i0 & Hi0 & Hu).
    rewrite Hh2. unfold st1. simpl. destruct (decide (imap = c)) as [<-|Hne].
    + rewrite list_lookup_alter_eq, Hi. simpl. eexists. split; [done|]. simpl.
      rewrite Hi in Hi0. by injection Hi0 as <-.
    + rewrite list_lookup_alter_ne by done. by exists i0.
  - rewrite Hh2, Hc2. intros c i' Hc.
    destruct (Hheap c i' Hc) as [[_ Hold]|[_ ->]]; [by eapply Hcfg|done].
  - rewrite Hh2. intros c i' m Hc.
    destruct (Hheap c i' Hc) as [[_ Hold]|[_ ->]]; [by eapply Hm|].
    unfold messages. simpl. intros (f0 & Hin & Hf0)%list_elem_of_bind.
    apply list_elem_of_lookup in Hf0 as [n Hn].
    destruct (decide (f = n)) as [<-|Hne].
    + rewrite list_lookup_insert_eq in Hn by (by eapply lookup_lt_Some).
      injection Hn as <-. by apply Hnew.
    + rewrite list_lookup_insert_ne in Hn by done.
      apply (Hm imap i m Hi). apply list_elem_of_bind. exists f0. split; [done|].
      by eapply list_elem_of_lookup_2.
  - rewrite He2, Hc2. intros e [He|He]%elem_of_app; [by apply Hr|].
    destruct (fetch_step_msgs _ _ _ _ _ _ Hstep)
      as [[_ Hno]|[(seq & uuid & now & _ & Hno)|(j & mev & m0 & m' & fx & ran
                                                  & _ & Hj & Hms & _ & Hfx)]];
      try (rewrite Hno in He; by apply elem_of_nil in He).
    rewrite Hfx in He. apply msg_step_emits in Hms as (Hemit & _).
    rewrite Hemit in He. destruct ran; simpl in He; [|by apply elem_of_nil in He].
    destruct (complete (email m0)) eqn:Hcomplete; [|by apply elem_of_nil in He].
    apply list_elem_of_singleton in He as ->.
    apply (record_ok_complete _ (config i)); [done| |done].
    apply Hmi. by eapply list_elem_of_lookup_2.
Qed.

Lemma step_sound st ev : sound st → sound (step st ev).
Proof.
  intros Hs. destruct ev as [| |imap|imap err|imap|imap n|imap res|imap res|imap f ev|t|imap b|imap error]; simpl.
  - by apply startSync_sound.
  - by apply stopSync_sound.
  - destruct (heap st !! imap) as [i|]; [|done]. destruct (onReady i); [|done].
    eapply sound_keeps; [done|].
    eapply keeps_trans; [|apply onImapReady_keeps]. by apply keeps_modify.
  - destruct (heap st !! imap) as [i|]; [|done]. destruct (onError i); [|done].
    eapply sound_keeps; [done|].
    eapply keeps_trans; [|apply onImapError_keeps]. by apply keeps_modify.
  - destruct (heap st !! imap) as [i|]; [|done]. destruct (onEnd i); [|done].
    eapply sound_keeps; [done|].
    eapply keeps_trans; [|apply onImapEnd_keeps]. by apply keeps_modify.
  - eapply sound_keeps; [done|apply onMail_keeps].
  - destruct (heap st !! imap) as [i|]; [|done]. destruct (phase i); try done.
    eapply sound_keeps; [done|apply onOpenBox_keeps].
  - destruct (heap st !! imap) as [i|]; [|done]. destruct (phase i); try done.
    eapply sound_keeps; [done|apply onSearch_keeps].
  - by apply onFetchEvent_sound.
  - by apply onTimer_sound.
  - eapply sound_keeps; [done|]. by apply keeps_modify.
  - eapply sound_keeps; [done|]. by apply keeps_modify.
Qed.

Lemma run_sound st evs : sound st → sound (run st evs).
Proof.
  revert st. induction evs as [|ev evs IH]; intros st Hs; simpl; [done|].
  apply IH. by apply step_sound.
Qed.

Lemma new_service_sound configs : sound (new_service configs).
Proof.
  unfold new_service. case_bool_decide; split; simpl; try done;
    try (split_and!; simpl; try apply NoDup_nil_2; by intros a c ?%elem_of_nil);
    try (by intros c i; rewrite lookup_nil);
    try (by intros c i m; rewrite lookup_nil);
    by intros e ?%elem_of_nil.
Qed.

Lemma reachable_sound st : reachable st → sound st.
Proof. intros (configs & evs & ->). apply run_sound, new_service_sound. Qed.

Lemma run_accountConfigs st evs : accountConfigs (run st evs) = accountConfigs st.
Proof.
  revert st. induction evs as [|ev evs IH]; intros st; simpl; [done|].
  rewrite IH. clear IH.
  assert (Hk : ∀ st', keeps st st' → accountConfigs st' = accountConfigs st).
  { by intros st' (? & _). }
  destruct ev as [| |imap|imap err|imap|imap n|imap res|imap res|imap f ev|t|imap b|imap error]; simpl.
  - by destruct (connect_all (accountConfigs st) st) as (_ & _ & _ & _ & _ & _ & _ & ? & _).
  - unfold stopSync. simpl. generalize (accounts st). intros entries. revert st Hk.
    induction entries as [|[a c] entries IH]; intros st Hk; simpl; [done|].
    rewrite IH; [|by intros st' (? & _)].
    by destruct (stopAccount_spec st a c) as (_ & _ & _ & ? & _).
  - destruct (heap st !! imap) as [i|]; [|done]. destruct (onReady i); [|done].
    by destruct (onImapReady_keeps (user (config i)) imap (modify imap clear_onReady st))
      as (-> & _).
  - destruct (heap st !! imap) as [i|]; [|done]. destruct (onError i); [|done].
    by destruct (onImapError_keeps (user (config i)) err (modify imap clear_onError st))
      as (-> & _).
  - destruct (heap st !! imap) as [i|]; [|done]. destruct (onEnd i); [|done].
    by destruct (onImapEnd_keeps (user (config i)) (modify imap clear_onEnd st))
      as (-> & _).
  - apply Hk, onMail_keeps.
  - destruct (heap st !! imap) as [i|]; [|done]. destruct (phase i); try done.
    apply Hk, onOpenBox_keeps.
  - destruct (heap st !! imap) as [i|]; [|done]. destruct (phase i); try done.
    apply Hk, onSearch_keeps.
  - destruct (onFetchEvent_cases imap f ev st)
      as [Hk'|(i & fetch & fetch' & o & _ & _ & _ & (-> & _))]; [by apply Hk|].
    by destruct (apply_effects_fields
                   (modify imap (λ i, set_fetches (<[f := fetch']> (fetches i)) i) st)
                   (effects o)) as (-> & _).
  - unfold onTimer. destruct (timers st !! t) as [tm|]; [|done].
    destruct (action tm) as [accountId|cfg|accountId imap].
    + by destruct (find_config accountId _).
    + done.
    + by destruct (onWatchdog_keeps accountId imap (clearTimeout t st)) as (-> & _).
  - done.
  - done.
Qed.

End FrameFacts.

(** ** What holds in every state the service reaches *)
Section ReachableExtras.
Context `{!Libraries}.
Import Normalizer Batcher Service Invariants Observations Registry Frames.

(** Whatever the events and their order, a record the service emits
    belongs to one of the configured accounts, lies in [INBOX], is
    [Uncategorized], has a non-empty subject and body and every other
    field [EmailDocument] requires, and its attachments, if any, are
    named. *)
Theorem records_of_the_service_are_complete configs evs e :
  e ∈ emails (run (new_service configs) evs) →
  (∃ cfg, cfg ∈ configs ∧ Email.accountId e = user cfg)
  ∧ Email.folder e = "INBOX"
  ∧ Email.aiCategory e = Uncategorized
  ∧ (∃ s b f t c bc d,
       Email.subject e = Some s ∧ s ≠ "" ∧ Email.body e = Some b ∧ b ≠ ""
       ∧ Email.from e = Some f ∧ Email.to e = Some t ∧ Email.cc e = Some c
       ∧ Email.bcc e = Some bc ∧ Email.date e = Some d)
  ∧ (Email.attachments e = None
     ∨ ∃ l, Email.attachments e = Some l ∧ l ≠ [] ∧ ∀ a, a ∈ l → filename a ≠ "").
Proof.
  intros He.
  pose proof (run_sound _ evs (new_service_sound configs)) as Hs.
  apply (sound_records _ Hs) in He. rewrite run_accountConfigs in He.
  assert (Hc : accountConfigs (new_service configs) = configs).
  { unfold new_service. by case_bool_decide. }
  rewrite Hc in He. destruct He as (Ha & Hf & Hcat & Hfields & Hat).
  split_and!; try done.
  unfold attachments_named in Hat. destruct (Email.attachments e) as [l|]; [|by left].
  right. exists l. destruct Hat as [Hne Hall]. split_and!; try done.
  by apply Forall_forall.
Qed.

Lemma step_emails st ev :
  ∃ l, emails (step st ev) = emails st ++ l
       ∧ length l ≤ (if is_message_end ev then 1 else 0).
Proof.
  assert (Hk : ∀ st', keeps st st' →
            ∃ l, emails st' = emails st ++ l ∧ length l ≤ 0).
  { intros st' (_ & _ & -> & _). exists []. by rewrite app_nil_r. }
  assert (Hk' : ∀ st', keeps st st' →
            ∃ l, emails st' = emails st ++ l
                 ∧ length l ≤ (if is_message_end ev then 1 else 0)).
  { intros st' (l & -> & Hl)%Hk. exists l. split; [done|]. destruct (is_message_end ev); lia. }
  destruct ev as [| |imap|imap err|imap|imap n|imap res|imap res|imap f ev|t|imap b|imap error].
  - simpl. exists []. rewrite app_nil_r. split; [|simpl; lia].
    by destruct (connect_all (accountConfigs st) st) as (_ & _ & ? & _).
  - simpl. exists []. rewrite app_nil_r. split; [|simpl; lia]. unfold stopSync. simpl.
    by destruct (stop_all (accounts st) st) as (? & _).
  - apply Hk. simpl.
    destruct (heap st !! imap) as [i|]; [|apply keeps_refl]. destruct (onReady i); [|apply keeps_refl].
    eapply keeps_trans; [|apply onImapReady_keeps]. by apply keeps_modify.
  - apply Hk. simpl.
    destruct (heap st !! imap) as [i|]; [|apply keeps_refl]. destruct (onError i); [|apply keeps_refl].
    eapply keeps_trans; [|apply onImapError_keeps]. by apply keeps_modify.
  - apply Hk. simpl.
    destruct (heap st !! imap) as [i|]; [|apply keeps_refl]. destruct (onEnd i); [|apply keeps_refl].
    eapply keeps_trans; [|apply onImapEnd_keeps]. by apply keeps_modify.
  - apply Hk, onMail_keeps.
  - apply Hk. simpl. destruct (heap st !! imap) as [i|]; [|apply keeps_refl].
    destruct (phase i); try apply keeps_refl. apply onOpenBox_keeps.
  - apply Hk. simpl. destruct (heap st !! imap) as [i|]; [|apply keeps_refl].
    destruct (phase i); try apply keeps_refl. apply onSearch_keeps.
  - change (step st (EvFetch imap f ev)) with (onFetchEvent imap f ev st).
    destruct (onFetchEvent_cases imap f ev st)
      as [Hkeep|(i & fetch & fetch' & o & Hi & Hf & Hstep & (_ & _ & -> & _))];
      [by apply (Hk' _ Hkeep)|].
    destruct (apply_effects_fields
                (modify imap (λ i, set_fetches (<[f := fetch']> (fetches i)) i) st)
                (effects o)) as (_ & _ & _ & _ & ->).
    exists (emitted (effects o)). split; [done|].
    destruct (fetch_step_msgs _ _ _ _ _ _ Hstep)
      as [[_ ->]|[(seq & uuid & now & _ & ->)|(j & mev & m0 & m' & fx & ran
                                                & -> & Hj & Hms & _ & ->)]];
      [simpl; destruct (is_message_end _); lia|simpl; destruct (is_message_end _); lia|].
    apply msg_step_emits in Hms as (-> & _ & -> & _).
    destruct mev; simpl; try lia. destruct (endOnce m0 && complete (email m0)); simpl; lia.
  - simpl. unfold onTimer. destruct (timers st !! t) as [tm|]; [|exists []; by rewrite app_nil_r].
    destruct (action tm) as [accountId|cfg|accountId imap].
    + destruct (find_config accountId _); exists []; by rewrite app_nil_r.
    + exists []. by rewrite app_nil_r.
    + destruct (onWatchdog_keeps accountId imap (clearTimeout t st)) as (_ & _ & -> & _).
      exists []. by rewrite app_nil_r.
  - apply Hk. by apply keeps_modify.
  - apply Hk. by apply keeps_modify.
Qed.

(** The service emits only when a message of a fetch ends, and then at
    most one record: over any sequence of events, the records already
    emitted stay, in order, and the number of new ones is at most the
    number of ['end'] events of messages in the sequence.  No other event
    (a timeout, an error, a header, a parsed body, the end of a fetch)
    emits. *)
Theorem service_emits_at_message_end st evs :
  ∃ l, emails (run st evs) = emails st ++ l
       ∧ length l ≤ length (filter (λ ev, is_message_end ev = true) evs).
Proof.
  revert st. induction evs as [|ev evs IH]; intros st; simpl.
  { exists []. by rewrite app_nil_r. }
  destruct (step_emails st ev) as (l1 & H1 & Hl1).
  destruct (IH (step st ev)) as (l2 & H2 & Hl2).
  exists (l1 ++ l2). change (run st (ev :: evs)) with (run (step st ev) evs).
  rewrite H2, H1, app_assoc. split; [done|].
  rewrite length_app, filter_cons. destruct (is_message_end ev) eqn:Hev.
  - rewrite decide_True by done. simpl. lia.
  - rewrite decide_False by done. lia.
Qed.

(** In every state the service reaches, the account map is well formed:
    an account has one entry, its connection object exists, was created
    from a configuration of that user, and serves no other account; and
    every connection object, registered or not, was created from one of
    the configured accounts. *)
Theorem accounts_are_registered_to_their_connections st :
  reachable st →
  NoDup (accounts st).*1
  ∧ NoDup (accounts st).*2
  ∧ (∀ a c, (a, c) ∈ accounts st → ∃ i, heap st !! c = Some i ∧ user (config i) = a)
  ∧ (∀ c i, heap st !! c = Some i → config i ∈ accountConfigs st).
Proof.
  intros [_ (Hk & Hv & Hreg) Hc _ _]%reachable_sound. by split_and!.
Qed.

(** In every state the service reaches, a pending timeout is either a
    reconnection armed 30 seconds after an ['error'] event or a 29-minute
    IDLE watchdog: the reconnection of the ['end'] handler is never
    pending. *)
Theorem pending_timeouts_are_reconnections_or_watchdogs st t tm :
  reachable st →
  timers st !! t = Some tm →
  (∃ accountId, tm = {| delay := 30000; action := ReconnectAfterError accountId |})
  ∨ (∃ accountId imap, tm = {| delay := 1740000; action := Watchdog accountId imap |}).
Proof.
  intros Hs%reachable_sound Ht. exact (sound_timers st Hs t tm Ht).
Qed.

End ReachableExtras.

Section ReachableExtraRuns.
Import Normalizer Batcher Service Invariants Observations Registry Frames Fixture Scenarios.
#[local] Existing Instance Fixture.libs.

Lemma records_of_the_service_are_complete_witness :
  let st := run (new_service [alice]) one_delivery in
  ∃ e, emails st = [e]
       ∧ (∃ cfg, cfg ∈ [alice] ∧ Email.accountId e = user cfg)
       ∧ Email.folder e = "INBOX"
       ∧ Email.aiCategory e = Uncategorized
       ∧ (∃ s b f t c bc d,
            Email.subject e = Some s ∧ s ≠ "" ∧ Email.body e = Some b ∧ b ≠ ""
            ∧ Email.from e = Some f ∧ Email.to e = Some t ∧ Email.cc e = Some c
            ∧ Email.bcc e = Some bc ∧ Email.date e = Some d)
       ∧ (Email.attachments e = None
          ∨ ∃ l, Email.attachments e = Some l ∧ l ≠ [] ∧ ∀ a, a ∈ l → filename a ≠ "").
Proof.
  intros st.
  set (e := default (new_email "" "" 0%Z) (head (emails st))).
  assert (He : emails st = [e]) by (by vm_compute).
  exists e. split; [exact He|].
  apply (records_of_the_service_are_complete (H := Fixture.libs) [alice] one_delivery e).
  change (e ∈ emails st). rewrite He. by apply list_elem_of_singleton.
Defined.

Lemma accounts_are_registered_to_their_connections_witness :
  reachable idling
  ∧ NoDup (accounts idling).*1
  ∧ NoDup (accounts idling).*2
  ∧ (∀ a c, (a, c) ∈ accounts idling →
       ∃ i, heap idling !! c = Some i ∧ user (config i) = a)
  ∧ (∀ c i, heap idling !! c = Some i → config i ∈ accountConfigs idling).
Proof.
  assert (Hr : reachable idling).
  { by exists [alice], [CallStartSync; EvReady 0; EvOpenBox 0 (inr 10%Z); EvSearch 0 (inr [])]. }
  split; [exact Hr|].
  exact (accounts_are_registered_to_their_connections (H := Fixture.libs) idling Hr).
Defined.

Lemma pending_timeouts_are_reconnections_or_watchdogs_witness :
  reachable idling
  ∧ timers idling !! 0 = Some watchdog
  ∧ ((∃ accountId, watchdog = {| delay := 30000; action := ReconnectAfterError accountId |})
     ∨ (∃ accountId imap,
          watchdog = {| delay := 1740000; action := Watchdog accountId imap |})).
Proof.
  assert (Hr : reachable idling).
  { by exists [alice], [CallStartSync; EvReady 0; EvOpenBox 0 (inr 10%Z); EvSearch 0 (inr [])]. }
  assert (Ht : timers idling !! 0 = Some watchdog) by (by vm_compute).
  split; [exact Hr|]. split; [exact Ht|].
  exact (pending_timeouts_are_reconnections_or_watchdogs (H := Fixture.libs)
           idling 0 watchdog Hr Ht).
Defined.

End ReachableExtraRuns.

(** ** The batches of the initial sync are fetched once, in order *)
Section BatchOrderFacts.
Context `{!Libraries}.
Import Normalizer Batcher Service Invariants Observations Registry Frames BatchOrder.

Lemma batch_indices_app fs gs :
  batch_indices (fs ++ gs) = batch_indices fs ++ batch_indices gs.
Proof. apply omap_app. Qed.

Lemma batch_indices_new_mail extra :
  Forall (λ f, owner f = OfNewMail) extra → batch_indices extra = [].
Proof.
  induction 1 as [|f extra Hf _ IH]; [done|].
  unfold batch_indices in *. simpl. unfold batch_index at 1. by rewrite Hf.
Qed.

Lemma batch_indices_insert fs j f f' :
  fs !! j = Some f → batch_index f' = batch_index f →
  batch_indices (<[j := f']> fs) = batch_indices fs.
Proof.
  revert j. induction fs as [|g fs IH]; intros [|j] Hj Hb; simpl in *; try done.
  - injection Hj as ->. unfold batch_indices. simpl. by rewrite Hb.
  - unfold batch_indices in *. simpl. by rewrite (IH j).
Qed.

Lemma batch_index_elem fs f k :
  f ∈ fs → batch_index f = Some k → k ∈ batch_indices fs.
Proof. intros Hin Hk. apply list_elem_of_omap. by exists f. Qed.

(** Two fetch objects of the same batch are the same object. *)
Lemma batch_index_position fs j1 j2 f1 f2 k :
  NoDup (batch_indices fs) →
  fs !! j1 = Some f1 → fs !! j2 = Some f2 →
  batch_index f1 = Some k → batch_index f2 = Some k → j1 = j2.
Proof.
  revert j1 j2. induction fs as [|g fs IH]; intros j1 j2 Hnd H1 H2 Hk1 Hk2; [done|].
  unfold batch_indices in Hnd. simpl in Hnd.
  destruct j1 as [|j1], j2 as [|j2]; simpl in *; try done.
  - injection H1 as ->. rewrite Hk1 in Hnd. apply NoDup_cons in Hnd as [Hnot _].
    destruct Hnot. apply (batch_index_elem fs f2); [by eapply list_elem_of_lookup_2|done].
  - injection H2 as ->. rewrite Hk2 in Hnd. apply NoDup_cons in Hnd as [Hnot _].
    destruct Hnot. apply (batch_index_elem fs f1); [by eapply list_elem_of_lookup_2|done].
  - f_equal. apply (IH j1 j2); try done.
    destruct (batch_index g); [by apply NoDup_cons in Hnd as [_ ?]|done].
Qed.

Lemma in_order_new_mail fs extra :
  in_order fs → Forall (λ f, owner f = OfNewMail) extra → in_order (fs ++ extra).
Proof.
  intros (n & Hn & Hdone) Hx. exists n. split.
  - by rewrite batch_indices_app, (batch_indices_new_mail extra), app_nil_r.
  - intros f k [Hin|Hin]%elem_of_app Hk Hlt; [by eapply Hdone|].
    rewrite Forall_forall in Hx. unfold batch_index in Hk. by rewrite (Hx f Hin) in Hk.
Qed.

Lemma only_new_mail_refl st : only_new_mail st st.
Proof. intros c i Hi. exists i, []. by rewrite app_nil_r. Qed.

Lemma only_new_mail_trans st1 st2 st3 :
  only_new_mail st1 st2 → only_new_mail st2 st3 → only_new_mail st1 st3.
Proof.
  intros H12 H23 c i3 Hi3.
  destruct (H23 c i3 Hi3) as (i2 & x2 & Hi2 & Hf2 & Hx2).
  destruct (H12 c i2 Hi2) as (i1 & x1 & Hi1 & Hf1 & Hx1).
  exists i1, (x1 ++ x2). split; [done|]. rewrite Hf2, Hf1, app_assoc.
  split; [done|]. by apply Forall_app.
Qed.

Lemma only_new_mail_modify c g st :
  (∀ i, fetches (g i) = fetches i) → only_new_mail st (modify c g st).
Proof.
  intros Hg c' i'. simpl. destruct (decide (c = c')) as [<-|Hne].
  - rewrite list_lookup_alter_eq. destruct (heap st !! c) as [i|]; simpl; [|done].
    intros [= <-]. exists i, []. by rewrite app_nil_r, Hg.
  - rewrite list_lookup_alter_ne by done. intros Hi. exists i', []. by rewrite app_nil_r.
Qed.

(** The handlers that leave every initial sync alone. *)
Lemma evolves_only_new_mail st st' :
  state_evolves st st' → keeps st st' → only_new_mail st st'.
Proof.
  intros [_ Hev] (_ & _ & _ & _ & Hl & _) c i' Hi'.
  destruct (lookup_lt_is_Some_2 (heap st) c) as [i Hi].
  { rewrite <- Hl. by eapply lookup_lt_Some. }
  specialize (Hev c). rewrite Hi in Hev. destruct Hev as (i'' & Hi'' & Hev).
  rewrite Hi' in Hi''. injection Hi'' as <-.
  destruct Hev as (_ & _ & _ & _ & extra & Hf & Hx). by exists i, extra.
Qed.

Lemma reject_only_new_mail accountId imap err st :
  only_new_mail st (reject accountId imap err st).
Proof. apply evolves_only_new_mail; [apply reject_evolves|apply reject_keeps]. Qed.

Lemma resolve_only_new_mail accountId imap st :
  only_new_mail st (resolve accountId imap st).
Proof. apply evolves_only_new_mail; [apply resolve_evolves|apply resolve_keeps]. Qed.

Lemma startIdleMode_only_new_mail accountId imap st :
  only_new_mail st (startIdleMode accountId imap st).
Proof.
  apply evolves_only_new_mail; [apply startIdleMode_evolves|apply startIdleMode_keeps].
Qed.

Lemma only_new_mail_same st st' : heap st' = heap st → only_new_mail st st'.
Proof. intros Hh c i'. rewrite Hh. intros Hi. exists i', []. by rewrite app_nil_r. Qed.

Lemma initialSync_only_new_mail accountId imap st :
  only_new_mail st (initialSync accountId imap st).
Proof.
  unfold initialSync. destruct (thrown imap st).
  - eapply only_new_mail_trans; [|apply reject_only_new_mail]. by apply only_new_mail_same.
  - eapply only_new_mail_trans; apply only_new_mail_modify; done.
Qed.

Lemma onOpenBox_only_new_mail accountId imap res st :
  only_new_mail st (onOpenBox accountId imap res st).
Proof.
  unfold onOpenBox. destruct res as [err|total].
  - eapply only_new_mail_trans; [|apply reject_only_new_mail].
    eapply only_new_mail_trans; [apply (only_new_mail_modify imap (set_phase PNone)); done|].
    by apply only_new_mail_same.
  - destruct (thrown imap _).
    + eapply only_new_mail_trans; [|apply only_new_mail_modify; done].
      eapply only_new_mail_trans; [apply (only_new_mail_modify imap (set_box (Some total))); done|].
      by apply only_new_mail_same.
    + eapply only_new_mail_trans; [|apply only_new_mail_modify; done].
      eapply only_new_mail_trans; [|apply only_new_mail_modify; done].
      eapply only_new_mail_trans; [apply (only_new_mail_modify imap (set_box (Some total))); done|].
      by apply only_new_mail_same.
Qed.

(** *** The invariant *)

Lemma ordered_only_new_mail st st' : ordered st → only_new_mail st st' → ordered st'.
Proof.
  intros Ho Hm c i' Hi'. destruct (Hm c i' Hi') as (i & extra & Hi & Hf & Hx).
  rewrite Hf. apply in_order_new_mail; [by eapply Ho|done].
Qed.

Lemma in_order_nil : in_order [].
Proof. exists 0. split; [done|]. by intros f k ?%elem_of_nil. Qed.

Lemma connectAccount_ordered cfg st : ordered st → ordered (connectAccount cfg st).
Proof.
  intros Ho c i. rewrite connectAccount_heap.
  intros [Hi|[_ Hi]]%lookup_app_Some; [by eapply Ho|].
  apply list_lookup_singleton_Some in Hi as [_ <-]. apply in_order_nil.
Qed.

Lemma processBatch_ordered accountId imap k st :
  ordered st →
  (∀ i, heap st !! imap = Some i →
     batch_indices (fetches i) = seq 0 k ∧ ∀ f, f ∈ fetches i → batch_done f) →
  ordered (processBatch accountId imap k st).
Proof.
  intros Ho Hpre. unfold processBatch. destruct (heap st !! imap) as [i|] eqn:Hi; [|done].
  destruct (batches i !! k) as [batch|].
  2:{ eapply ordered_only_new_mail; [done|apply resolve_only_new_mail]. }
  destruct (throwing i); [done|].
  destruct (Hpre i eq_refl) as [Hidx Hdone].
  intros c i'. simpl. rewrite list_alter_alter_eq.
  destruct (decide (imap = c)) as [<-|Hne].
  - rewrite list_lookup_alter_eq, Hi. simpl. intros [= <-]. simpl.
    exists (S k). split.
    + rewrite batch_indices_app, Hidx, seq_S. done.
    + intros f k' [Hin|Hin]%elem_of_app Hk' Hlt; [by apply Hdone|].
      apply list_elem_of_singleton in Hin as ->. injection Hk' as <-. lia.
  - rewrite list_lookup_alter_ne by done. apply Ho.
Qed.

Lemma onSearch_ordered accountId imap res st :
  Inv st → ordered st →
  (∀ i, heap st !! imap = Some i → phase i = PSearch) →
  ordered (onSearch accountId imap res st).
Proof.
  intros HI Ho Hph. unfold onSearch. destruct res as [err|results].
  - eapply ordered_only_new_mail; [done|].
    eapply only_new_mail_trans; [|apply reject_only_new_mail].
    eapply only_new_mail_trans; [apply (only_new_mail_modify imap (set_phase PNone)); done|].
    by apply only_new_mail_same.
  - case_bool_decide.
    + eapply ordered_only_new_mail; [done|].
      eapply only_new_mail_trans; [|apply resolve_only_new_mail].
      eapply only_new_mail_trans; [|apply only_new_mail_modify; done].
      by apply only_new_mail_same.
    + apply processBatch_ordered.
      * eapply ordered_only_new_mail; [done|].
        eapply only_new_mail_trans; [|apply only_new_mail_modify; done].
        eapply only_new_mail_trans; [|apply only_new_mail_modify; done].
        by apply only_new_mail_same.
      * intros i2. simpl. rewrite list_alter_alter_eq, list_lookup_alter_eq.
        destruct (heap st !! imap) as [i|] eqn:Hi; simpl; [|done]. intros [= <-]. simpl.
        assert (Hall : ∀ f, f ∈ fetches i → owner f = OfNewMail).
        { apply (inv_no_batch i (HI imap i Hi)). by rewrite (Hph i eq_refl). }
        split.
        -- apply batch_indices_new_mail. by apply Forall_forall.
        -- intros f Hf. unfold batch_done. by rewrite (Hall f Hf).
Qed.

Lemma fetch_step_batch_index accountId total f ev f' o :
  fetch_step accountId total f ev = (f', o) →
  batch_index f' = batch_index f ∧ (batch_done f → batch_done f').
Proof.
  intros Hstep. unfold batch_index, batch_done. destruct (owner f) as [k b pc|] eqn:Ho.
  - destruct (fetch_step_batch _ _ _ _ _ _ _ _ _ Hstep Ho) as (pc' & -> & Hle & _).
    split; [done|lia].
  - by destruct (fetch_step_owner_new_mail _ _ _ _ _ _ Hstep Ho) as [-> _].
Qed.

Lemma onFetchEvent_ordered imap f ev st : ordered st → ordered (onFetchEvent imap f ev st).
Proof.
  intros Ho. unfold onFetchEvent. destruct (heap st !! imap) as [i|] eqn:Hi; [|done].
  destruct (fetches i !! f) as [fetch|] eqn:Hf; [|done].
  destruct (fetch_step _ _ fetch ev) as [fetch' o] eqn:Hstep.
  destruct (fetch_step_batch_index _ _ _ _ _ _ Hstep) as [Hidx Hmono].
  destruct (Ho imap i Hi) as (n & Hn & Hdone).
  set (i1 := set_fetches (<[f := fetch']> (fetches i)) i).
  set (st2 := foldl apply_effect
                (modify imap (λ i, set_fetches (<[f := fetch']> (fetches i)) i) st)
                (effects o)).
  assert (Hi2 : heap st2 !! imap = Some i1).
  { unfold st2. rewrite apply_effects_heap. simpl. by rewrite list_lookup_alter_eq, Hi. }
  assert (Hother : ∀ c, c ≠ imap → heap st2 !! c = heap st !! c).
  { intros c Hc. unfold st2. rewrite apply_effects_heap. simpl.
    by rewrite list_lookup_alter_ne. }
  assert (Hn1 : batch_indices (fetches i1) = seq 0 n).
  { unfold i1. simpl. by rewrite (batch_indices_insert _ _ fetch). }
  assert (Hpos : ∀ g, g ∈ fetches i1 →
            g = fetch' ∨ ∃ j, j ≠ f ∧ fetches i !! j = Some g).
  { intros g [j Hj]%list_elem_of_lookup. unfold i1 in Hj. simpl in Hj.
    destruct (decide (f = j)) as [<-|Hne].
    - rewrite list_lookup_insert_eq in Hj by (by eapply lookup_lt_Some).
      left. by injection Hj as <-.
    - rewrite list_lookup_insert_ne in Hj by done. right. by exists j. }
  assert (Ho2 : ordered st2).
  { intros c i'. destruct (decide (c = imap)) as [->|Hne].
    - rewrite Hi2. intros [= <-]. exists n. split; [done|].
      intros g k Hg Hk Hlt. destruct (Hpos g Hg) as [->|(j & _ & Hj)].
      + apply Hmono. apply (Hdone fetch k); [by eapply list_elem_of_lookup_2|congruence|done].
      + apply (Hdone g k); [by eapply list_elem_of_lookup_2|done|done].
    - rewrite Hother by done. apply Ho. }
  destruct (signal o) as [[k1|err|]|] eqn:Hsig.
  - pose proof (fetch_step_request _ _ _ _ _ _ Hstep) as [_ Hreq]. rewrite Hsig in Hreq.
    destruct Hreq as (k & b & pc & Hown & Hown' & Hlen & ->).
    assert (Hk : batch_index fetch = Some k) by (unfold batch_index; by rewrite Hown).
    assert (Hin : k ∈ seq 0 n).
    { rewrite <- Hn. apply (batch_index_elem _ fetch); [by eapply list_elem_of_lookup_2|done]. }
    apply elem_of_seq in Hin.
    assert (Hlast : n = k + 1).
    { destruct (decide (S k < n)) as [Hlt|Hge]; [|lia].
      pose proof (Hdone fetch k (list_elem_of_lookup_2 _ _ _ Hf) Hk Hlt) as Hd.
      unfold batch_done in Hd. rewrite Hown in Hd. lia. }
    apply processBatch_ordered; [done|]. rewrite Hi2. intros i' [= <-].
    split; [by rewrite Hn1, Hlast|].
    intros g Hg. destruct (Hpos g Hg) as [->|(j & Hj & Hgj)].
    + unfold batch_done. rewrite Hown'. lia.
    + destruct (batch_index g) as [kg|] eqn:Hkg.
      2:{ unfold batch_done. unfold batch_index in Hkg. by destruct (owner g). }
      assert (Hing : kg ∈ seq 0 n).
      { rewrite <- Hn. apply (batch_index_elem _ g); [by eapply list_elem_of_lookup_2|done]. }
      apply elem_of_seq in Hing.
      destruct (decide (S kg < n)) as [Hlt|Hge].
      * apply (Hdone g kg); [by eapply list_elem_of_lookup_2|done|done].
      * assert (kg = k) as -> by lia. destruct Hj.
        apply (batch_index_position (fetches i) j f g fetch k); try done.
        rewrite Hn. apply NoDup_seq.
  - eapply ordered_only_new_mail; [done|apply reject_only_new_mail].
  - eapply ordered_only_new_mail; [done|apply startIdleMode_only_new_mail].
  - done.
Qed.

Lemma stopSync_only_new_mail st : only_new_mail st (stopSync st).
Proof.
  unfold stopSync.
  assert (Hall : ∀ entries st, only_new_mail st (foldl stopAccount st entries)).
  { induction entries as [|e entries IH]; intros st0; simpl; [apply only_new_mail_refl|].
    eapply only_new_mail_trans; [|apply IH].
    apply evolves_only_new_mail; [apply stopAccount_evolves|apply stopAccount_keeps]. }
  eapply only_new_mail_trans; [apply (Hall (accounts st) st)|]. by apply only_new_mail_same.
Qed.

Lemma step_ordered st ev : Inv st → ordered st → ordered (step st ev).
Proof.
  intros HI Ho.
  destruct ev as [| |imap|imap err|imap|imap n|imap res|imap res|imap f ev|t|imap b|imap error];
    simpl.
  - unfold startSync. generalize (accountConfigs st). intros cfgs. revert st HI Ho.
    induction cfgs as [|cfg cfgs IH]; intros st HI Ho; simpl; [done|].
    apply IH; [|by apply connectAccount_ordered].
    eapply state_evolves_Inv; [done|apply connectAccount_evolves].
  - eapply ordered_only_new_mail; [done|apply stopSync_only_new_mail].
  - destruct (heap st !! imap) as [i|]; [|done]. destruct (onReady i); [|done].
    eapply ordered_only_new_mail; [done|]. unfold onImapReady.
    eapply only_new_mail_trans; [|apply initialSync_only_new_mail].
    eapply only_new_mail_trans; [apply (only_new_mail_modify imap clear_onReady); done|].
    by apply only_new_mail_same.
  - destruct (heap st !! imap) as [i|]; [|done]. destruct (onError i); [|done].
    eapply ordered_only_new_mail; [done|].
    eapply only_new_mail_trans; [apply (only_new_mail_modify imap clear_onError); done|].
    apply evolves_only_new_mail; [apply onImapError_evolves|apply onImapError_keeps].
  - destruct (heap st !! imap) as [i|]; [|done]. destruct (onEnd i); [|done].
    eapply ordered_only_new_mail; [done|].
    eapply only_new_mail_trans; [apply (only_new_mail_modify imap clear_onEnd); done|].
    apply evolves_only_new_mail; [apply onImapEnd_evolves|apply onImapEnd_keeps].
  - eapply ordered_only_new_mail; [done|].
    apply evolves_only_new_mail; [apply onMail_evolves|apply onMail_keeps].
  - destruct (heap st !! imap) as [i|]; [|done]. destruct (phase i); try done.
    eapply ordered_only_new_mail; [done|apply onOpenBox_only_new_mail].
  - destruct (heap st !! imap) as [i|] eqn:Hi; [|done]. destruct (phase i) eqn:Hp; try done.
    apply onSearch_ordered; try done. intros i'. rewrite Hi. by intros [= <-].
  - by apply onFetchEvent_ordered.
  - unfold onTimer. destruct (timers st !! t) as [tm|]; [|done].
    assert (Ho1 : ordered (clearTimeout t st)) by done.
    destruct (action tm) as [accountId|cfg|accountId imap].
    + destruct (find_config accountId _); [|done]. by apply connectAccount_ordered.
    + by apply connectAccount_ordered.
    + eapply ordered_only_new_mail; [done|].
      apply evolves_only_new_mail; [apply onWatchdog_evolves|apply onWatchdog_keeps].
  - eapply ordered_only_new_mail; [done|]. by apply only_new_mail_modify.
  - eapply ordered_only_new_mail; [done|]. by apply only_new_mail_modify.
Qed.

Lemma reachable_ordered st : reachable st → ordered st.
Proof.
  intros (configs & evs & ->).
  assert (Hrun : ∀ evs st, Inv st → ordered st → ordered (run st evs)).
  { clear evs. induction evs as [|ev evs IH]; intros st HI Ho; simpl; [done|].
    apply IH; [by apply step_Inv|by apply step_ordered]. }
  apply Hrun.
  - apply reachable_Inv. by exists configs, [].
  - intros c i. unfold new_service. case_bool_decide; simpl; by rewrite lookup_nil.
Qed.

(** In every state the service reaches, the fetch objects the initial sync
    of a connection has created are those of batches 0, 1, ..., n - 1, in
    this order and one per batch: no batch is fetched twice and none is
    skipped.  Each holds the batch of its index, and every batch but the
    last one fetched has had all its messages processed. *)
Theorem batches_are_fetched_once_in_order st c i :
  reachable st →
  heap st !! c = Some i →
  ∃ n, batch_indices (fetches i) = seq 0 n
       ∧ n ≤ length (batches i)
       ∧ ∀ f k b pc, f ∈ fetches i → owner f = OfBatch k b pc →
           batches i !! k = Some b ∧ (S k < n → length b ≤ pc).
Proof.
  intros Hr Hi.
  destruct (reachable_ordered st Hr c i Hi) as (n & Hn & Hdone).
  pose proof (reachable_Inv st Hr c i Hi) as Hinv.
  assert (Hbatch : ∀ f k b pc, f ∈ fetches i → owner f = OfBatch k b pc →
            batches i !! k = Some b).
  { intros f k b pc [j Hj]%list_elem_of_lookup Hown.
    by destruct (inv_batch i Hinv j f k b pc Hj Hown). }
  exists n. split_and!; [done| |].
  - destruct n as [|n]; [lia|].
    assert (Hin : n ∈ batch_indices (fetches i)).
    { rewrite Hn. apply elem_of_seq. lia. }
    apply list_elem_of_omap in Hin as (f & Hf & Hk).
    unfold batch_index in Hk. destruct (owner f) as [k b pc|] eqn:Hown; [|done].
    injection Hk as ->. apply (Hbatch f n b pc Hf) in Hown.
    apply lookup_lt_Some in Hown. lia.
  - intros f k b pc Hf Hown. split; [by eapply Hbatch|]. intros Hlt.
    assert (Hk : batch_index f = Some k) by (unfold batch_index; by rewrite Hown).
    pose proof (Hdone f k Hf Hk Hlt) as Hd. unfold batch_done in Hd. by rewrite Hown in Hd.
Qed.

End BatchOrderFacts.

Section BatchOrderRuns.
Import Normalizer Batcher Service Invariants Observations Registry Frames BatchOrder.
Import Fixture Scenarios.
#[local] Existing Instance Fixture.libs.

Lemma batches_are_fetched_once_in_order_witness :
  let st := run (new_service [alice]) second_batch_events in
  reachable st
  ∧ ∃ i, heap st !! 0 = Some i
         ∧ batch_index <$> fetches i = [Some 0; Some 1]
         ∧ ∃ n, batch_indices (fetches i) = seq 0 n
                ∧ n ≤ length (batches i)
                ∧ ∀ f k b pc, f ∈ fetches i → owner f = OfBatch k b pc →
                    batches i !! k = Some b ∧ (S k < n → length b ≤ pc).
Proof.
  intros st.
  assert (Hr : reachable st) by (by exists [alice], second_batch_events).
  set (i := default (new_imap alice) (heap st !! 0)).
  assert (Hi : heap st !! 0 = Some i) by (by vm_compute).
  split; [exact Hr|]. exists i. split; [exact Hi|]. split; [by vm_compute|].
  exact (batches_are_fetched_once_in_order (H := Fixture.libs) st 0 i Hr Hi).
Defined.

End BatchOrderRuns.

(** ** IDLE starts when, and only when, the initial sync has resolved *)
Section IdleGuardFacts.
Context `{!Libraries}.
Import Normalizer Batcher Service Invariants Observations Registry Frames IdleGuard.

Lemma guards_refl st : guards st st.
Proof.
  split_and!.
  - intros c i Hi. exists i. split_and!; [done|done|by left].
  - intros c i' Hn Hs. congruence.
  - intros t tm a c Ht _. by left.
Qed.

Lemma guards_trans st1 st2 st3 : guards st1 st2 → guards st2 st3 → guards st1 st3.
Proof.
  intros (H1 & N1 & T1) (H2 & N2 & T2). split_and!.
  - intros c i1 Hi1. destruct (H1 c i1 Hi1) as (i2 & Hi2 & Hp2 & Hs2).
    destruct (H2 c i2 Hi2) as (i3 & Hi3 & Hp3 & Hs3). exists i3. split_and!; [done| |].
    + intros Hp. rewrite <- (Hp2 Hp). apply Hp3. by rewrite (Hp2 Hp).
    + intros Hs. destruct (Hs3 Hs) as [Hs'|Hr]; [|by right].
      destruct (Hs2 Hs') as [Hs''|Hr]; [by left|]. right.
      rewrite Hp3; [done|by rewrite Hr].
  - intros c i3 Hn1 Hi3 Hs. destruct (heap st2 !! c) as [i2|] eqn:Hi2; [|by eapply N2].
    destruct (H2 c i2 Hi2) as (i3' & Hi3' & Hp3 & Hs3). rewrite Hi3 in Hi3'.
    injection Hi3' as <-. destruct (Hs3 Hs) as [Hs'|Hr]; [|done].
    pose proof (N1 c i2 Hn1 Hi2 Hs') as Hr. rewrite Hp3; [done|by rewrite Hr].
  - intros t tm a c Ht Ha. destruct (T2 t tm a c Ht Ha) as [Ht2|Hr]; [|by right].
    destruct (T1 t tm a c Ht2 Ha) as [Ht1|(i2 & Hi2 & Hr)]; [by left|]. right.
    destruct (H2 c i2 Hi2) as (i3 & Hi3 & Hp3 & _). exists i3. split; [done|].
    rewrite Hp3; [done|by rewrite Hr].
Qed.

Lemma guarded_guards st st' : guarded st → guards st st' → guarded st'.
Proof.
  intros [Hg Ht] (H1 & N1 & T1). split.
  - intros c i' Hi' Hs. destruct (heap st !! c) as [i|] eqn:Hi; [|by eapply N1].
    destruct (H1 c i Hi) as (i'' & Hi'' & Hp & Hs'). rewrite Hi' in Hi''.
    injection Hi'' as <-. destruct (Hs' Hs) as [Hold|Hr]; [|done].
    pose proof (Hg c i Hi Hold) as Hr. rewrite Hp; [done|by rewrite Hr].
  - intros t tm a c Htm Ha. destruct (T1 t tm a c Htm Ha) as [Hold|Hr]; [|done].
    destruct (Ht t tm a c Hold Ha) as (i & Hi & Hr).
    destruct (H1 c i Hi) as (i' & Hi' & Hp & _). exists i'. split; [done|].
    rewrite Hp; [done|by rewrite Hr].
Qed.

Lemma resolved_guards imap st st' : resolved imap st → guards st st' → resolved imap st'.
Proof.
  intros (i & Hi & Hr) (H1 & _). destruct (H1 imap i Hi) as (i' & Hi' & Hp & _).
  exists i'. split; [done|]. rewrite Hp; [done|by rewrite Hr].
Qed.

(** A handler that leaves the connection objects and arms no watchdog. *)
Lemma guards_fields st st' :
  heap st' = heap st →
  (∀ t tm a c, timers st' !! t = Some tm → action tm = Watchdog a c →
               timers st !! t = Some tm) →
  guards st st'.
Proof.
  intros Hh Ht. split_and!.
  - intros c i Hi. exists i. rewrite Hh. split_and!; [done|done|by left].
  - intros c i'. rewrite Hh. congruence.
  - intros t tm a c Htm Ha. left. by eapply Ht.
Qed.

Lemma guards_logger l st : guards st (logger l st).
Proof. by apply guards_fields. Qed.

(** An update of one object that starts IDLE only if the object is
    resolved afterwards. *)
Lemma guards_modify_with c g st :
  (∀ i, heap st !! c = Some i →
        (promise i ≠ Pending → promise (g i) = promise i)
        ∧ (idle_started (g i) → idle_started i ∨ promise (g i) = Resolved)) →
  guards st (modify c g st).
Proof.
  intros Hg. split_and!; simpl.
  - intros c' i Hi. destruct (decide (c = c')) as [<-|Hne].
    + rewrite list_lookup_alter_eq, Hi. simpl. exists (g i). split; [done|by apply Hg].
    + rewrite list_lookup_alter_ne by done. exists i. split_and!; [done|done|by left].
  - intros c' i' Hn. destruct (decide (c = c')) as [<-|Hne].
    + by rewrite list_lookup_alter_eq, Hn.
    + rewrite list_lookup_alter_ne by done. congruence.
  - intros t tm a c' Ht _. by left.
Qed.

Lemma guards_modify c g st : inert g → guards st (modify c g st).
Proof.
  intros Hg. apply guards_modify_with. intros i _. destruct (Hg i) as [Hp Hs].
  split; [done|]. intros Hi. left. by apply Hs.
Qed.

Lemma inert_call cmd : is_idle_call cmd = false → inert (call cmd).
Proof.
  intros Hc i. split; [done|]. unfold idle_started. simpl.
  intros [Hm|[(c & [Hin|Hin]%elem_of_app & Hi)|Hf]]; eauto.
  apply list_elem_of_singleton in Hin as ->. congruence.
Qed.

Lemma inert_batch_fetch k b pc :
  inert (λ i, set_fetches (fetches i ++ [new_fetch (OfBatch k b pc)]) i).
Proof.
  intros i. split; [done|]. unfold idle_started. simpl.
  intros [Hm|[Hc|(f & [Hin|Hin]%elem_of_app & Hf)]]; eauto.
  apply list_elem_of_singleton in Hin as ->. done.
Qed.

Lemma inert_simple g :
  (∀ i, promise (g i) = promise i ∧ mailListeners (g i) = mailListeners i
        ∧ commands (g i) = commands i ∧ fetches (g i) = fetches i) →
  inert g.
Proof.
  intros Hg i. destruct (Hg i) as (Hp & Hm & Hc & Hf). split; [done|].
  unfold idle_started. by rewrite Hm, Hc, Hf.
Qed.

(** Chains of inert updates. *)
Ltac quiet_chain :=
  repeat first
    [ apply guards_refl
    | eapply guards_trans; [|apply guards_logger]
    | eapply guards_trans;
      [|apply guards_modify;
        first [ apply inert_batch_fetch
              | by apply inert_call
              | by apply inert_simple ] ] ].

Lemma cleanupConnection_guards accountId st : guards st (cleanupConnection accountId st).
Proof.
  unfold cleanupConnection. simpl.
  destruct (watchdogTimers st !! accountId) as [timer|]; apply guards_fields; simpl; try done.
  by intros t tm a c [_ Ht]%lookup_delete_Some _.
Qed.

Lemma onImapError_guards accountId err st : guards st (onImapError accountId err st).
Proof.
  unfold onImapError.
  eapply guards_trans; [eapply guards_trans; [apply guards_logger|apply cleanupConnection_guards]|].
  apply guards_fields; simpl; try done.
  intros t tm a c [[_ <-]|[_ Ht]]%lookup_insert_Some Ha; [done|done].
Qed.

Lemma onImapEnd_guards accountId st : guards st (onImapEnd accountId st).
Proof.
  unfold onImapEnd. rewrite active_cleanupConnection.
  eapply guards_trans; [apply guards_logger|apply cleanupConnection_guards].
Qed.

Lemma restartIdle_guards accountId imap st :
  resolved imap st → guards st (restartIdle accountId imap st).
Proof.
  intros (i & Hi & Hr). unfold restartIdle. destruct (active accountId st); [|apply guards_refl].
  destruct (thrown imap st); [apply guards_logger|].
  eapply guards_trans.
  { apply (guards_modify_with imap (call CmdIdle)). intros i'. rewrite Hi. intros [= <-].
    split; [done|]. intros _. by right. }
  split_and!; simpl.
  - intros c i' Hi'. exists i'. split_and!; [done|done|by left].
  - intros c i'. congruence.
  - intros t tm a c [[_ <-]|[_ Ht]]%lookup_insert_Some Ha; [|by left].
    right. injection Ha as <- <-. exists (call CmdIdle i). split; [|done].
    simpl. by rewrite list_lookup_alter_eq, Hi.
Qed.

Lemma startIdleMode_guards accountId imap st :
  resolved imap st → guards st (startIdleMode accountId imap st).
Proof.
  intros (i & Hi & Hr). unfold startIdleMode.
  eapply guards_trans; [|apply restartIdle_guards].
  - eapply guards_trans; [apply guards_logger|].
    apply (guards_modify_with imap add_mail_listener). simpl. intros i'. rewrite Hi.
    intros [= <-]. split; [done|]. intros _. by right.
  - exists (add_mail_listener i). split; [|done]. simpl.
    by rewrite list_lookup_alter_eq, Hi.
Qed.

Lemma onWatchdog_guards accountId imap st :
  resolved imap st → guards st (onWatchdog accountId imap st).
Proof.
  intros (i & Hi & Hr). unfold onWatchdog. destruct (thrown imap _); [quiet_chain|].
  eapply guards_trans; [|apply restartIdle_guards].
  - eapply guards_trans; [apply guards_logger|].
    apply (guards_modify_with imap (call CmdIdleStop)). simpl. intros i'. rewrite Hi.
    intros [= <-]. split; [done|]. intros _. by right.
  - exists (call CmdIdleStop i). split; [|done]. simpl.
    by rewrite list_lookup_alter_eq, Hi.
Qed.

Lemma fetchNewEmails_guards accountId imap n st :
  resolved imap st → guards st (fetchNewEmails accountId imap n st).
Proof.
  intros Hres. pose proof Hres as (i & Hi & Hr). unfold fetchNewEmails.
  destruct (thrown imap st).
  { eapply guards_trans; [apply guards_logger|]. apply startIdleMode_guards.
    by exists i. }
  assert (H1 : guards st (modify imap (call CmdIdleStop) st)).
  { apply (guards_modify_with imap (call CmdIdleStop)). intros i'. rewrite Hi.
    intros [= <-]. split; [done|]. intros _. by right. }
  assert (Hres1 : resolved imap (modify imap (call CmdIdleStop) st)).
  { by eapply resolved_guards. }
  destruct (_ ≫= box) as [total|].
  - eapply guards_trans; [exact H1|]. destruct Hres1 as (i1 & Hi1 & Hr1).
    eapply guards_trans.
    { apply (guards_modify_with imap (call (CmdSeqFetch (range_text (total - n + 1) total)))).
      intros i'. rewrite Hi1. intros [= <-]. split; [done|]. intros _. by right. }
    apply guards_modify_with. intros i'. rewrite lookup_modify, Hi1. simpl.
    intros [= <-]. split; [done|]. intros _. by right.
  - eapply guards_trans; [exact H1|].
    eapply guards_trans; [apply guards_logger|]. apply startIdleMode_guards.
    destruct Hres1 as (i1 & Hi1 & Hr1). by exists i1.
Qed.

Lemma onMail_guards imap n st : guarded st → guards st (onMail imap n st).
Proof.
  intros [Hg _]. unfold onMail. destruct (heap st !! imap) as [i|] eqn:Hi; [|apply guards_refl].
  destruct (mailListeners i) as [|k] eqn:Hk; [apply guards_refl|].
  assert (Hres : resolved imap st).
  { exists i. split; [done|]. apply (Hg imap i Hi). left. lia. }
  clear Hk. generalize (S k). intros m.
  induction m as [|m IH]; simpl; [apply guards_refl|].
  eapply guards_trans; [apply IH|].
  eapply guards_trans; [apply guards_logger|]. apply fetchNewEmails_guards.
  destruct (resolved_guards imap _ _ Hres IH) as (i1 & Hi1 & Hr1). by exists i1.
Qed.

Lemma resolve_guards accountId imap st : guards st (resolve accountId imap st).
Proof.
  unfold resolve. destruct (heap st !! imap) as [i|] eqn:Hi; [|apply guards_refl].
  destruct (promise i) eqn:Hp; try apply guards_refl.
  eapply guards_trans; [|apply startIdleMode_guards].
  - apply guards_modify_with. intros i'. rewrite Hi. intros [= <-]. split.
    + by rewrite Hp.
    + intros _. by right.
  - exists (set_promise Resolved i). split; [|done]. simpl.
    by rewrite list_lookup_alter_eq, Hi.
Qed.

Lemma reject_guards accountId imap err st : guards st (reject accountId imap err st).
Proof.
  unfold reject. destruct (heap st !! imap) as [i|] eqn:Hi; [|apply guards_refl].
  destruct (promise i) eqn:Hp; try apply guards_refl.
  eapply guards_trans; [|apply guards_logger].
  apply guards_modify_with. intros i'. rewrite Hi. intros [= <-]. split.
  - by rewrite Hp.
  - intros Hs. by left.
Qed.

Lemma processBatch_guards accountId imap k st : guards st (processBatch accountId imap k st).
Proof.
  unfold processBatch. destruct (heap st !! imap) as [i|]; [|apply guards_refl].
  destruct (batches i !! k) as [batch|]; [|apply resolve_guards].
  destruct (throwing i); [apply guards_refl|]. quiet_chain.
Qed.

Lemma initialSync_guards accountId imap st : guards st (initialSync accountId imap st).
Proof.
  unfold initialSync. destruct (thrown imap st).
  - eapply guards_trans; [|apply reject_guards]. quiet_chain.
  - quiet_chain.
Qed.

Lemma onImapReady_guards accountId imap st : guards st (onImapReady accountId imap st).
Proof.
  unfold onImapReady. eapply guards_trans; [|apply initialSync_guards].
  by apply guards_fields.
Qed.

Lemma onOpenBox_guards accountId imap res st : guards st (onOpenBox accountId imap res st).
Proof.
  unfold onOpenBox. destruct res as [err|total].
  - eapply guards_trans; [|apply reject_guards]. quiet_chain.
  - destruct (thrown imap _); quiet_chain.
Qed.

Lemma onSearch_guards accountId imap res st : guards st (onSearch accountId imap res st).
Proof.
  unfold onSearch. destruct res as [err|results].
  - eapply guards_trans; [|apply reject_guards]. quiet_chain.
  - case_bool_decide.
    + eapply guards_trans; [|apply resolve_guards]. quiet_chain.
    + eapply guards_trans; [|apply processBatch_guards]. quiet_chain.
Qed.

Lemma connectAccount_guards cfg st : guards st (connectAccount cfg st).
Proof.
  pose proof (connectAccount_heap cfg st) as Hh. split_and!.
  - intros c i Hi. exists i. rewrite Hh. split_and!; [|done|by left].
    by apply lookup_app_l_Some.
  - intros c i' Hn. rewrite Hh. intros [Hi|[_ Hi]]%lookup_app_Some; [congruence|].
    apply list_lookup_singleton_Some in Hi as [_ <-]. unfold idle_started. simpl.
    intros [Hm|[(cmd & Hin & Hc)|(f & Hin & _)]].
    + lia.
    + apply list_elem_of_singleton in Hin as ->. done.
    + by apply elem_of_nil in Hin.
  - intros t tm a c Ht _. by left.
Qed.

Lemma startSync_guards st : guards st (startSync st).
Proof.
  unfold startSync. generalize (accountConfigs st). intros cfgs. revert st.
  induction cfgs as [|cfg cfgs IH]; intros st; simpl; [apply guards_refl|].
  eapply guards_trans; [apply connectAccount_guards|apply IH].
Qed.

Lemma stopAccount_guards st entry : guards st (stopAccount st entry).
Proof.
  destruct entry as [a c].
  destruct (stopAccount_spec st a c) as (_ & _ & _ & _ & _ & Ht & Hh).
  split_and!.
  - intros c' i Hi. rewrite Hh. destruct (decide (c = c')) as [<-|Hne].
    + rewrite list_lookup_alter_eq, Hi. simpl. eexists. split; [done|].
      unfold ended_by_stop. destruct (throwing i); [split; [done|by left]|].
      destruct (inert_call CmdEnd eq_refl i) as [Hp Hs]. split; [done|].
      intros Hs'. left. by apply Hs.
    + rewrite list_lookup_alter_ne by done. exists i. split_and!; [done|done|by left].
  - intros c' i' Hn. rewrite Hh. destruct (decide (c = c')) as [<-|Hne].
    + by rewrite list_lookup_alter_eq, Hn.
    + rewrite list_lookup_alter_ne by done. congruence.
  - intros t tm a' c' Htm _. left. rewrite Ht in Htm.
    destruct (watchdogTimers st !! a); [|done]. by apply lookup_delete_Some in Htm as [_ ?].
Qed.

Lemma stopSync_guards st : guards st (stopSync st).
Proof.
  unfold stopSync.
  assert (Hall : ∀ entries st, guards st (foldl stopAccount st entries)).
  { induction entries as [|e entries IH]; intros st0; simpl; [apply guards_refl|].
    eapply guards_trans; [apply stopAccount_guards|apply IH]. }
  eapply guards_trans; [apply (Hall (accounts st) st)|]. by apply guards_fields.
Qed.

Lemma onTimer_guards t st : guarded st → guards st (onTimer t st).
Proof.
  intros [_ Htimers]. unfold onTimer. destruct (timers st !! t) as [tm|] eqn:Htm; [|apply guards_refl].
  assert (H1 : guards st (clearTimeout t st)).
  { apply guards_fields; [done|]. simpl. by intros t' tm' a c [_ ?]%lookup_delete_Some _. }
  destruct (action tm) as [accountId|cfg|accountId imap] eqn:Ha.
  - destruct (find_config accountId _); [|done].
    eapply guards_trans; [exact H1|apply connectAccount_guards].
  - eapply guards_trans; [exact H1|apply connectAccount_guards].
  - eapply guards_trans; [exact H1|]. apply onWatchdog_guards.
    apply (resolved_guards imap st); [|done]. by eapply Htimers.
Qed.

Lemma onFetchEvent_guards imap f ev st : guarded st → guards st (onFetchEvent imap f ev st).
Proof.
  intros [Hg _]. unfold onFetchEvent.
  destruct (heap st !! imap) as [i|] eqn:Hi; [|apply guards_refl].
  destruct (fetches i !! f) as [fetch|] eqn:Hf; [|apply guards_refl].
  destruct (fetch_step _ _ fetch ev) as [fetch' o] eqn:Hstep.
  set (st1 := modify imap (λ i, set_fetches (<[f := fetch']> (fetches i)) i) st).
  assert (Hkind : owner fetch' = OfNewMail → owner fetch = OfNewMail).
  { destruct (owner fetch) as [k b pc|] eqn:Ho; [|done].
    destruct (fetch_step_batch _ _ _ _ _ _ _ _ _ Hstep Ho) as (pc' & -> & _). done. }
  assert (H1 : guards st st1).
  { apply guards_modify_with. intros i0. rewrite Hi. intros [= <-]. split; [done|].
    unfold idle_started. simpl. intros [Hm|[Hc|(g & Hin & Hown)]]; left.
    - by left.
    - right. by left.
    - right. right. apply list_elem_of_lookup in Hin as [j Hj].
      destruct (decide (f = j)) as [<-|Hne].
      + rewrite list_lookup_insert_eq in Hj by (by eapply lookup_lt_Some).
        injection Hj as <-. exists fetch.
        split; [by eapply list_elem_of_lookup_2|by apply Hkind].
      + rewrite list_lookup_insert_ne in Hj by done. exists g.
        split; [by eapply list_elem_of_lookup_2|done]. }
  set (st2 := foldl apply_effect st1 (effects o)).
  assert (H2 : guards st st2).
  { eapply guards_trans; [exact H1|].
    destruct (apply_effects_fields st1 (effects o)) as (_ & _ & Ht & Hh & _).
    apply guards_fields; [done|]. fold st2 in Ht. rewrite Ht. done. }
  destruct (signal o) as [[k|err|]|] eqn:Hsig.
  - eapply guards_trans; [exact H2|apply processBatch_guards].
  - eapply guards_trans; [exact H2|apply reject_guards].
  - eapply guards_trans; [exact H2|]. apply startIdleMode_guards.
    apply (resolved_guards imap st); [|done]. exists i. split; [done|].
    apply (Hg imap i Hi). right. right. exists fetch.
    split; [by eapply list_elem_of_lookup_2|].
    pose proof (fetch_step_request _ _ _ _ _ _ Hstep) as [_ Hreq].
    rewrite Hsig in Hreq. by destruct Hreq as (? & _).
  - exact H2.
Qed.

Lemma step_guards st ev : guarded st → guards st (step st ev).
Proof.
  intros Hg.
  destruct ev as [| |imap|imap err|imap|imap n|imap res|imap res|imap f ev|t|imap b|imap error];
    simpl.
  - apply startSync_guards.
  - apply stopSync_guards.
  - destruct (heap st !! imap) as [i|]; [|apply guards_refl].
    destruct (onReady i); [|apply guards_refl].
    eapply guards_trans; [|apply onImapReady_guards]. by apply guards_modify, inert_simple.
  - destruct (heap st !! imap) as [i|]; [|apply guards_refl].
    destruct (onError i); [|apply guards_refl].
    eapply guards_trans; [|apply onImapError_guards]. by apply guards_modify, inert_simple.
  - destruct (heap st !! imap) as [i|]; [|apply guards_refl].
    destruct (onEnd i); [|apply guards_refl].
    eapply guards_trans; [|apply onImapEnd_guards]. by apply guards_modify, inert_simple.
  - by apply onMail_guards.
  - destruct (heap st !! imap) as [i|]; [|apply guards_refl].
    destruct (phase i); try apply guards_refl. apply onOpenBox_guards.
  - destruct (heap st !! imap) as [i|]; [|apply guards_refl].
    destruct (phase i); try apply guards_refl. apply onSearch_guards.
  - by apply onFetchEvent_guards.
  - by apply onTimer_guards.
  - by apply guards_modify, inert_simple.
  - by apply guards_modify, inert_simple.
Qed.

Lemma run_guards st evs : guarded st → guards st (run st evs) ∧ guarded (run st evs).
Proof.
  revert st. induction evs as [|ev evs IH]; intros st Hg; simpl.
  { split; [apply guards_refl|done]. }
  pose proof (step_guards st ev Hg) as H1.
  destruct (IH (step st ev) (guarded_guards _ _ Hg H1)) as [H2 Hg2].
  split; [by eapply guards_trans|done].
Qed.

Lemma reachable_guarded st : reachable st → guarded st.
Proof.
  intros (configs & evs & ->). apply run_guards. unfold new_service.
  case_bool_decide; split; simpl; try (by intros c i; rewrite lookup_nil);
    by intros t tm a c; rewrite lookup_empty.
Qed.

(** In every state the service reaches, a connection whose initial sync
    has not resolved (it is still running, or it failed on [openBox], on
    [search] or on a fetch) has no ['mail'] listener, has never been sent
    [idle()], [idle(false)] or a fetch of new mail, has no fetch object of
    new mail, and no watchdog is pending for it: IDLE starts only after a
    successful initial sync, and a failed one leaves the connection
    without new-mail handling. *)
Theorem idle_starts_only_after_initial_sync st c i :
  reachable st →
  heap st !! c = Some i →
  promise i ≠ Resolved →
  mailListeners i = 0
  ∧ (∀ cmd, cmd ∈ commands i →
       cmd ≠ CmdIdle ∧ cmd ≠ CmdIdleStop ∧ ∀ range, cmd ≠ CmdSeqFetch range)
  ∧ (∀ f, f ∈ fetches i → owner f ≠ OfNewMail)
  ∧ (∀ t tm a, timers st !! t = Some tm → action tm ≠ Watchdog a c).
Proof.
  intros [Hg Ht]%reachable_guarded Hi Hp.
  assert (Hno : ¬ idle_started i) by (intros Hs; by apply Hp, (Hg c i Hi)).
  split_and!.
  - destruct (mailListeners i) eqn:Hm; [done|]. destruct Hno. left. lia.
  - intros cmd Hin. split_and!; [| |intros range]; intros ->; apply Hno; right; left;
      eexists; split; done.
  - intros f Hin Hown. apply Hno. right. right. by exists f.
  - intros t tm a Htm Ha. destruct (Ht t tm a c Htm Ha) as (i' & Hi' & Hr).
    rewrite Hi in Hi'. injection Hi' as <-. done.
Qed.


End IdleGuardFacts.

Section IdleGuardRuns.
Import Normalizer Batcher Service Invariants Observations Registry Frames IdleGuard.
Import Fixture Scenarios.
#[local] Existing Instance Fixture.libs.

Lemma idle_starts_only_after_initial_sync_witness :
  let st := run (new_service [alice]) open_fails in
  ∃ i, heap st !! 0 = Some i
       ∧ promise i = Rejected "NO [NONEXISTENT] Unknown Mailbox"
       ∧ mailListeners i = 0
       ∧ (∀ cmd, cmd ∈ commands i →
            cmd ≠ CmdIdle ∧ cmd ≠ CmdIdleStop ∧ ∀ range, cmd ≠ CmdSeqFetch range)
       ∧ (∀ f, f ∈ fetches i → owner f ≠ OfNewMail)
       ∧ (∀ t tm a, timers st !! t = Some tm → action tm ≠ Watchdog a 0).
Proof.
  intros st.
  assert (Hr : reachable st) by (by exists [alice], open_fails).
  set (i := default (new_imap alice) (heap st !! 0)).
  assert (Hi : heap st !! 0 = Some i) by (by vm_compute).
  assert (Hp : promise i = Rejected "NO [NONEXISTENT] Unknown Mailbox") by (by vm_compute).
  assert (Hne : promise i ≠ Resolved) by (by rewrite Hp).
  exists i. split; [exact Hi|]. split; [exact Hp|].
  exact (idle_starts_only_after_initial_sync (H := Fixture.libs) st 0 i Hr Hi Hne).
Defined.


End IdleGuardRuns.

(** ** The initial sync runs to completion *)
Section DeliveryFacts.
Context `{!Libraries}.
Import Normalizer Batcher Service Invariants Observations Registry Frames Delivery.

Lemma modify_apply_effects c g st fx :
  modify c g (foldl apply_effect st fx) = foldl apply_effect (modify c g st) fx.
Proof.
  revert st. induction fx as [|[l|e] fx IH]; intros st; simpl; [done|..]; by rewrite IH.
Qed.

Lemma update_fetch_twice c f F1 F2 st :
  modify c (λ x, set_fetches (<[f := F2]> (fetches x)) x)
    (modify c (λ x, set_fetches (<[f := F1]> (fetches x)) x) st)
  = modify c (λ x, set_fetches (<[f := F2]> (fetches x)) x) st.
Proof.
  unfold modify, set_heap. simpl. f_equal. rewrite list_alter_alter_eq.
  apply list_alter_ext; [|done]. intros x _. simpl. unfold set_fetches. simpl.
  by rewrite list_insert_insert_eq.
Qed.

Lemma update_fetch_same c f i fetch st :
  heap st !! c = Some i → fetches i !! f = Some fetch →
  modify c (λ x, set_fetches (<[f := fetch]> (fetches x)) x) st = st.
Proof.
  intros Hi Hf. unfold modify, set_heap.
  assert (Hh : alter (λ x, set_fetches (<[f := fetch]> (fetches x)) x) c (heap st) = heap st).
  { apply list_eq. intros c'. destruct (decide (c = c')) as [<-|Hne].
    - rewrite list_lookup_alter_eq, Hi. simpl. f_equal.
      rewrite list_insert_id by done. by destruct i.
    - by rewrite list_lookup_alter_ne. }
  rewrite Hh. by destruct st.
Qed.

(** Events of a fetch object that ask for nothing: the service state
    changes by the new state of the object and by the effects. *)
Lemma run_fetch_quiet c f evs st i fetch :
  heap st !! c = Some i → fetches i !! f = Some fetch →
  let r := fetch_run (user (config i)) (length (batches i)) fetch evs in
  Forall (λ o, signal o = None) r.2 →
  run st (EvFetch c f <$> evs)
  = foldl apply_effect
      (modify c (λ x, set_fetches (<[f := r.1]> (fetches x)) x) st)
      (r.2 ≫= effects).
Proof.
  revert st i fetch. induction evs as [|ev evs IH]; intros st i fetch Hi Hf.
  { simpl. intros _. by rewrite (update_fetch_same c f i fetch). }
  cbn [fetch_run]. destruct (fetch_step _ _ fetch ev) as [F1 o] eqn:Hstep.
  destruct (fetch_run _ _ F1 evs) as [F2 os] eqn:Hrun. cbn [fst snd].
  intros [Ho Hos]%Forall_cons. rewrite fmap_cons.
  change (run st (EvFetch c f ev :: (EvFetch c f <$> evs)))
    with (run (onFetchEvent c f ev st) (EvFetch c f <$> evs)).
  set (st1 := foldl apply_effect
                (modify c (λ x, set_fetches (<[f := F1]> (fetches x)) x) st) (effects o)).
  assert (H1 : onFetchEvent c f ev st = st1).
  { unfold onFetchEvent. by rewrite Hi, Hf, Hstep, Ho. }
  rewrite H1.
  assert (Hi1 : heap st1 !! c = Some (set_fetches (<[f := F1]> (fetches i)) i)).
  { unfold st1. rewrite apply_effects_heap. by rewrite lookup_modify, Hi. }
  assert (Hf1 : fetches (set_fetches (<[f := F1]> (fetches i)) i) !! f = Some F1).
  { simpl. apply list_lookup_insert_eq. by eapply lookup_lt_Some. }
  pose proof (IH st1 _ F1 Hi1 Hf1) as IH1. simpl in IH1. rewrite Hrun in IH1.
  simpl in IH1. rewrite (IH1 Hos). unfold st1.
  rewrite modify_apply_effects, update_fetch_twice. simpl. by rewrite foldl_app.
Qed.

(** Events of one message before its ['end']: a run of the message. *)
Lemma fetch_run_message a total j evs F m :
  msgs F !! j = Some m → existsb is_end evs = false →
  let r := fetch_run a total F (OnMessage j <$> evs) in
  r.1 = with_msgs (<[j := (msg_run m evs).1]> (msgs F)) F
  ∧ Forall (λ o, signal o = None) r.2
  ∧ r.2 ≫= effects = (msg_run m evs).2.
Proof.
  revert F m. induction evs as [|ev evs IH]; intros F m Hj Hne.
  { simpl. split_and!; try done. rewrite list_insert_id by done. by destruct F. }
  cbn [existsb] in Hne. apply orb_false_iff in Hne as [Hev Hne].
  rewrite fmap_cons. cbn [fetch_run fetch_step msg_run]. unfold onMessageEvent. rewrite Hj.
  destruct (msg_step m ev) as [[m1 fx1] ran] eqn:Hm.
  pose proof (msg_step_emits _ _ _ _ _ Hm) as (_ & _ & Hran & _).
  rewrite Hev in Hran. simpl in Hran. subst ran.
  set (F1 := with_msgs (<[j := m1]> (msgs F)) F).
  assert (Hj1 : msgs F1 !! j = Some m1).
  { simpl. apply list_lookup_insert_eq. by eapply lookup_lt_Some. }
  destruct (IH F1 m1 Hj1 Hne) as (Hr1 & Hsig & Hfx).
  destruct (fetch_run a total F1 (OnMessage j <$> evs)) as [F2 os].
  destruct (msg_run m1 evs) as [m2 fx2]. cbn [fst snd] in *.
  split_and!.
  - rewrite Hr1. unfold with_msgs, F1. simpl. by rewrite list_insert_insert_eq.
  - by constructor.
  - by rewrite bind_cons, Hfx.
Qed.

Lemma same_control_refl st : same_control st st.
Proof. by split_and!. Qed.

Lemma same_control_trans st1 st2 st3 :
  same_control st1 st2 → same_control st2 st3 → same_control st1 st3.
Proof.
  intros (? & ? & ? & ? & ? & ?) (? & ? & ? & ? & ? & ?). split_and!; congruence.
Qed.

Lemma same_control_effects st fx : same_control st (foldl apply_effect st fx).
Proof.
  revert st. induction fx as [|[l|e] fx IH]; intros st; simpl.
  - apply same_control_refl.
  - eapply same_control_trans; [|apply IH]. by split_and!.
  - eapply same_control_trans; [|apply IH]. by split_and!.
Qed.

Lemma same_control_modify c g st : same_control st (modify c g st).
Proof. by split_and!. Qed.

(** The state of a message that has received its events and then its
    ['end'], and what it emitted. *)
Lemma ended_message_spec a d :
  no_end d →
  let m0 := new_msg a (d_seq d) (d_uuid d) (d_now d) in
  let m1 := (msg_run m0 (d_events d)).1 in
  endOnce m1 = true
  ∧ emitted (msg_run m0 (d_events d)).2 = []
  ∧ msg_step m1 End = (ended_message a d,
                       if complete (email m1) then [Emit (email m1)] else [], true)
  ∧ record_of a d = if complete (email m1) then [email m1] else [].
Proof.
  intros Hd m0 m1.
  destruct (no_emission_before_end m0 (d_events d) Hd) as [Hno Hend].
  fold m1 in Hend. simpl in Hend.
  unfold ended_message, record_of. fold m0. rewrite msg_run_app. fold m1. simpl.
  unfold onMessageEnd. rewrite Hend. rewrite emitted_app, Hno. simpl.
  split_and!; try done.
  rewrite app_nil_r. by destruct (complete (email m1)).
Qed.

(** One message of a batch fetch is announced, receives its events and
    ends: the closure counts it, its record is emitted, and when it is the
    last of the batch, the next batch is asked for. *)
Lemma deliver_message c f k b pc d st i fetch :
  heap st !! c = Some i → fetches i !! f = Some fetch →
  owner fetch = OfBatch k b pc → no_end d →
  let a := user (config i) in
  let fetch' := with_owner (OfBatch k b (S pc))
                  (with_msgs (msgs fetch ++ [ended_message a d]) fetch) in
  ∃ st', heap st' = alter (λ x, set_fetches (<[f := fetch']> (fetches x)) x) c (heap st)
         ∧ emails st' = emails st ++ record_of a d
         ∧ same_control st st'
         ∧ run st (EvFetch c f <$> message_events (length (msgs fetch)) d)
           = if bool_decide (S pc = length b) then processBatch a c (k + 1) st' else st'.
Proof.
  intros Hi Hf Hown Hd a fetch'.
  set (j := length (msgs fetch)).
  set (m0 := new_msg a (d_seq d) (d_uuid d) (d_now d)).
  set (m1 := (msg_run m0 (d_events d)).1).
  destruct (ended_message_spec a d Hd) as (Hend1 & Hno & Hstep1 & Hrec).
  fold m0 in Hend1, Hno, Hstep1, Hrec. fold m1 in Hend1, Hstep1, Hrec.
  set (F0 := onMessage a (d_seq d) (d_uuid d) (d_now d) fetch).
  assert (Hj0 : msgs F0 !! j = Some m0).
  { unfold F0, onMessage. simpl. rewrite lookup_app_r by done.
    unfold j. by rewrite Nat.sub_diag. }
  destruct (fetch_run_message a (length (batches i)) j (d_events d) F0 m0 Hj0 Hd)
    as (Hr1 & Hsig & Hfx).
  fold m1 in Hr1.
  set (F1 := with_msgs (msgs fetch ++ [m1]) fetch).
  assert (HF1 : with_msgs (<[j := m1]> (msgs F0)) F0 = F1).
  { unfold F0, F1, onMessage, with_msgs. simpl. f_equal.
    rewrite insert_app_r_alt by done. unfold j. by rewrite Nat.sub_diag. }
  rewrite HF1 in Hr1.
  set (pre := Message (d_seq d) (d_uuid d) (d_now d) :: (OnMessage j <$> d_events d)).
  assert (Hpre : message_events j d = pre ++ [OnMessage j End]).
  { unfold message_events, pre. by rewrite fmap_app. }
  assert (Hrun : fetch_run a (length (batches i)) fetch pre
                 = (F1, quiet :: (fetch_run a (length (batches i)) F0
                                    (OnMessage j <$> d_events d)).2)).
  { unfold pre. cbn [fetch_run fetch_step]. fold F0.
    destruct (fetch_run a (length (batches i)) F0 (OnMessage j <$> d_events d)) as [F os].
    simpl in *. by rewrite Hr1. }
  set (os := (fetch_run a (length (batches i)) F0 (OnMessage j <$> d_events d)).2) in *.
  set (st1 := foldl apply_effect
                (modify c (λ x, set_fetches (<[f := F1]> (fetches x)) x) st)
                ((quiet :: os) ≫= effects)).
  assert (H1 : run st (EvFetch c f <$> pre) = st1).
  { pose proof (run_fetch_quiet c f pre st i fetch Hi Hf) as Hq. cbv zeta in Hq.
    fold a in Hq. rewrite Hrun in Hq. cbn [fst snd] in Hq. apply Hq. by constructor. }
  assert (Hi1 : heap st1 !! c = Some (set_fetches (<[f := F1]> (fetches i)) i)).
  { unfold st1. rewrite apply_effects_heap. by rewrite lookup_modify, Hi. }
  assert (He1 : emails st1 = emails st).
  { unfold st1. rewrite apply_effects_emails. rewrite bind_cons. simpl.
    rewrite Hfx, Hno. by rewrite app_nil_r. }
  set (fxe := if complete (email m1) then [Emit (email m1)] else []) in *.
  set (fxl := if bool_decide (S pc = length b)
              then [Log (log_info ("Processed batch " +:+ pretty (k + 1) +:+ "/"
                                   +:+ pretty (length (batches i)) +:+ " for " +:+ a))]
              else []).
  set (st' := foldl apply_effect
                (modify c (λ x, set_fetches (<[f := fetch']> (fetches x)) x) st1)
                (fxe ++ fxl)).
  assert (Hlast : fetch_step a (length (batches i)) F1 (OnMessage j End)
                  = (fetch', {| effects := fxe ++ fxl; ended := Some (seqno m1);
                                signal := if bool_decide (S pc = length b)
                                          then Some (NextBatch (k + 1)) else None |})).
  { cbn [fetch_step]. unfold onMessageEvent.
    assert (Hj1 : msgs F1 !! j = Some m1).
    { unfold F1. simpl. rewrite lookup_app_r by done. unfold j. by rewrite Nat.sub_diag. }
    rewrite Hj1, Hstep1. unfold afterEnd. simpl. rewrite Hown.
    assert (Hmsgs : <[j := ended_message a d]> (msgs fetch ++ [m1])
                    = msgs fetch ++ [ended_message a d]).
    { rewrite insert_app_r_alt by done. unfold j. by rewrite Nat.sub_diag. }
    unfold fxl, fetch'. case_bool_decide; unfold with_owner, with_msgs; simpl;
      by rewrite Hmsgs. }
  assert (H2 : onFetchEvent c f (OnMessage j End) st1
               = if bool_decide (S pc = length b) then processBatch a c (k + 1) st' else st').
  { unfold onFetchEvent. rewrite Hi1. cbn [set_fetches fetches config batches].
    rewrite list_lookup_insert_eq by (by eapply lookup_lt_Some). fold a.
    rewrite Hlast. cbn [effects signal]. fold st'. by case_bool_decide. }
  exists st'. split_and!.
  - unfold st'. rewrite apply_effects_heap. simpl. unfold st1.
    rewrite apply_effects_heap. simpl. rewrite list_alter_alter_eq.
    apply list_alter_ext; [|done]. intros x _. simpl. unfold set_fetches. simpl.
    by rewrite list_insert_insert_eq.
  - unfold st'. rewrite apply_effects_emails. simpl. rewrite He1, emitted_app, Hrec.
    unfold fxe, fxl. destruct (complete (email m1)); case_bool_decide; simpl; done.
  - unfold st'. eapply same_control_trans; [|apply same_control_effects].
    eapply same_control_trans; [|apply same_control_modify].
    unfold st1. eapply same_control_trans; [|apply same_control_effects].
    apply same_control_modify.
  - fold j. rewrite Hpre, fmap_app. unfold run. rewrite foldl_app. fold (run st (EvFetch c f <$> pre)).
    rewrite H1. simpl. exact H2.
Qed.

Section Sync.
Variables (st0 : State) (c : nat) (a : string) (bs : list (list Z)).
Variables (cmds : list Cmd) (ml base : nat).
Hypothesis active0 : active a st0 = true.

Lemma syncing_message k b pc recs st d :
  syncing st0 c a bs cmds ml base k b pc recs st → no_end d →
  ∃ st', syncing st0 c a bs cmds ml base k b (S pc) (recs ++ record_of a d) st'
         ∧ run st (EvFetch c (base + k) <$> message_events pc d)
           = if bool_decide (S pc = length b) then processBatch a c (k + 1) st' else st'.
Proof.
  intros (Hctl & He & Hb & i & fetch & Hi & Ha & Hbs & Hthrow & Hp & Hml & Hcmds
          & Hlen & Hf & Hown & Hmsgs) Hd.
  destruct (deliver_message c (base + k) k b pc d st i fetch Hi Hf Hown Hd)
    as (st' & Hh' & He' & Hctl' & Hrun).
  rewrite Ha, Hmsgs in Hrun. rewrite Ha in He', Hh'.
  exists st'. split; [|exact Hrun].
  split_and!; try done.
  - by eapply same_control_trans.
  - by rewrite He', He, app_assoc.
  - set (fetch' := with_owner (OfBatch k b (S pc))
                     (with_msgs (msgs fetch ++ [ended_message a d]) fetch)) in *.
    exists (set_fetches (<[base + k := fetch']> (fetches i)) i), fetch'.
    rewrite Hh', list_lookup_alter_eq, Hi. simpl.
    split_and!; try done.
    + by rewrite length_insert.
    + apply list_lookup_insert_eq. by eapply lookup_lt_Some.
    + rewrite length_app, Hmsgs. simpl. lia.
Qed.

(** The messages of batch [k], the last of which asks for batch [k + 1]. *)
Lemma syncing_batch k b ds : ∀ pc recs st,
  syncing st0 c a bs cmds ml base k b pc recs st →
  Forall no_end ds → ds ≠ [] → pc + length ds = length b →
  ∃ st', syncing st0 c a bs cmds ml base k b (length b) (recs ++ (ds ≫= record_of a)) st'
         ∧ run st (EvFetch c (base + k) <$> batch_events pc ds)
           = processBatch a c (k + 1) st'.
Proof.
  induction ds as [|d ds IH]; intros pc recs st Hs Hds Hne Hlen; [done|].
  apply Forall_cons in Hds as [Hd Hds].
  destruct (syncing_message k b pc recs st d Hs Hd) as (st1 & Hs1 & Hrun1).
  cbn [batch_events]. rewrite fmap_app. unfold run. rewrite foldl_app.
  fold (run st (EvFetch c (base + k) <$> message_events pc d)). rewrite Hrun1.
  rewrite bind_cons, app_assoc. simpl in Hlen.
  destruct ds as [|d' ds].
  - simpl in *. rewrite app_nil_r. rewrite bool_decide_true by lia.
    exists st1. split; [|done]. by replace (length b) with (S pc) by lia.
  - rewrite bool_decide_false by (simpl in Hlen; lia).
    destruct (IH (S pc) (recs ++ record_of a d) st1 Hs1 Hds) as (st' & Hs' & Hrun');
      [done|simpl in *; lia|].
    exists st'. split; [done|]. exact Hrun'.
Qed.

(** [processBatch] after a batch: the next batch is fetched. *)
Lemma syncing_next k b b' recs st :
  syncing st0 c a bs cmds ml base k b (length b) recs st →
  bs !! (k + 1) = Some b' →
  syncing st0 c a bs cmds ml base (k + 1) b' 0 recs (processBatch a c (k + 1) st).
Proof.
  intros (Hctl & He & Hb & i & fetch & Hi & Ha & Hbs & Hthrow & Hp & Hml & Hcmds
          & Hlen & Hf & Hown & Hmsgs) Hb'.
  unfold processBatch. rewrite Hi, Hbs, Hb', Hthrow.
  split_and!; try done.
  eexists _, (new_fetch (OfBatch (k + 1) b' 0)). simpl.
  rewrite list_alter_alter_eq, list_lookup_alter_eq, Hi. simpl.
  split_and!; try done; simpl.
  - rewrite Hcmds, <- app_assoc. f_equal. replace (S (k + 1)) with (S (S k)) by lia.
    rewrite (take_S_r _ (S k) b'); [|by replace (S k) with (k + 1) by lia].
    by rewrite fmap_app.
  - rewrite length_app, Hlen. simpl. lia.
  - rewrite lookup_app_r by lia. replace (base + (k + 1) - length (fetches i)) with 0 by lia.
    done.
Qed.

(** [processBatch] after the last batch: the promise resolves and IDLE
    starts. *)
Lemma syncing_done k b recs st :
  syncing st0 c a bs cmds ml base k b (length b) recs st →
  bs !! (k + 1) = None →
  synced st0 c a bs cmds ml base recs (processBatch a c (k + 1) st).
Proof.
  intros (Hctl & He & Hb & i & fetch & Hi & Ha & Hbs & Hthrow & Hp & Hml & Hcmds
          & Hlen & Hf & Hown & Hmsgs) Hnone.
  destruct Hctl as (_ & Hacc & Hact & Hwd & Htm & Hnt).
  assert (Hall : length bs = S k).
  { apply lookup_ge_None in Hnone. apply lookup_lt_Some in Hb. lia. }
  unfold processBatch. rewrite Hi, Hbs, Hnone. unfold resolve. rewrite Hi, Hp.
  unfold startIdleMode, restartIdle.
  assert (Hactive : active a
            (modify c add_mail_listener
               (logger (log_info ("Starting IDLE mode for account: " +:+ a))
                  (modify c (set_promise Resolved) st))) = true).
  { unfold active in *. simpl. by rewrite Hact. }
  rewrite Hactive. unfold thrown. simpl.
  rewrite !list_lookup_alter_eq, Hi. simpl. rewrite Hthrow. simpl.
  unfold synced. simpl. rewrite Htm, Hnt, Hwd.
  split_and!; try done.
  eexists. rewrite !list_lookup_alter_eq, Hi. simpl. split_and!; try done; simpl.
  - by rewrite Hml.
  - rewrite Hcmds, <- app_assoc. do 2 f_equal. rewrite <- Hall. by rewrite firstn_all.
  - rewrite Hlen. lia.
Qed.

(** The batches from [k] on, each delivered whole. *)
Lemma syncing_all dss : ∀ k b recs st,
  syncing st0 c a bs cmds ml base k b 0 recs st →
  Forall2 (λ b ds, length ds = length b) (drop k bs) dss →
  Forall (λ b : list Z, b ≠ []) bs →
  Forall (Forall no_end) dss →
  synced st0 c a bs cmds ml base (recs ++ (concat dss ≫= record_of a))
    (run st (sync_events c (base + k) dss)).
Proof.
  induction dss as [|ds dss IH]; intros k b recs st Hs Hshape Hne Hds.
  { destruct Hs as (_ & _ & Hb & _). apply Forall2_nil_inv_r in Hshape.
    apply (f_equal length) in Hshape. rewrite length_drop in Hshape. simpl in Hshape.
    apply lookup_lt_Some in Hb. lia. }
  apply Forall_cons in Hds as [Hd Hds].
  pose proof Hs as (_ & _ & Hb & _).
  rewrite (drop_S _ b k Hb) in Hshape. apply Forall2_cons in Hshape as [Hlen Hshape].
  assert (Hbne : b ≠ []).
  { rewrite Forall_forall in Hne. apply Hne. by eapply list_elem_of_lookup_2. }
  destruct (syncing_batch k b ds 0 recs st Hs Hd) as (st1 & Hs1 & Hrun1).
  { intros ->. destruct b; simpl in Hlen; done. }
  { simpl. done. }
  cbn [sync_events]. unfold run. rewrite foldl_app.
  fold (run st (EvFetch c (base + k) <$> batch_events 0 ds)). rewrite Hrun1.
  rewrite concat_cons, bind_app, app_assoc.
  replace (S (base + k)) with (base + (k + 1)) by lia.
  replace (S k) with (k + 1) in Hshape by lia.
  destruct (bs !! (k + 1)) as [b'|] eqn:Hb'.
  - apply (IH (k + 1) b'); try done. by apply (syncing_next k b).
  - apply lookup_ge_None in Hb'. rewrite drop_ge in Hshape by done.
    apply Forall2_nil_inv_l in Hshape as ->. simpl. rewrite app_nil_r.
    apply (syncing_done k b); [done|]. by apply lookup_ge_None.
Qed.

End Sync.

(** The initial sync runs to completion.  When the search returns a
    non-empty result on a connection whose calls do not throw and whose
    account is active, and the library then delivers, batch after batch,
    as many messages as the batch has identifiers, each message being
    announced, receiving its events and ending, then: every batch is
    fetched, in order and once; the records emitted are those of the
    messages, in the order of delivery; the promise of the initial sync
    resolves; one ['mail'] listener is added, [idle()] is called and one
    watchdog is armed and registered for the account. *)
Theorem initial_sync_runs_to_completion st c i results dss :
  heap st !! c = Some i →
  phase i = PSearch → promise i = Pending → throwing i = None →
  active (user (config i)) st = true →
  results ≠ [] →
  Forall2 (λ b ds, length ds = length b) (make_batches results) dss →
  Forall (Forall no_end) dss →
  let a := user (config i) in
  let st' := run st (EvSearch c (inr results) :: sync_events c (length (fetches i)) dss) in
  emails st' = emails st ++ (concat dss ≫= record_of a)
  ∧ timers st' = <[nextTimer st := {| delay := 29 * 60 * 1000;
                                     action := Watchdog a c |}]> (timers st)
  ∧ watchdogTimers st' = <[a := nextTimer st]> (watchdogTimers st)
  ∧ connectionsActive st' = connectionsActive st
  ∧ accounts st' = accounts st
  ∧ ∃ i', heap st' !! c = Some i'
          ∧ promise i' = Resolved
          ∧ mailListeners i' = S (mailListeners i)
          ∧ commands i' = commands i ++ (CmdFetch <$> make_batches results) ++ [CmdIdle]
          ∧ length (fetches i') = length (fetches i) + length (make_batches results).
Proof.
  intros Hi Hph Hp Hthrow Hact Hne Hshape Hds a st'.
  destruct (make_batches_first results Hne) as [b0 Hb0].
  set (st1 := onSearch a c (inr results) st).
  assert (Hstep : st' = run st1 (sync_events c (length (fetches i) + 0) dss)).
  { unfold st'. rewrite Nat.add_0_r.
    change (run st (EvSearch c (inr results) :: ?evs))
      with (run (step st (EvSearch c (inr results))) evs).
    simpl step. by rewrite Hi, Hph. }
  assert (Hs1 : syncing st c a (make_batches results) (commands i) (mailListeners i)
                  (length (fetches i)) 0 b0 0 [] st1).
  { unfold st1, onSearch. rewrite bool_decide_false.
    2:{ destruct results; [done|]. simpl. lia. }
    unfold processBatch. simpl.
    rewrite list_alter_alter_eq, list_lookup_alter_eq, Hi. simpl.
    rewrite Hb0, Hthrow.
    split_and!; try done; [by rewrite app_nil_r|].
    eexists _, (new_fetch (OfBatch 0 b0 0)). simpl.
    rewrite !list_alter_alter_eq, list_lookup_alter_eq, Hi. simpl.
    split_and!; try done; simpl.
    - f_equal. by rewrite (take_S_r _ 0 b0).
    - rewrite length_app. simpl. lia.
    - rewrite lookup_app_r by lia. by replace (_ + 0 - _) with 0 by lia. }
  assert (Hall : Forall (λ b : list Z, b ≠ []) (make_batches results)).
  { apply Forall_forall. intros b [k Hk]%list_elem_of_lookup.
    destruct (make_batches_partition results) as (_ & _ & Hbatch).
    destruct (Hbatch k b Hk) as (_ & Hlen & _). intros ->. simpl in Hlen. lia. }
  pose proof (syncing_all st c a (make_batches results) (commands i) (mailListeners i)
                (length (fetches i)) Hact dss 0 b0 [] st1 Hs1 Hshape Hall Hds) as Hdone.
  rewrite <- Hstep in Hdone. exact Hdone.
Qed.

End DeliveryFacts.

Section DeliveryRuns.
Import Normalizer Batcher Service Invariants Observations Registry Frames Delivery.
Import Fixture Scenarios.
#[local] Existing Instance Fixture.libs.

Lemma initial_sync_runs_to_completion_witness :
  let st := run (new_service [alice]) searching in
  let st' := run st (EvSearch 0 (inr twenty_five) :: sync_events 0 0 sample_batches) in
  length (emails st') = 25
  ∧ emails st' = emails st ++ (concat sample_batches ≫= record_of "alice@example.com")
  ∧ map_to_list (timers st') = [(0, watchdog)]
  ∧ ∃ i', heap st' !! 0 = Some i'
          ∧ promise i' = Resolved
          ∧ mailListeners i' = 1
          ∧ commands i' = [CmdConnect; CmdOpenBox; CmdSearch]
                          ++ (CmdFetch <$> make_batches twenty_five) ++ [CmdIdle]
          ∧ length (fetches i') = 3.
Proof.
  intros st st'.
  set (i := default (new_imap alice) (heap st !! 0)).
  assert (Hi : heap st !! 0 = Some i) by (by vm_compute).
  assert (Hph : phase i = PSearch) by (by vm_compute).
  assert (Hp : promise i = Pending) by (by vm_compute).
  assert (Hthrow : throwing i = None) by (by vm_compute).
  assert (Hact : active (user (config i)) st = true) by (by vm_compute).
  assert (Hne : twenty_five ≠ []) by done.
  assert (Hshape : Forall2 (λ (b : list Z) (ds : list Delivered), length ds = length b)
                     (make_batches twenty_five) sample_batches).
  { assert (Hb : make_batches twenty_five = [seqZ 101 10; seqZ 111 10; seqZ 121 5])
      by (by vm_compute).
    rewrite Hb. repeat constructor. }
  assert (Hds : Forall (Forall no_end) sample_batches).
  { assert (Hq : ∀ l, Forall no_end (sample_message <$> l)).
    { intros l. apply Forall_fmap, Forall_forall. by intros u _. }
    unfold sample_batches.
    apply Forall_cons; split; [apply Hq|]. apply Forall_cons; split; [apply Hq|].
    apply Forall_cons; split; [apply Hq|]. constructor. }
  destruct (initial_sync_runs_to_completion (H := Fixture.libs) st 0 i twenty_five
              sample_batches Hi Hph Hp Hthrow Hact Hne Hshape Hds)
    as (He & Ht & _ & _ & _ & i' & Hi' & Hp' & Hml & Hcmds & Hlen).
  assert (Hf0 : length (fetches i) = 0) by (by vm_compute).
  rewrite Hf0 in He, Ht, Hi'. 
  split; [by vm_compute|]. split; [exact He|]. split; [by vm_compute|].
  exists i'. split; [exact Hi'|]. split; [exact Hp'|].
  split; [rewrite Hml; by vm_compute|].
  split; [rewrite Hcmds; by vm_compute|].
  rewrite Hlen. by vm_compute.
Defined.

End DeliveryRuns.

(** ** The watchdog re-arms itself *)
Section WatchdogFacts.
Context `{!Libraries}.
Import Normalizer Batcher Service Invariants Observations Registry Frames.

(** On an active connection whose calls do not throw, the watchdog
    timeout, when it fires, stops IDLE, starts it again and arms one new
    watchdog, whose handle replaces the old one in [watchdogTimers]: after
    any number of firings in a row, [idle(false)] and [idle()] have been
    called once per firing, exactly one watchdog of the chain is pending,
    and nothing has been emitted. *)
Theorem watchdog_rearms_itself n : ∀ st t a c i,
  heap st !! c = Some i →
  throwing i = None →
  active a st = true →
  timers st !! t = Some (idle_watchdog a c) →
  (∀ t' tm, timers st !! t' = Some tm → t' < nextTimer st) →
  let st' := run st (EvTimer <$> (t :: seq (nextTimer st) n)) in
  timers st' = <[nextTimer st + n := idle_watchdog a c]> (delete t (timers st))
  ∧ watchdogTimers st' = <[a := nextTimer st + n]> (watchdogTimers st)
  ∧ nextTimer st' = S (nextTimer st + n)
  ∧ connectionsActive st' = connectionsActive st
  ∧ emails st' = emails st
  ∧ ∃ i', heap st' !! c = Some i'
          ∧ commands i' = commands i ++ concat (replicate (S n) [CmdIdleStop; CmdIdle])
          ∧ throwing i' = None
          ∧ mailListeners i' = mailListeners i
          ∧ fetches i' = fetches i.
Proof.
  assert (Hone : ∀ st t a c i,
            heap st !! c = Some i → throwing i = None → active a st = true →
            timers st !! t = Some (idle_watchdog a c) →
            let st1 := step st (EvTimer t) in
            timers st1 = <[nextTimer st := idle_watchdog a c]> (delete t (timers st))
            ∧ watchdogTimers st1 = <[a := nextTimer st]> (watchdogTimers st)
            ∧ nextTimer st1 = S (nextTimer st)
            ∧ connectionsActive st1 = connectionsActive st
            ∧ emails st1 = emails st
            ∧ heap st1 !! c = Some (call CmdIdle (call CmdIdleStop i))).
  { intros st t a c i Hi Hthrow Hact Ht. simpl. unfold onTimer. rewrite Ht. simpl.
    unfold onWatchdog, thrown. simpl. rewrite Hi. simpl. rewrite Hthrow.
    unfold restartIdle.
    assert (Hact' : active a (modify c (call CmdIdleStop)
                                (logger (log_debug ("Restarting IDLE for " +:+ a
                                                    +:+ " (watchdog)"))
                                   (clearTimeout t st))) = true) by done.
    rewrite Hact'. unfold thrown. simpl. rewrite list_lookup_alter_eq, Hi. simpl.
    rewrite Hthrow. simpl. rewrite list_alter_alter_eq, list_lookup_alter_eq, Hi.
    by split_and!. }
  induction n as [|n IH]; intros st t a c i Hi Hthrow Hact Ht Hfresh.
  - destruct (Hone st t a c i Hi Hthrow Hact Ht) as (H1 & H2 & H3 & H4 & H5 & H6).
    cbn [seq fmap list_fmap run foldl]. rewrite Nat.add_0_r.
    split_and!; try done. eexists. split; [exact H6|]. simpl.
    by rewrite <- app_assoc.
  - destruct (Hone st t a c i Hi Hthrow Hact Ht) as (H1 & H2 & H3 & H4 & H5 & H6).
    set (st1 := step st (EvTimer t)) in *.
    assert (Hrun : run st (EvTimer <$> (t :: seq (nextTimer st) (S n)))
                   = run st1 (EvTimer <$> (nextTimer st :: seq (nextTimer st1) n))).
    { rewrite H3. done. }
    cbv zeta. rewrite Hrun.
    assert (Hact1 : active a st1 = true) by (unfold active in *; by rewrite H4).
    assert (Ht1 : timers st1 !! nextTimer st = Some (idle_watchdog a c)).
    { rewrite H1. apply lookup_insert_eq. }
    assert (Hfresh1 : ∀ t' tm, timers st1 !! t' = Some tm → t' < nextTimer st1).
    { intros t' tm. rewrite H1, H3.
      intros [[<- _]|[_ [_ Hold]%lookup_delete_Some]]%lookup_insert_Some; [lia|].
      apply Hfresh in Hold. lia. }
    destruct (IH st1 (nextTimer st) a c _ H6 Hthrow Hact1 Ht1 Hfresh1)
      as (G1 & G2 & G3 & G4 & G5 & i' & Gi & Gc & Gt & Gm & Gf).
    assert (Hnone : delete t (timers st) !! nextTimer st = None).
    { destruct (delete t (timers st) !! nextTimer st) as [tm|] eqn:Hx; [|done].
      apply lookup_delete_Some in Hx as [_ Hx]. apply Hfresh in Hx. lia. }
    split_and!.
    + rewrite G1, H1, H3. rewrite delete_insert_eq, (delete_id _ _ Hnone).
      f_equal. lia.
    + rewrite G2, H2, H3, insert_insert_eq. f_equal. lia.
    + rewrite G3, H3. lia.
    + congruence.
    + congruence.
    + exists i'. split; [exact Gi|]. split_and!; try done.
      rewrite Gc. simpl. rewrite <- !app_assoc. done.
Qed.

End WatchdogFacts.

Section WatchdogRuns.
Import Normalizer Batcher Service Invariants Observations Registry Frames.
Import Fixture Scenarios.
#[local] Existing Instance Fixture.libs.

Lemma watchdog_rearms_itself_witness :
  let st' := run idling (EvTimer <$> (0 :: seq (nextTimer idling) 2)) in
  map_to_list (timers st') = [(3, watchdog)]
  ∧ timers st' = <[nextTimer idling + 2 := idle_watchdog "alice@example.com" 0]>
                   (delete 0 (timers idling))
  ∧ ∃ i', heap st' !! 0 = Some i'
          ∧ commands i'
            = [CmdConnect; CmdOpenBox; CmdSearch; CmdIdle]
              ++ concat (replicate 3 [CmdIdleStop; CmdIdle]).
Proof.
  intros st'.
  set (i := default (new_imap alice) (heap idling !! 0)).
  assert (Hi : heap idling !! 0 = Some i) by (by vm_compute).
  assert (Hthrow : throwing i = None) by (by vm_compute).
  assert (Hact : active "alice@example.com" idling = true) by (by vm_compute).
  assert (Ht : timers idling !! 0 = Some (idle_watchdog "alice@example.com" 0))
    by (by vm_compute).
  assert (Hfresh : ∀ t' tm, timers idling !! t' = Some tm → t' < nextTimer idling).
  { intros t' tm Htm. destruct (decide (t' = 0)) as [->|Hne]; [by vm_compute|].
    assert (Hall : timers idling = {[ 0 := watchdog ]}) by (by vm_compute).
    rewrite Hall, lookup_singleton_ne in Htm by done. done. }
  destruct (watchdog_rearms_itself (H := Fixture.libs) 2 idling 0 "alice@example.com" 0 i
              Hi Hthrow Hact Ht Hfresh)
    as (H1 & _ & _ & _ & _ & i' & Hi' & Hc & _).
  split; [by vm_compute|]. split; [exact H1|].
  exists i'. split; [exact Hi'|]. rewrite Hc. by vm_compute.
Defined.

End WatchdogRuns.

(** ** Helpers of the other services *)
Section HelperFacts.
Import Helpers.

Lemma string_length_app s1 s2 :
  String.length (s1 +:+ s2) = String.length s1 + String.length s2.
Proof.
  induction s1 as [|c s1 IH]; [done|].
  change (String.length (String c (s1 +:+ s2)) = S (String.length s1) + String.length s2).
  simpl. by rewrite IH.
Qed.

Lemma substring_head n : ∀ s,
  n ≤ String.length s →
  String.length (String.substring 0 n s) = n
  ∧ ∃ tail, s = String.substring 0 n s +:+ tail.
Proof.
  induction n as [|n IH]; intros s Hn.
  - destruct s; simpl; (split; [done|]); eexists; done.
  - destruct s as [|c s]; simpl in *; [lia|].
    destruct (IH s) as (Hlen & tail & Htail); [lia|].
    split; [by rewrite Hlen|]. exists tail.
    change (String c s = String c (String.substring 0 n s +:+ tail)). by f_equal.
Qed.

(** [truncateText] returns a text of at most [maxLength] code units as it
    is; a longer one is cut to its first [maxLength] code units followed
    by three dots, so that the result has [maxLength + 3] code units: the
    bound on the result is [maxLength + 3], not [maxLength], and a text
    one or two code units over the limit comes out longer than it went
    in. *)
Theorem truncateText_bounds text maxLength :
  (String.length text ≤ maxLength → truncateText text maxLength = text)
  ∧ (maxLength < String.length text →
     ∃ head tail, text = head +:+ tail ∧ String.length head = maxLength
                  ∧ truncateText text maxLength = head +:+ "..."
                  ∧ String.length (truncateText text maxLength) = maxLength + 3)
  ∧ String.length (truncateText text maxLength) ≤ maxLength + 3.
Proof.
  unfold truncateText. split_and!.
  - intros Hle. by rewrite decide_True.
  - intros Hlt. rewrite decide_False by lia.
    destruct (substring_head maxLength text) as (Hlen & tail & Htail); [lia|].
    exists (String.substring 0 maxLength text), tail. split_and!; try done.
    rewrite string_length_app, Hlen. done.
  - case_decide as Hle; [lia|].
    destruct (substring_head maxLength text) as (Hlen & _); [lia|].
    rewrite string_length_app, Hlen. simpl. lia.
Qed.

(** *** [retryWithBackoff] *)
Section RetryFacts.
Context {T : Type}.

Lemma retry_loop_spec (operation : nat → string + T) maxRetries retries delay rounds :
  let r := retry_loop operation maxRetries retries delay rounds in
  ∃ k, retries ≤ k
       ∧ (∀ j, retries ≤ j < k → ∃ e, operation j = inl e)
       ∧ r.1 = operation k
       ∧ ((∃ v, operation k = inr v) ∨ (maxRetries ≤ Z.of_nat (S k))%Z)
       ∧ (retries < k → (Z.of_nat k < maxRetries)%Z)
       ∧ r.2 = rounds
               ++ ((λ j, (retry_log (S j) maxRetries (delay * 2 ^ Z.of_nat (j - retries)),
                          delay * 2 ^ Z.of_nat (j - retries))%Z)
                     <$> seq retries (k - retries)).
Proof.
  funelim (retry_loop operation maxRetries retries delay rounds); simpl.
  - exists retries. rewrite Heq, Nat.sub_diag. simpl. rewrite app_nil_r.
    split_and!; [lia|intros j Hj; lia|done|left; by exists value|lia|done].
  - exists retries. rewrite Heq0, Nat.sub_diag. simpl. rewrite app_nil_r.
    split_and!; [lia|intros j Hj; lia|done|by right|lia|done].
  - destruct H as (k & Hk & Hfail & Hres & Hlast & Hbound & Hrounds).
    exists k. split_and!; [lia| |done|done| |].
    + intros j Hj. destruct (decide (j = retries)) as [->|Hne]; [by exists error|].
      apply Hfail. lia.
    + intros _. destruct (decide (S retries = k)) as [<-|Hne]; [lia|].
      apply Hbound. lia.
    + rewrite Hrounds, <- app_assoc. f_equal.
      replace (k - retries) with (S (k - S retries)) by lia.
      rewrite <- cons_seq, fmap_cons. rewrite Nat.sub_diag. simpl.
      rewrite Z.mul_1_r. f_equal.
      apply list_fmap_ext. intros i j [Hj1 Hj2]%lookup_seq.
      replace (j - retries) with (S (j - S retries)) by lia.
      rewrite Nat2Z.inj_succ, Z.pow_succ_r by lia.
      by replace (delay * (2 * 2 ^ Z.of_nat (j - S retries)))%Z
        with (delay * 2 * 2 ^ Z.of_nat (j - S retries))%Z by lia.
Qed.

(** [retryWithBackoff] calls the operation at most [max(1, maxRetries)]
    times, one call after the other, and stops at the first call that
    succeeds, whose value it returns, or at the last call allowed, whose
    error it throws.  Between two calls it logs the retry and sleeps; the
    [j]-th sleep (from 0) lasts [initialDelay * 2 ^ j] milliseconds: the
    delays double. *)
Theorem retryWithBackoff_attempts (operation : nat → string + T) maxRetries initialDelay :
  let attempts := Z.to_nat (Z.max 1 maxRetries) in
  let r := retryWithBackoff operation maxRetries initialDelay in
  ∃ k, k < attempts
       ∧ (∀ j, j < k → ∃ e, operation j = inl e)
       ∧ r.1 = operation k
       ∧ ((∃ v, operation k = inr v) ∨ S k = attempts)
       ∧ r.2.*2 = (λ j, initialDelay * 2 ^ Z.of_nat j)%Z <$> seq 0 k
       ∧ r.2.*1 = (λ j, retry_log (S j) maxRetries (initialDelay * 2 ^ Z.of_nat j)%Z)
                    <$> seq 0 k.
Proof.
  intros attempts r.
  destruct (retry_loop_spec operation maxRetries 0 initialDelay [])
    as (k & _ & Hfail & Hres & Hlast & Hbound & Hrounds).
  fold (retryWithBackoff operation maxRetries initialDelay) in Hres, Hrounds. fold r in Hres, Hrounds.
  exists k. unfold attempts. split_and!.
  - destruct (decide (0 < k)) as [Hpos|Hzero]; [apply Hbound in Hpos|]; lia.
  - intros j Hj. apply Hfail. lia.
  - done.
  - destruct Hlast as [Hv|Hmax]; [by left|]. right.
    destruct (decide (0 < k)) as [Hpos|Hzero]; [apply Hbound in Hpos|]; lia.
  - rewrite Hrounds. simpl. rewrite <- list_fmap_compose, Nat.sub_0_r.
    apply list_fmap_ext. intros i j _. simpl. by rewrite Nat.sub_0_r.
  - rewrite Hrounds. simpl. rewrite <- list_fmap_compose, Nat.sub_0_r.
    apply list_fmap_ext. intros i j _. simpl. by rewrite Nat.sub_0_r.
Qed.

End RetryFacts.

(** *** [storeProductData] *)
Section RagFacts.
Context {Vector : Type}.
Implicit Types (generateEmbedding : nat → string → string + Vector).
Implicit Types (put : nat → list (Point (Vector := Vector)) → PutOutcome).

Lemma chunk_loop_spec chunks i batches :
  i ≤ length chunks →
  concat (chunk_loop chunks i batches) = concat batches ++ drop i chunks
  ∧ (Forall (λ b : list string, 1 ≤ length b ≤ 5) batches →
     Forall (λ b : list string, 1 ≤ length b ≤ 5) (chunk_loop chunks i batches))
  ∧ length (chunk_loop chunks i batches)
    = length batches + (length chunks - i + 4) / 5.
Proof.
  funelim (chunk_loop chunks i batches); intros Hi.
  - destruct (decide (i + 5 ≤ length chunks)) as [Hle|Hgt].
    + destruct (H Hle) as (Hc & Hall & Hlen). split_and!.
      * rewrite Hc, concat_app. simpl. rewrite app_nil_r, <- app_assoc. f_equal.
        rewrite <- (take_drop 5 (drop i chunks)) at 2. by rewrite drop_drop.
      * intros Hb. apply Hall, Forall_app. split; [done|].
        apply Forall_singleton. rewrite length_take, length_drop. lia.
      * rewrite Hlen, length_app. cbn [length].
        replace (length chunks - i + 4) with ((length chunks - (i + 5) + 4) + 1 * 5) by lia.
        rewrite Nat.div_add by lia. lia.
    + assert (Hrest : chunk_loop chunks (i + 5) (batches ++ [take 5 (drop i chunks)])
                      = batches ++ [take 5 (drop i chunks)]).
      { rewrite chunk_loop_equation_1. destruct (decide (i + 5 < length chunks)); [lia|done]. }
      rewrite Hrest. split_and!.
      * rewrite concat_app. simpl. rewrite app_nil_r. f_equal.
        apply take_ge. rewrite length_drop. lia.
      * intros Hb. apply Forall_app. split; [done|].
        apply Forall_singleton. rewrite length_take, length_drop. lia.
      * rewrite length_app. cbn [length]. f_equal.
        apply (Nat.div_unique _ 5 1 (length chunks - i - 1)); lia.
  - split_and!; try done.
    + rewrite drop_ge by lia. by rewrite app_nil_r.
    + replace (length chunks - i) with 0 by lia.
      rewrite Nat.div_small by lia. lia.
Qed.

Lemma fmap_concat_lists {A B} (f : A → B) (ls : list (list A)) :
  f <$> concat ls = concat (fmap (M := list) f <$> ls).
Proof.
  induction ls as [|l ls IH]; [done|]. simpl. by rewrite fmap_app, IH.
Qed.

Lemma embed_batch_spec generateEmbedding batch : ∀ pointId acc points,
  embed_batch generateEmbedding pointId batch acc = inr points →
  point_id <$> points = (point_id <$> acc) ++ (pretty <$> seq pointId (length batch))
  ∧ point_text <$> points = (point_text <$> acc) ++ batch.
Proof.
  induction batch as [|chunk batch IH]; intros pointId acc points; simpl.
  - intros [= <-]. by rewrite !app_nil_r.
  - destruct (generateEmbedding pointId chunk) as [error|embedding]; [done|].
    intros Hrest. destruct (IH _ _ _ Hrest) as [Hid Htext].
    rewrite Hid, Htext, !fmap_app. simpl. by rewrite <- !app_assoc.
Qed.

Lemma store_batches_spec generateEmbedding put (batches : list (list string)) : ∀ k pointId : nat,
  point_id <$> concat (puts (store_batches generateEmbedding put k pointId batches))
  = pretty <$> seq pointId
      (length (concat (puts (store_batches generateEmbedding put k pointId batches))))
  ∧ point_text <$> concat (puts (store_batches generateEmbedding put k pointId batches))
    = take (length (concat (puts (store_batches generateEmbedding put k pointId batches))))
        (concat batches)
  ∧ (fmap (M := list) point_text <$> puts (store_batches generateEmbedding put k pointId batches))
      `prefix_of` batches
  ∧ (thrown (store_batches generateEmbedding put k pointId batches) = None →
     length (puts (store_batches generateEmbedding put k pointId batches)) = length batches).
Proof.
  induction batches as [|batch batches IH]; intros k pointId; simpl.
  { split_and!; try done. }
  destruct (embed_batch generateEmbedding pointId batch []) as [error|points] eqn:Hemb.
  { simpl. split_and!; try done. apply prefix_nil. }
  destruct (embed_batch_spec _ _ _ _ _ Hemb) as [Hid Htext]. simpl in Hid, Htext.
  assert (Hlen : length points = length batch).
  { apply (f_equal length) in Htext. by rewrite length_fmap in Htext. }
  destruct (put k points) as [|errorText|error].
  - destruct (IH (S k) (pointId + length batch)) as (Hid' & Htext' & Hpre & Hall).
    simpl. split_and!.
    + rewrite fmap_app, Hid, Hid', length_app, Hlen, seq_app, fmap_app. done.
    + rewrite fmap_app, Htext, Htext', length_app, Hlen.
      rewrite take_app_add'; done.
    + rewrite Htext. by apply prefix_cons.
    + intros Hnone. by rewrite Hall.
  - simpl. rewrite !app_nil_r. split_and!; try done.
    + by rewrite Hid, Hlen.
    + rewrite Htext, Hlen. by rewrite take_app_length.
    + rewrite Htext. apply prefix_cons, prefix_nil.
  - simpl. rewrite !app_nil_r. split_and!; try done.
    + by rewrite Hid, Hlen.
    + rewrite Htext, Hlen. by rewrite take_app_length.
    + rewrite Htext. apply prefix_cons, prefix_nil.
Qed.

(** [storeProductData] sends the chunks in batches of five, one [PUT] per
    batch, in order.  Whatever the embedding service and the database
    answer, the points sent are numbered 1, 2, 3, ... in the order of the
    chunks and carry the chunks as their texts, so that a second call
    overwrites the points of the first; the requests made are a prefix of
    the batches (after a failure nothing more is sent, and what was sent
    stays), and when nothing is thrown every chunk has been sent, in
    [ceil(n / 5)] requests. *)
Theorem storeProductData_numbers_points generateEmbedding put (chunks : list string) :
  point_id <$> concat (puts (storeProductData generateEmbedding put chunks))
  = pretty <$> seq 1 (length (concat (puts (storeProductData generateEmbedding put chunks))))
  ∧ point_text <$> concat (puts (storeProductData generateEmbedding put chunks))
    = take (length (concat (puts (storeProductData generateEmbedding put chunks)))) chunks
  ∧ Forall (λ ps, 1 ≤ length ps ≤ 5) (puts (storeProductData generateEmbedding put chunks))
  ∧ (thrown (storeProductData generateEmbedding put chunks) = None →
     point_text <$> concat (puts (storeProductData generateEmbedding put chunks)) = chunks
     ∧ length (puts (storeProductData generateEmbedding put chunks)) = (length chunks + 4) / 5).
Proof.
  set (r := storeProductData generateEmbedding put chunks).
  destruct (chunk_loop_spec chunks 0 []) as (Hconcat & Hsizes & Hcount); [lia|].
  simpl in Hconcat, Hcount. rewrite drop_0 in Hconcat. rewrite Nat.sub_0_r in Hcount.
  specialize (Hsizes (Forall_nil_2 _)).
  destruct (store_batches_spec generateEmbedding put (chunk_loop chunks 0 []) 0 1)
    as (Hid & Htext & Hpre & Hall).
  rewrite Hconcat in Htext.
  set (r0 := store_batches generateEmbedding put 0 1 (chunk_loop chunks 0 [])) in *.
  assert (Hputs : puts r = puts r0 ∧ (thrown r = None → thrown r0 = None)).
  { unfold r, storeProductData. fold r0. by destruct (thrown r0). }
  destruct Hputs as [Hputs Hthrown]. rewrite Hputs.
  split_and!; try done.
  - destruct Hpre as [rest Hrest]. rewrite Hrest in Hsizes.
    apply Forall_app in Hsizes as [Hsizes _].
    rewrite Forall_fmap in Hsizes. eapply Forall_impl; [exact Hsizes|].
    intros ps. simpl. by rewrite length_fmap.
  - intros Hnone%Hthrown. specialize (Hall Hnone). split; [|by rewrite Hall].
    rewrite Htext. apply take_ge.
    destruct Hpre as [rest Hrest].
    assert (rest = []) as ->.
    { apply (f_equal length) in Hrest. rewrite length_app, length_fmap, Hall in Hrest.
      destruct rest; [done|simpl in Hrest; lia]. }
    rewrite app_nil_r in Hrest. rewrite <- Hconcat, Hrest.
    rewrite <- fmap_concat_lists. by rewrite length_fmap.
Qed.

End RagFacts.

End HelperFacts.
